(** * analysis-essentials: the sPlot notebook, the data-frame lesson and the
      "Build webpage" workflow

    The development embeds these parts of the repository:

    - [SPlot]: the sWeight formulas of [advanced-python/60sPlot.ipynb]
      (the fitted-yield form of the hepstats section, the probability form
      of the derivation section, the notebook's own normalisation of the
      probability table and the cells that feed it to [compute_sweights]);
    - [Binary64]: float64 arithmetic (IEEE 754 binary64, rounding to
      nearest with ties to even), and the notebook's normalisation of the
      probability table in it;
    - [Frame]: the [DataFrame.eval] assignments and the [query] cuts of the
      data-frame lesson;
    - [Workflow]: the "Build webpage" GitHub Actions workflow, with the
      runner's rules for [if:] conditions, step failure and custom shells;
    - [Classes]: the classes of the lesson on dunder methods, with the
      interpreter's rules for indexing a list and for the [+] operator.

    The sWeight formulas are stated over the real numbers: they are the
    mathematics of the notebook, and the libraries that evaluate them
    (hepstats, hep_ml) are not part of the repository.  The arithmetic of
    the notebook's own cell, the normalisation of the probability table, is
    given twice: in exact arithmetic ([SPlot.normalize]), which is the input
    of the formulas, and in float64 ([Binary64.normalize]), which is what
    the cell computes.  The frames of the data-frame lesson hold real
    numbers. *)

From Stdlib Require Import Reals Lra Lia ZArith List String.
From stdpp Require Import base list gmap strings pretty.
From Stdlib Require Import QArith Qround Qabs Qpower Psatz.
From Stdlib Require PrimFloat FloatOps SpecFloat.

(* ===================================================================== *)
(** * Part I: definitions *)
(* ===================================================================== *)

Module SPlot.
Local Open Scope R_scope.

(** [np.sum] of a one-dimensional array. *)
Fixpoint np_sum (xs : list R) : R :=
  match xs with
  | [] => 0
  | x :: xs' => x + np_sum xs'
  end.

(** One row of a two-column table: the value of the signal column and of
    the background column for one event.  The notebook uses such tables for
    the densities [f_n(x_e)], for the probabilities [p_s(x), p_b(x)] and for
    the resulting sWeights. *)
Record row : Type := Row { sig : R; bkg : R }.

(** The sources of the sample: "0 is the signal and 1 is the background". *)
Inductive source : Type := Sig | Bkg.

(** [f_n(x_e)]: the density of source [n] at the event of row [e]. *)
Definition pdf (n : source) (e : row) : R :=
  match n with Sig => sig e | Bkg => bkg e end.

(** The fitted yields [N_n]. *)
Record yields : Type := Yields { N_sig : R; N_bkg : R }.

Definition yield (N : yields) (n : source) : R :=
  match n with Sig => N_sig N | Bkg => N_bkg N end.

(** The denominator [sum_k N_k f_k(x)] of both sWeight equations. *)
Definition total (N : yields) (e : row) : R :=
  yield N Sig * pdf Sig e + yield N Bkg * pdf Bkg e.

(** A (sources x sources) matrix. *)
Record mat2 : Type := Mat2 { m_ss : R; m_sb : R; m_bs : R; m_bb : R }.

Definition entry (M : mat2) (n j : source) : R :=
  match n, j with
  | Sig, Sig => m_ss M
  | Sig, Bkg => m_sb M
  | Bkg, Sig => m_bs M
  | Bkg, Bkg => m_bb M
  end.

Definition det (M : mat2) : R := m_ss M * m_bb M - m_sb M * m_bs M.

(** Outcome of a computation that inverts a matrix: numpy's inversion raises
    its singular-matrix error, and nothing else in the computation raises. *)
Inductive result (A : Type) : Type :=
  | Ok (a : A)
  | SingularMatrix.
Arguments Ok {A} a.
Arguments SingularMatrix {A}.

(** Inverse of a 2x2 matrix; singular exactly when the determinant is zero. *)
Definition inv (M : mat2) : result mat2 :=
  if Req_dec_T (det M) 0 then SingularMatrix
  else Ok (Mat2 (m_bb M / det M) (- m_sb M / det M)
                (- m_bs M / det M) (m_ss M / det M)).

(** ** The fitted-yield form (section "Splot")

    [V^{-1}_{nj} = sum_e f_n(x_e) f_j(x_e) / (sum_k N_k f_k(x_e))^2]. *)
Definition Vinv_entry (N : yields) (data : list row) (n j : source) : R :=
  np_sum (map (fun e => pdf n e * pdf j e / (total N e) ^ 2) data).

Definition Vinv (N : yields) (data : list row) : mat2 :=
  Mat2 (Vinv_entry N data Sig Sig) (Vinv_entry N data Sig Bkg)
       (Vinv_entry N data Bkg Sig) (Vinv_entry N data Bkg Bkg).

(** [W_n(x) = (sum_j V_nj f_j(x)) / (sum_k N_k f_k(x))]. *)
Definition W (V : mat2) (N : yields) (n : source) (e : row) : R :=
  (entry V n Sig * pdf Sig e + entry V n Bkg * pdf Bkg e) / total N e.

(** The sWeights of every event, one column per source. *)
Definition sweights (N : yields) (data : list row) : result (list row) :=
  match inv (Vinv N data) with
  | SingularMatrix => SingularMatrix
  | Ok V => Ok (map (fun e => Row (W V N Sig e) (W V N Bkg e)) data)
  end.

(** The conditions of the extended maximum-likelihood fit: the mixture
    density is defined and non-zero at every event, and the extended
    likelihood [sum_e log (sum_k N_k f_k(x_e)) - sum_k N_k] is stationary in
    each yield, i.e. [sum_e f_n(x_e) / sum_k N_k f_k(x_e) = 1]. *)
Definition fitted (N : yields) (data : list row) : Prop :=
  Forall (fun e => total N e <> 0) data /\
  forall n, np_sum (map (fun e => pdf n e / total N e) data) = 1.

(** ** The probability form (section "Derivation of sWeights")

    [V_ss = sum_x p_s p_s], [V_bs = V_sb = sum_x p_s p_b],
    [V_bb = sum_x p_b p_b]. *)
Definition V_ss (probs : list row) : R :=
  np_sum (map (fun x => sig x * sig x) probs).
Definition V_sb (probs : list row) : R :=
  np_sum (map (fun x => sig x * bkg x) probs).
Definition V_bs (probs : list row) : R := V_sb probs.
Definition V_bb (probs : list row) : R :=
  np_sum (map (fun x => bkg x * bkg x) probs).

(** The matrix of the linear system. *)
Definition V (probs : list row) : mat2 :=
  Mat2 (V_ss probs) (V_sb probs) (V_bs probs) (V_bb probs).

(** [a_1 V_bb + a_2 V_bs = 0] and [a_1 V_sb + a_2 V_ss = N_sig]. *)
Definition linear_system (probs : list row) (Nsig a1 a2 : R) : Prop :=
  a1 * V_bb probs + a2 * V_bs probs = 0 /\
  a1 * V_sb probs + a2 * V_ss probs = Nsig.

(** "Having solved this linear equation, we get needed coefficients".
    The notebook does not say how the system is solved; here it is solved
    through the inverse of its matrix, which is also where the
    singular-matrix error comes from. *)
Definition coefficients (probs : list row) (Nsig : R) : result (R * R) :=
  match inv (V probs) with
  | SingularMatrix => SingularMatrix
  | Ok Vi => Ok (m_sb Vi * Nsig, m_ss Vi * Nsig)
  end.

(** [sw_s(x) = a_1 p_b(x) + a_2 p_s(x)]. *)
Definition sw (a1 a2 : R) (x : row) : R := a1 * bkg x + a2 * sig x.

(** The signal sWeight of every event. *)
Definition signal_sweights (probs : list row) (Nsig : R) : result (list R) :=
  match coefficients probs Nsig with
  | SingularMatrix => SingularMatrix
  | Ok (a1, a2) => Ok (map (sw a1 a2) probs)
  end.

(** Exchanges the two columns: the background weights are the signal
    weights of the table with the roles of the classes exchanged. *)
Definition swap (x : row) : row := Row (bkg x) (sig x).

(** The sWeights table, one column per class, as [sWeights.sig] and
    [sWeights.bck] are used by the notebook.  The implementation in
    [hep_ml] is not part of the repository: the table is computed as the
    derivation section of the notebook describes it, with the number of
    events of each class as it is "available from fitting". *)
Definition compute_sweights (N : yields) (probs : list row)
  : result (list row) :=
  match signal_sweights probs (N_sig N),
        signal_sweights (map swap probs) (N_bkg N) with
  | Ok ws, Ok wb => Ok (zip_with Row ws wb)
  | _, _ => SingularMatrix
  end.

(** ** The optimisation problem (section "Minimization of variation")

    [sum_x sw_s(x)^2 -> min], [sum_x sw_s(x) p_b(x) = 0],
    [sum_x sw_s(x) p_s(x) = N_sig]; a candidate gives one weight per event. *)
Definition weighted_sum (g : row -> R) (probs : list row) (w : list R) : R :=
  np_sum (zip_with (fun x wx => wx * g x) probs w).

Definition objective (w : list R) : R :=
  np_sum (map (fun wx => wx * wx) w).

Definition feasible (probs : list row) (Nsig : R) (w : list R) : Prop :=
  length w = length probs /\
  weighted_sum bkg probs w = 0 /\
  weighted_sum sig probs w = Nsig.

Definition minimiser (probs : list row) (Nsig : R) (w : list R) : Prop :=
  feasible probs Nsig w /\
  forall w', feasible probs Nsig w' -> objective w <= objective w'.

(** ** Linear dependence of the two columns across the sample *)
Definition dependent (data : list row) : Prop :=
  exists a b : R,
    (a <> 0 \/ b <> 0) /\ Forall (fun e => a * sig e + b * bkg e = 0) data.

Definition independent (data : list row) : Prop := ~ dependent data.

(** Symmetry and positive semi-definiteness of a 2x2 matrix. *)
Definition symmetric (M : mat2) : Prop := m_sb M = m_bs M.

Definition quadratic_form (M : mat2) (x y : R) : R :=
  x * (m_ss M * x + m_sb M * y) + y * (m_bs M * x + m_bb M * y).

Definition positive_semidefinite (M : mat2) : Prop :=
  forall x y : R, 0 <= quadratic_form M x y.

(** ** The notebook's cells around [compute_sweights]

    [probs.sum(axis=1)]: the sum of each row. *)
Definition row_sum (x : row) : R := sig x + bkg x.

(** [probs.div(s, axis=0)] in exact arithmetic: each row divided by its
    entry of [s].  The float64 division of the cell is [Binary64.div]. *)
Definition div (probs : list row) (s : list R) : list row :=
  zip_with (fun x sx => Row (sig x / sx) (bkg x / sx)) probs s.

(** [probs = probs.div(probs.sum(axis=1), axis=0)] in exact arithmetic. *)
Definition normalize (probs : list row) : list row :=
  div probs (map row_sum probs).

(** Multiplies the values of the event at position [i] by [c]. *)
Definition scale (c : R) (x : row) : row := Row (c * sig x) (c * bkg x).

Definition rescale_event (i : nat) (c : R) (data : list row) : list row :=
  alter (scale c) i data.

(** An event of the toy sample: the splotted variable [mass] and the
    variable [p] that is reconstructed with the weights. *)
Record event : Type := Event { mass : R; p : R }.

Section Notebook.
(** [sig_mass_distr.pdf] and [bck_mass_distr.pdf] (scipy's [norm(loc=4,
    scale=1)] and [expon(scale=4)]), and the yields of the two classes. *)
Variables sig_pdf bck_pdf : R -> R.
Variable N : yields.

(** [pandas.DataFrame(dict(sig=sig_mass_distr.pdf(mass),
    bck=bck_mass_distr.pdf(mass)))]. *)
Definition densities (events : list event) : list row :=
  map (fun e => Row (sig_pdf (mass e)) (bck_pdf (mass e))) events.

(** The table handed to [splot.compute_sweights]. *)
Definition probs_of (events : list event) : list row :=
  normalize (densities events).

(** [sWeights = splot.compute_sweights(probs)]. *)
Definition notebook_sweights (events : list event) : result (list row) :=
  compute_sweights N (probs_of events).



End Notebook.

(** ** Auxiliary notions of the proofs

    The row of an event divided by its mixture density. *)
Definition per_total (N : yields) (e : row) : row :=
  Row (sig e / total N e) (bkg e / total N e).

(** The squared distance between a candidate and a function of the event. *)
Definition distance (h : row -> R) (probs : list row) (w : list R) : R :=
  np_sum (zip_with (fun x wx => (wx - h x) * (wx - h x)) probs w).

(** One row divided by its own sum. *)
Definition normalize_row (x : row) : row :=
  Row (sig x / row_sum x) (bkg x / row_sum x).

(** ** The toy samples of the notebook

    What the cells that build and plot the samples can raise. *)
Inductive exception : Type :=
  AssertionError | ValueError | IndexError | TypeError.

Inductive outcome (A : Type) : Type :=
  | Returns (a : A)
  | Raises (e : exception).
Arguments Returns {A} a.
Arguments Raises {A} e.

(** [np.concatenate(arrays)]: numpy needs at least one array. *)
Definition concatenate (arrays : list (list R)) : outcome (list R) :=
  match arrays with
  | [] => Raises ValueError
  | _ => Returns (concat arrays)
  end.

(** [np.ones(n) * w]. *)
Definition ones (n : nat) : list R := replicate n 1.

Definition times (xs : list R) (w : R) : list R := map (fun x => x * w) xs.

(** The values of the keyword arguments that the notebook passes on to
    [plt.hist]: [density=True] and [label='...']. *)
Inductive value : Type := Bool (b : bool) | Str (s : string).

(** A call [plt.hist(x, weights=..., alpha=..., bins=..., **kargs)].  What
    matplotlib does with the call, the normalisation under [density=True]
    and its own errors included, is outside the repository. *)
Record hist_call : Type :=
  Hist { hist_x : list R; hist_weights : list R; hist_alpha : R;
         hist_bins : nat; hist_kargs : list (string * value) }.

(** The keywords that [plot_with_weights] itself gives to [plt.hist]: a call
    cannot give a keyword twice. *)
Definition explicit_keywords : list string :=
  ["weights"; "alpha"; "bins"]%string.

Definition repeats_keyword (kargs : list (string * value)) : bool :=
  existsb (fun kv => existsb (String.eqb (fst kv)) explicit_keywords) kargs.

(** [plot_with_weights(datas, weights, **kargs)]:
    [assert len(datas) == len(weights)],
    [data = np.concatenate(datas)],
    [weight = np.concatenate([np.ones(len(d)) * w for d, w in zip(datas, weights)])],
    [plt.hist(data, weights=weight, alpha=0.5, bins=30, **kargs)].
    The result is the call of [plt.hist] that the function ends with, or
    the exception raised before that call is made. *)
Definition plot_with_weights (datas : list (list R)) (weights : list R)
           (kargs : list (string * value)) : outcome hist_call :=
  if Nat.eqb (length datas) (length weights) then
    match concatenate datas with
    | Raises e => Raises e
    | Returns data =>
        match concatenate
                (zip_with (fun d w => times (ones (length d)) w) datas weights)
        with
        | Raises e => Raises e
        | Returns weight =>
            if repeats_keyword kargs then Raises TypeError
            else Returns (Hist data weight 0.5 30 kargs)
        end
    end
  else Raises AssertionError.

(** The (value, weight) pairs that a call hands to [plt.hist]. *)
Definition entries (call : hist_call) : list (R * R) :=
  zip (hist_x call) (hist_weights call).

(** The weight filled into one bin: the sum of the weights of the
    entries whose value lies in the bin, before any normalisation. *)
Definition content (in_bin : R -> bool) (entries : list (R * R)) : R :=
  np_sum (map (fun e => if in_bin (fst e) then snd e else 0) entries).

(** The number of values of a sample that lie in the bin. *)
Definition count (in_bin : R -> bool) (sample : list R) : R :=
  np_sum (map (fun x => if in_bin x then 1 else 0) sample).

(** [first_bin = np.concatenate([sig_data[:n_sig1], bck_data[:n_bck1]])] and
    [second_bin = np.concatenate([sig_data[n_sig1:], bck_data[n_bck1:]])]. *)
Definition first_bin (sig_data bck_data : list R) (n_sig1 n_bck1 : nat)
  : list R :=
  take n_sig1 sig_data ++ take n_bck1 bck_data.

Definition second_bin (sig_data bck_data : list R) (n_sig1 n_bck1 : nat)
  : list R :=
  drop n_sig1 sig_data ++ drop n_bck1 bck_data.

(** [xs[mask]] for a boolean array [mask]: numpy raises [IndexError] when
    the mask has not the length of the array. *)
Fixpoint select {A} (mask : list bool) (xs : list A) : list A :=
  match mask, xs with
  | b :: mask', x :: xs' => if b then x :: select mask' xs' else select mask' xs'
  | _, _ => []
  end.

Definition mask_index (xs : list R) (mask : list bool) : outcome (list R) :=
  if Nat.eqb (length mask) (length xs) then Returns (select mask xs)
  else Raises IndexError.

(** [x > c] on an array. *)
Definition gt (x c : R) : bool := if Rlt_dec c x then true else false.

(** The lifetime cut and the two arrays of the sample:
    [t_cut = np_bkg_t_sw > 0],
    [np_bkg_t_sw = np_bkg_t_sw[t_cut]], [np_bkg_m_sw = np_bkg_m_sw[t_cut]],
    [np_m_sw = np.concatenate([np_sig_m_sw, np_bkg_m_sw])],
    [np_t_sw = np.concatenate([np_sig_t_sw, np_bkg_t_sw])].
    The result is the pair [(np_m_sw, np_t_sw)]. *)
Definition lifetime_cut (np_sig_m_sw np_sig_t_sw np_bkg_m_sw np_bkg_t_sw
                         : list R) : outcome (list R * list R) :=
  let t_cut := map (fun t => gt t 0) np_bkg_t_sw in
  match mask_index np_bkg_t_sw t_cut with
  | Raises e => Raises e
  | Returns bkg_t =>
      match mask_index np_bkg_m_sw t_cut with
      | Raises e => Raises e
      | Returns bkg_m => Returns (np_sig_m_sw ++ bkg_m, np_sig_t_sw ++ bkg_t)
      end
  end.

(** [xs[sorter]] for an array [sorter] of indices: numpy raises
    [IndexError] at an index outside the array. *)
Fixpoint index_array {A} (xs : list A) (sorter : list nat)
  : outcome (list A) :=
  match sorter with
  | [] => Returns []
  | i :: rest =>
      match xs !! i, index_array xs rest with
      | Some x, Returns ys => Returns (x :: ys)
      | _, _ => Raises IndexError
      end
  end.

End SPlot.

Module Binary64.
Local Open Scope Q_scope.

(** Python's [float] and numpy's [float64] are IEEE 754 binary64 numbers.
    The finite ones are read as the rationals they denote; an operation
    gives the float64 number nearest to the exact result (of two that are
    equally near, the one with the even significand), or [None] when the
    result is not a finite number (an infinity or NaN). *)

(** [floor (log2 q)] of a positive rational. *)
Definition floor_log2 (q : Q) : Z :=
  let k := (Z.log2 (Qnum q) - Z.log2 (Zpos (Qden q)))%Z in
  if Qle_bool (2 ^ k) q then k else (k - 1)%Z.

(** The integer nearest to [q], the even one of two that are equally near. *)
Definition nearest_even (q : Q) : Z :=
  let f := Qfloor q in
  match Qcompare (q - inject_Z f) (1 # 2) with
  | Lt => f
  | Gt => (f + 1)%Z
  | Eq => if Z.even f then f else (f + 1)%Z
  end.

(** The exponent of the last place of the float64 numbers around [q]:
    53 bits of significand, and [2 ^ -1074] for the subnormal numbers. *)
Definition exponent (q : Q) : Z :=
  Z.max (floor_log2 (Qabs q) - 52) (-1074).

(** The nearest number with 53 significant bits and no bound on the
    exponent above. *)
Definition nearest (q : Q) : Q :=
  inject_Z (nearest_even (q / 2 ^ exponent q)) * 2 ^ exponent q.

(** Rounding to float64; results of magnitude [2 ^ 1024] and above
    overflow to an infinity. *)
Definition round (q : Q) : option Q :=
  if Qeq_bool q 0 then Some 0
  else
    let r := Qred (nearest q) in
    if Qle_bool (2 ^ 1024) (Qabs r) then None else Some r.

(** [x + y], [x * y] and [x / y] on float64; numpy divides by zero without
    raising, the result being an infinity or NaN. *)
Definition add (x y : Q) : option Q := round (x + y).
Definition mul (x y : Q) : option Q := round (x * y).
Definition truediv (x y : Q) : option Q :=
  if Qeq_bool y 0 then None else round (x / y).

(** The rationals that are float64 numbers: rounding leaves them as they
    are. *)
Definition is_float (q : Q) : bool :=
  match round q with
  | Some r => Qeq_bool r q
  | None => false
  end.

(** One row of the table of densities, in float64. *)
Record row : Type := Row { sig : Q; bkg : Q }.

(** [probs.sum(axis=1)]: the float64 sum of a row. *)
Definition row_sum (x : row) : option Q := add (sig x) (bkg x).

(** One row of [probs.div(probs.sum(axis=1), axis=0)]: both entries
    divided by the sum of the row.  [None] stands for a row in which an
    infinity or NaN appears. *)
Definition div_row (x : row) (s : option Q) : option row :=
  match s with
  | Some t =>
      match truediv (sig x) t, truediv (bkg x) t with
      | Some ps, Some pb => Some (Row ps pb)
      | _, _ => None
      end
  | None => None
  end.

(** [probs.div(s, axis=0)] and
    [probs = probs.div(probs.sum(axis=1), axis=0)] in float64. *)
Definition div (probs : list row) (s : list (option Q))
  : list (option row) :=
  zip_with div_row probs s.

Definition normalize (probs : list row) : list (option row) :=
  div probs (map row_sum probs).

(** The densities of one event multiplied by [c], in float64. *)
Definition scale (c : Q) (x : row) : option row :=
  match mul c (sig x), mul c (bkg x) with
  | Some s, Some b => Some (Row s b)
  | _, _ => None
  end.

(** The event at position [i] with its densities multiplied by [c]. *)
Definition rescale_event (i : nat) (c : Q) (data : list row)
  : option (list row) :=
  match data !! i with
  | Some x =>
      match scale c x with
      | Some x' => Some (<[i := x']> data)
      | None => None
      end
  | None => Some data
  end.

(** The row as a row of real numbers. *)
Definition reals (x : row) : SPlot.row :=
  SPlot.Row (Q2R (sig x)) (Q2R (bkg x)).

(** The decimal literals [0.1], [0.3] and [0.5] of float64. *)
Definition f0_1 : Q := 3602879701896397 # 36028797018963968.
Definition f0_3 : Q := 5404319552844595 # 18014398509481984.
Definition f0_5 : Q := 1 # 2.

End Binary64.

Module Kernel.
Import PrimFloat FloatOps SpecFloat.
Local Open Scope Q_scope.

(** The rational that a finite float64 number of Rocq's kernel denotes. *)
Definition of_float (f : float) : option Q :=
  match Prim2SF f with
  | S754_zero _ => Some 0
  | S754_finite s m e =>
      Some (Qred ((if s then -1 else 1) * inject_Z (Zpos m) * 2 ^ e))
  | _ => None
  end.

End Kernel.

Module Frame.
Local Open Scope R_scope.
Local Open Scope string_scope.

(** A [DataFrame]: its columns by name.  All columns of a frame read from
    a tree have one entry per candidate. *)
Abbreviation frame := (gmap string (list R)).

(** The functions that the lesson calls inside [eval] strings. *)
Inductive func : Type := Sqrt | Arctanh.

Definition arctanh (x : R) : R := / 2 * ln ((1 + x) / (1 - x)).

Definition apply (f : func) (x : R) : R :=
  match f with Sqrt => sqrt x | Arctanh => arctanh x end.

(** The right-hand sides of the [eval] strings: column names, [+], [/],
    [** n] and function calls. *)
Inductive expr : Type :=
  | Col (name : string)
  | Add (a b : expr)
  | Div (a b : expr)
  | Pow (a : expr) (n : nat)
  | Call (f : func) (a : expr).

(** Column-wise evaluation; a name that is not a column of the frame makes
    [eval] raise, which is [None]. *)
Fixpoint eval_expr (df : frame) (e : expr) : option (list R) :=
  match e with
  | Col name => df !! name
  | Add a b =>
      match eval_expr df a, eval_expr df b with
      | Some xs, Some ys => Some (zip_with Rplus xs ys)
      | _, _ => None
      end
  | Div a b =>
      match eval_expr df a, eval_expr df b with
      | Some xs, Some ys => Some (zip_with Rdiv xs ys)
      | _, _ => None
      end
  | Pow a n =>
      match eval_expr df a with
      | Some xs => Some (map (fun x => x ^ n) xs)
      | None => None
      end
  | Call f a =>
      match eval_expr df a with
      | Some xs => Some (map (apply f) xs)
      | None => None
      end
  end.

(** [df.eval('target = rhs', inplace=True)]: the frame with the column
    [target] added or replaced. *)
Definition eval (target : string) (rhs : expr) (df : frame) : option frame :=
  match eval_expr df rhs with
  | Some column => Some (<[target := column]> df)
  | None => None
  end.

(** The names that an expression reads. *)
Fixpoint names (e : expr) : list string :=
  match e with
  | Col name => [name]
  | Add a b | Div a b => names a ++ names b
  | Pow a _ | Call _ a => names a
  end.

(** [sqrt(x_PX**2 + x_PY**2 + x_PZ**2)] for a particle prefix [x]. *)
Definition magnitude (x : string) : expr :=
  Call Sqrt (Add (Add (Pow (Col (x ++ "_PX")) 2) (Pow (Col (x ++ "_PY")) 2))
                 (Pow (Col (x ++ "_PZ")) 2)).

(** [arctanh(Jpsi_PZ/Jpsi_P)]. *)
Definition Jpsi_eta : expr := Call Arctanh (Div (Col "Jpsi_PZ") (Col "Jpsi_P")).

(** The cell of the real data:
    [data_df.eval('mup_P = sqrt(mup_PX**2 + mup_PY**2 + mup_PZ**2)', inplace=True)]
    [data_df.eval('mum_P = sqrt(mum_PX**2 + mum_PY**2 + mum_PZ**2)', inplace=True)] *)
Definition data_cell (data_df : frame) : option frame :=
  match eval "mup_P" (magnitude "mup") data_df with
  | Some df1 => eval "mum_P" (magnitude "mum") df1
  | None => None
  end.

(** The cell that loads the simulated data, after the tree is read:
    [mc_df.eval('Jpsi_eta = arctanh(Jpsi_PZ/Jpsi_P)', inplace=True)]
    [mc_df.eval('mup_P = sqrt(mum_PX**2 + mum_PY**2 + mum_PZ**2)', inplace=True)]
    [mc_df.eval('mum_P = sqrt(mum_PX**2 + mum_PY**2 + mum_PZ**2)', inplace=True)] *)
Definition mc_cell (mc_df : frame) : option frame :=
  match eval "Jpsi_eta" Jpsi_eta mc_df with
  | Some df1 =>
      match eval "mup_P" (magnitude "mum") df1 with
      | Some df2 => eval "mum_P" (magnitude "mum") df2
      | None => None
      end
  | None => None
  end.

(** A frame of one candidate whose two muons have different momenta. *)
Definition one_candidate : frame :=
  <["mup_PX" := [3]]> (<["mup_PY" := [4]]> (<["mup_PZ" := [0]]>
  (<["mum_PX" := [0]]> (<["mum_PY" := [0]]> (<["mum_PZ" := [0]]>
  (<["Jpsi_PZ" := [0]]> (<["Jpsi_P" := [1]]> ∅))))))).

(** ** Selections

    The conditions of the [query] strings: comparisons of a column with a
    number, the chained comparison [lo < column < hi], [&] and [~]. *)
Inductive cond : Type :=
  | Gt (name : string) (c : R)
  | Between (lo : R) (name : string) (hi : R)
  | Both (a b : cond)
  | Neg (a : cond).

Definition ltb (x y : R) : bool := if Rlt_dec x y then true else false.

(** The boolean column of a condition; [None] when a name is not a column
    of the frame. *)
Fixpoint eval_cond (df : frame) (c : cond) : option (list bool) :=
  match c with
  | Gt name c => map (fun x => ltb c x) <$> df !! name
  | Between lo name hi => map (fun x => ltb lo x && ltb x hi) <$> df !! name
  | Both a b =>
      match eval_cond df a, eval_cond df b with
      | Some ma, Some mb => Some (zip_with andb ma mb)
      | _, _ => None
      end
  | Neg a => map negb <$> eval_cond df a
  end.

(** [df.query(condition)]: a new frame with the rows at which the condition
    holds, in every column. *)
Definition query (c : cond) (df : frame) : option frame :=
  match eval_cond df c with
  | Some mask => Some (SPlot.select mask <$> df)
  | None => None
  end.

(** ['Jpsi_PT > 4'] *)
Definition pt_cut : cond := Gt "Jpsi_PT" 4.

(** ['(Jpsi_PT > 4) & ((mum_ProbNNmu > 0.9) & (mup_ProbNNmu > 0.9))'] *)
Definition pt_and_pid_cut : cond :=
  Both (Gt "Jpsi_PT" 4) (Both (Gt "mum_ProbNNmu" 0.9) (Gt "mup_ProbNNmu" 0.9)).

(** ['~(3.0 < Jpsi_M < 3.2)'] *)
Definition sideband : cond := Neg (Between 3.0 "Jpsi_M" 3.2).

(** A frame of [n] rows: every column has [n] entries. *)
Definition rectangular (n : nat) (df : frame) : Prop :=
  forall name column, df !! name = Some column -> length column = n.

(** The number of rows that a boolean column keeps. *)
Definition rows_kept (mask : list bool) : nat :=
  length (SPlot.select mask mask).

(** The row of the frame from which the [i]-th kept row comes. *)
Fixpoint origin (mask : list bool) (i : nat) : option nat :=
  match mask with
  | [] => None
  | true :: mask' =>
      match i with
      | O => Some O
      | S i' => S <$> origin mask' i'
      end
  | false :: mask' => S <$> origin mask' i
  end.

(** A frame of two candidates, one inside the mass window and above the
    pT cut, one outside and below. *)
Definition two_candidates : frame :=
  <["Jpsi_M" := [3.1; 2.9]]> (<["Jpsi_PT" := [5; 3]]> ∅).

End Frame.

Module Workflow.
Local Open Scope string_scope.
Local Open Scope Z_scope.

(** The part of the [github] context that the workflow reads. *)
Record github : Type :=
  Github { event_name : string; repository : string; ref : string }.

Inductive field : Type := EventName | Repository | Ref.

Definition get (gh : github) (f : field) : string :=
  match f with
  | EventName => event_name gh
  | Repository => repository gh
  | Ref => ref gh
  end.

(** Expressions of [if:] keys: comparisons of a context field with a
    literal, [&&], [||], and the status check functions.  The context
    values are compared as the runner spells them. *)
Inductive expr : Type :=
  | Eq (f : field) (literal : string)
  | And (a b : expr)
  | Or (a b : expr)
  | Success
  | Failure
  | Always.

(** [ok] tells whether every earlier step of the job has succeeded. *)
Fixpoint eval (gh : github) (ok : bool) (e : expr) : bool :=
  match e with
  | Eq f literal => String.eqb (get gh f) literal
  | And a b => eval gh ok a && eval gh ok b
  | Or a b => eval gh ok a || eval gh ok b
  | Success => ok
  | Failure => negb ok
  | Always => true
  end.

Fixpoint has_status_check (e : expr) : bool :=
  match e with
  | Eq _ _ => false
  | And a b | Or a b => has_status_check a || has_status_check b
  | Success | Failure | Always => true
  end.

(** The runner's rule for a step: a condition without a status check
    function is read as [success() && condition]; a step without [if:] runs
    when every earlier step has succeeded. *)
Definition step_runs (gh : github) (ok : bool) (cond : option expr) : bool :=
  match cond with
  | None => ok
  | Some e => if has_status_check e then eval gh ok e else ok && eval gh ok e
  end.

(** Words of the shell scripts. *)
Inductive word : Type :=
  | Lit (s : string)
  | Context (f : field)                 (* ${{ github.<f> }} *)
  | Secret (name : string)              (* ${{ secrets.<name> }} *)
  | Strip (var prefix : string).        (* ${var#prefix} *)

(** Commands of the shell scripts; comment lines are not commands. *)
Inductive command : Type :=
  | Export (var : string) (value : word)
  | Exec (argv : list string).

Inductive action : Type :=
  | Uses (name : string) (inputs : list (string * string))
  | Run (shell : string) (script : list command).

Record step : Type :=
  Step { name : option string; cond : option expr; body : action }.

Record job : Type := Job { job_if : expr; steps : list step }.

(** What a run does that can be observed: the actions it uses and the
    programs it invokes, each program with the environment it is given. *)
Inductive event : Type :=
  | Used (name : string)
  | Invoked (argv : list string) (env : gmap string string).

Inductive conclusion : Type := Succeeded | Failed | Skipped.

(** [${var#prefix}]: the value without the prefix, if it starts with it. *)
Fixpoint strip (prefix s : string) : option string :=
  match prefix, s with
  | EmptyString, _ => Some s
  | String c prefix', String d s' =>
      if Ascii.eqb c d then strip prefix' s' else None
  | String _ _, EmptyString => None
  end.

Section Run.
(** The world around a run: the exit status of each program, whether each
    used action succeeds, and the secrets of the repository. *)
Variable exit_status : list string -> Z.
Variable action_succeeds : string -> bool.
Variable secrets : string -> string.
Variable gh : github.

Definition expand (env : gmap string string) (w : word) : string :=
  match w with
  | Lit s => s
  | Context f => get gh f
  | Secret name => secrets name
  | Strip var prefix =>
      let value := default "" (env !! var) in
      default value (strip prefix value)
  end.

(** A script under a shell given as a command template ([bash -l {0}]):
    the template has no [-e], so every command runs and the status of the
    script is the status of its last command.  The builtin [bash] stops at
    the first command that fails. *)
Definition stops_at_failure (shell : string) : bool := String.eqb shell "bash".

Fixpoint run_script (fail_fast : bool) (script : list command)
         (env : gmap string string) (status : Z) : Z * list event :=
  match script with
  | [] => (status, [])
  | Export var value :: rest =>
      run_script fail_fast rest (<[var := expand env value]> env) 0
  | Exec argv :: rest =>
      let s := exit_status argv in
      if fail_fast && negb (s =? 0) then (s, [Invoked argv env])
      else
        let '(s', trace) := run_script fail_fast rest env s in
        (s', Invoked argv env :: trace)
  end.

(** The variables that the runner gives to every script. *)
Definition runner_env : gmap string string :=
  <["GITHUB_REF" := ref gh]> (<["GITHUB_REPOSITORY" := repository gh]>
  (<["GITHUB_EVENT_NAME" := event_name gh]> ∅)).

(** Runs one step; the result tells whether the step succeeded. *)
Definition run_action (a : action) : bool * list event :=
  match a with
  | Uses name _ => (action_succeeds name, [Used name])
  | Run shell script =>
      let '(s, trace) :=
        run_script (stops_at_failure shell) script runner_env 0 in
      (s =? 0, trace)
  end.

(** Runs the steps in order.  A step whose condition does not hold is
    skipped; a step that fails makes the job fail. *)
Fixpoint run_steps (ok : bool) (l : list step) : bool * list event :=
  match l with
  | [] => (ok, [])
  | s :: rest =>
      if step_runs gh ok (cond s) then
        let '(success, trace) := run_action (body s) in
        let '(ok', trace') := run_steps (ok && success) rest in
        (ok', (trace ++ trace')%list)
      else run_steps ok rest
  end.

Definition run_job (j : job) : conclusion * list event :=
  if eval gh true (job_if j) then
    let '(ok, trace) := run_steps true (steps j) in
    (if ok then Succeeded else Failed, trace)
  else (Skipped, []).

End Run.

(** ** The "Build webpage" workflow *)

Definition this_repository : string := "hsf-training/analysis-essentials".

Definition starterkit_ci_build : list string := ["starterkit_ci"; "build"].
Definition starterkit_ci_deploy : list string := ["starterkit_ci"; "deploy"].
Definition pip_install : list string :=
  ["pip"; "install";
   "git+https://github.com/lhcb/starterkit-ci.git@cburr-gh-actions"].

Definition checkout : step :=
  Step (Some "Checkout code") None (Uses "actions/checkout@v4" []).

Definition setup_miniconda : step :=
  Step None None
       (Uses "conda-incubator/setup-miniconda@v2"
             [("mamba-version", "*");
              ("channels", "conda-forge,defaults");
              ("python-version", "3.11");
              ("environment-file", "environment.yml");
              ("activate-environment", "analysis-essentials")]).

Definition install_starterkit_ci : step :=
  Step (Some "Install starterkit-ci") None
       (Run "bash -l {0}" [Exec pip_install]).

Definition build_webpage : step :=
  Step (Some "Build webpage") None
       (Run "bash -l {0}" [Exec starterkit_ci_build]).

Definition deploy_condition : expr :=
  And (And (Eq EventName "push") (Eq Repository this_repository))
      (Eq Ref "refs/heads/master").

Definition deploy_webpage : step :=
  Step (Some "Deploy webpage") (Some deploy_condition)
       (Run "bash -l {0}"
            [Export "TRAVIS_BRANCH" (Strip "GITHUB_REF" "refs/heads/");
             Export "TRAVIS_REPO_SLUG" (Context Repository);
             Export "INPUT_GITHUB_TOKEN" (Secret "GITHUB_TOKEN");
             Exec starterkit_ci_deploy]).

Definition build_pages : job :=
  Job (Or (Eq EventName "pull_request") (Eq Repository this_repository))
      [checkout; setup_miniconda; install_starterkit_ci; build_webpage;
       deploy_webpage].

(** One run of the workflow. *)
Definition run (exit_status : list string -> Z)
           (action_succeeds : string -> bool) (secrets : string -> string)
           (gh : github) : conclusion * list event :=
  run_job exit_status action_succeeds secrets gh build_pages.

(** Equality of command lines. *)
Fixpoint argv_eqb (a b : list string) : bool :=
  match a, b with
  | [], [] => true
  | x :: a', y :: b' => String.eqb x y && argv_eqb a' b'
  | _, _ => false
  end.

Definition invokes (argv : list string) (e : event) : bool :=
  match e with
  | Invoked argv' _ => argv_eqb argv' argv
  | Used _ => false
  end.

(** The number of invocations of a program in a trace. *)
Fixpoint invocations (argv : list string) (trace : list event) : nat :=
  match trace with
  | [] => 0
  | e :: rest => (if invokes argv e then 1 else 0) + invocations argv rest
  end.

(** A step that can run after a failure is one whose condition calls a
    status check function. *)
Definition plain (s : step) : bool :=
  match cond s with
  | None => true
  | Some e => negb (has_status_check e)
  end.

(** The events of a trace that come after the first invocation of a
    program. *)
Fixpoint after (argv : list string) (trace : list event) : list event :=
  match trace with
  | [] => []
  | e :: rest => if invokes argv e then rest else after argv rest
  end.

End Workflow.

Module Classes.
Local Open Scope string_scope.
Local Open Scope Z_scope.

(** What the cells of the lesson can raise. *)
Inductive exception : Type := IndexError | TypeError.

Inductive outcome (A : Type) : Type :=
  | Returns (a : A)
  | Raises (e : exception).
Arguments Returns {A} a.
Arguments Raises {A} e.

(** ** [Storage]

    [self.name] and [self.container]. *)
Record Storage : Type := { name : string; container : list Z }.

(** [Storage(name)]: [self.container = [1, 5, 4]]. *)
Definition __init__ (name : string) : Storage :=
  {| name := name; container := [1; 5; 4] |}.

(** The slot that a list of [len] items gives to an integer index: indices
    from [-len] to [-1] count from the end, and an index outside
    [-len .. len - 1] is an [IndexError]. *)
Definition slot (len : nat) (index : Z) : option nat :=
  if (0 <=? index) && (index <? Z.of_nat len) then Some (Z.to_nat index)
  else if (- Z.of_nat len <=? index) && (index <? 0)
       then Some (Z.to_nat (Z.of_nat len + index))
       else None.

(** [__getitem__(self, index)]:
    [print(f"getitem of {self.name} invoked with index {index}")],
    [return self.container[index]].
    The result is the printed text and what the call returns or raises. *)
Definition __getitem__ (self : Storage) (index : Z)
  : list string * outcome Z :=
  let printed :=
    ["getitem of " +:+ name self +:+ " invoked with index " +:+ pretty index]
  in
  match slot (length (container self)) index with
  | Some i =>
      match container self !! i with
      | Some item => (printed, Returns item)
      | None => (printed, Raises IndexError)
      end
  | None => (printed, Raises IndexError)
  end.

(** [__setitem__(self, index, item)]:
    [print(f"setitem of {self.name} invoked with index {index} and item {item}")],
    [self.container[index] = item].
    The result is the printed text and the object after the call. *)
Definition __setitem__ (self : Storage) (index : Z) (item : Z)
  : list string * outcome Storage :=
  let printed :=
    ["setitem of " +:+ name self +:+ " invoked with index " +:+ pretty index
     +:+ " and item " +:+ pretty item]
  in
  match slot (length (container self)) index with
  | Some i =>
      (printed,
       Returns {| name := name self;
                  container := <[i := item]> (container self) |})
  | None => (printed, Raises IndexError)
  end.

(** ** The classes with [__add__] and [__radd__] *)
Inductive class : Type := NamedValue | ValueLeft | ValueRight | Value.

Global Instance class_eq_dec : EqDecision class.
Proof. solve_decision. Defined.

(** The method resolution order of each class, [object] left out:
    [class ValueLeft(NamedValue)], [class ValueRight(NamedValue)],
    [class Value(ValueRight, ValueLeft)]. *)
Definition mro (c : class) : list class :=
  match c with
  | NamedValue => [NamedValue]
  | ValueLeft => [ValueLeft; NamedValue]
  | ValueRight => [ValueRight; NamedValue]
  | Value => [Value; ValueRight; ValueLeft; NamedValue]
  end.

Inductive method : Type := Add | Radd.

(** The methods that the body of a class defines. *)
Definition defines (c : class) (m : method) : bool :=
  match c, m with
  | ValueLeft, Add => true
  | ValueRight, Radd => true
  | _, _ => false
  end.

(** The class whose body provides the method found on an instance. *)
Definition lookup_method (c : class) (m : method) : option class :=
  head (List.filter (fun d => defines d m) (mro c)).

(** An instance: [self.name] is set by [NamedValue.__init__]. *)
Record value : Type := { type : class; value_name : string }.

(** What a method returns. *)
Inductive returned : Type := Int (n : Z) | NotImplemented.

(** [ValueLeft.__add__]: [print(f"add called on {self.name}")], [return 42];
    [ValueRight.__radd__]: [print("radd called on {self.name}")] (the string
    has no [f] prefix, so the braces are printed as they are),
    [return 24]. *)
Definition body (provider : class) (m : method) (self : value)
  : list string * returned :=
  match provider, m with
  | ValueLeft, Add => (["add called on " +:+ value_name self], Int 42)
  | ValueRight, Radd => (["radd called on {self.name}"], Int 24)
  | _, _ => ([], NotImplemented)
  end.

(** Calls a method on an instance, if its class has it. *)
Definition call_maybe (self : value) (m : method) : list string * returned :=
  match lookup_method (type self) m with
  | Some provider => body provider m self
  | None => ([], NotImplemented)
  end.

(** A class has the number slot for [+] when it has one of the methods. *)
Definition has_slot (c : class) : bool :=
  bool_decide (is_Some (lookup_method c Add))
  || bool_decide (is_Some (lookup_method c Radd)).

(** The reflected method of the right operand counts as overloaded when
    the right class has it and the left class has none, or another one. *)
Definition is_overloaded (left right : class) (m : method) : bool :=
  match lookup_method right m with
  | None => false
  | Some b =>
      match lookup_method left m with
      | None => true
      | Some a => negb (bool_decide (a = b))
      end
  end.

Definition is_subclass (c d : class) : bool := bool_decide (d ∈ mro c).

(** The slot function of [+] for classes written in Python: the reflected
    method of the right operand goes first when its class is a subclass of
    the left class and overloads it; then [__add__] of the left operand;
    then, for operands of different classes, [__radd__] of the right. *)
Definition slot_add (x y : value) : list string * returned :=
  let do_other := negb (bool_decide (type x = type y)) && has_slot (type y) in
  let reflected_first :=
    has_slot (type x) && do_other && is_subclass (type y) (type x)
    && is_overloaded (type x) (type y) Radd in
  let '(out1, r1) :=
    if reflected_first then call_maybe y Radd else ([], NotImplemented) in
  match r1 with
  | Int n => (out1, Int n)
  | NotImplemented =>
      let do_other := do_other && negb reflected_first in
      let '(out2, r2) :=
        if has_slot (type x) then call_maybe x Add else ([], NotImplemented)
      in
      match r2 with
      | Int n => ((out1 ++ out2)%list, Int n)
      | NotImplemented =>
          if has_slot (type x) && bool_decide (type x = type y)
          then ((out1 ++ out2)%list, NotImplemented)
          else if do_other then
            let '(out3, r3) := call_maybe y Radd in
            ((out1 ++ out2 ++ out3)%list, r3)
          else ((out1 ++ out2)%list, NotImplemented)
      end
  end.

(** [x + y]: the slot function is called when one of the classes has the
    slot; [NotImplemented] becomes a [TypeError]. *)
Definition add (x y : value) : list string * outcome Z :=
  if has_slot (type x)
     || (negb (bool_decide (type x = type y)) && has_slot (type y))
  then
    match slot_add x y with
    | (out, Int n) => (out, Returns n)
    | (out, NotImplemented) => (out, Raises TypeError)
    end
  else ([], Raises TypeError).

End Classes.

(* ===================================================================== *)
(** * Part II: properties *)
(* ===================================================================== *)

Module Binary64Facts.
Import Binary64.
Local Open Scope Q_scope.

(** Comparisons of rational constants, by computation. *)
Ltac constants :=
  match goal with
  | |- (_ <= _)%Q => refine (proj1 (Qle_bool_iff _ _) _); vm_compute; reflexivity
  | |- (_ < _)%Q => vm_compute; reflexivity
  | |- (_ == _)%Q => refine (proj1 (Qeq_bool_iff _ _) _); vm_compute; reflexivity
  end.

Lemma two_pow_pos (z : Z) : 0 < 2 ^ z.
Proof. apply Qpower_0_lt. reflexivity. Qed.

Lemma two_pow_succ (z : Z) : 2 ^ (z + 1) == 2 * 2 ^ z.
Proof. rewrite Qpower_plus by discriminate. rewrite Qpower_1_r. ring. Qed.

Lemma two_pow_pred (z : Z) : 2 ^ (z - 1) == 2 ^ z * (1 # 2).
Proof.
  rewrite Qpower_minus by discriminate. rewrite Qpower_1_r. reflexivity.
Qed.

Lemma two_pow_le (n m : Z) : (n <= m)%Z -> 2 ^ n <= 2 ^ m.
Proof. intros H. apply Qpower_le_compat_l; [exact H | discriminate]. Qed.

Lemma two_pow_Z (n : Z) : (0 <= n)%Z -> inject_Z (2 ^ n) == 2 ^ n.
Proof. intros H. apply (Zpower_Qpower 2 n H). Qed.

(** [floor_log2] brackets a positive rational between two powers of two. *)
Lemma floor_log2_spec (q : Q) :
  0 < q -> 2 ^ floor_log2 q <= q /\ q < 2 ^ (floor_log2 q + 1).
Proof.
  intros Hq. destruct q as [n d]. unfold floor_log2. simpl Qnum. simpl Qden.
  assert (Hn : (0 < n)%Z).
  { unfold Qlt in Hq. simpl in Hq. lia. }
  set (a := Z.log2 n). set (b := Z.log2 (Z.pos d)).
  destruct (Z.log2_spec n Hn) as [Ha1 Ha2]. fold a in Ha1, Ha2.
  destruct (Z.log2_spec (Z.pos d) eq_refl) as [Hb1 Hb2]. fold b in Hb1, Hb2.
  assert (Ha0 : (0 <= a)%Z) by apply Z.log2_nonneg.
  assert (Hb0 : (0 <= b)%Z) by apply Z.log2_nonneg.
  assert (Eq : n # d == inject_Z n / inject_Z (Z.pos d)) by apply Qmake_Qdiv.
  assert (Hd : 0 < inject_Z (Z.pos d)) by reflexivity.
  assert (Qa1 : 2 ^ a <= inject_Z n).
  { rewrite <- two_pow_Z by exact Ha0. rewrite <- Zle_Qle. exact Ha1. }
  assert (Qa2 : inject_Z n < 2 * 2 ^ a).
  { rewrite <- two_pow_succ, <- two_pow_Z by lia. rewrite <- Zlt_Qlt.
    replace (a + 1)%Z with (Z.succ a) by lia. exact Ha2. }
  assert (Qb1 : 2 ^ b <= inject_Z (Z.pos d)).
  { rewrite <- two_pow_Z by exact Hb0. rewrite <- Zle_Qle. exact Hb1. }
  assert (Qb2 : inject_Z (Z.pos d) < 2 * 2 ^ b).
  { rewrite <- two_pow_succ, <- two_pow_Z by lia. rewrite <- Zlt_Qlt.
    replace (b + 1)%Z with (Z.succ b) by lia. exact Hb2. }
  assert (Ek : 2 ^ (a - b) * 2 ^ b == 2 ^ a).
  { rewrite <- Qpower_plus by discriminate. replace (a - b + b)%Z with a by lia.
    reflexivity. }
  pose proof (two_pow_pos a) as Pa. pose proof (two_pow_pos b) as Pb.
  pose proof (two_pow_pos (a - b)) as Pk.
  set (x := inject_Z n) in *. set (y := inject_Z (Z.pos d)) in *.
  assert (Hlo : 2 ^ (a - b) * (1 # 2) < x / y).
  { apply Qlt_shift_div_l; [exact Hd|]. 
    rewrite <- Ek in Qa1. clear -Qa1 Qb2 Pk Pb.
    generalize dependent (2 ^ (a - b)). generalize dependent (2 ^ b).
    intros pb Qb2 Pb k Qa1 Pk. nra. }
  assert (Hhi : x / y < 2 * 2 ^ (a - b)).
  { apply Qlt_shift_div_r; [exact Hd|].
    rewrite <- Ek in Qa2. clear -Qa2 Qb1 Pk Pb.
    generalize dependent (2 ^ (a - b)). generalize dependent (2 ^ b).
    intros pb Qb1 Pb k Qa2 Pk. nra. }
  destruct (Qle_bool (2 ^ (a - b)) (n # d)) eqn:E.
  - apply Qle_bool_iff in E. split; [exact E|].
    rewrite two_pow_succ, Eq. exact Hhi.
  - assert (Hlt : n # d < 2 ^ (a - b)).
    { apply Qnot_le_lt. intros H. apply Qle_bool_iff in H. congruence. }
    replace (a - b - 1 + 1)%Z with (a - b)%Z by lia.
    split; [|exact Hlt]. rewrite two_pow_pred, Eq. lra.
Qed.

(** Rounding to the nearest integer is off by at most one half. *)
Lemma nearest_even_error (q : Q) :
  Qabs (inject_Z (nearest_even q) - q) <= 1 # 2.
Proof.
  unfold nearest_even.
  pose proof (Qfloor_le q) as Hlo. pose proof (Qlt_floor q) as Hhi.
  set (f := Qfloor q) in *.
  assert (Ef : inject_Z (f + 1) == inject_Z f + 1).
  { rewrite inject_Z_plus. reflexivity. }
  rewrite Ef in Hhi.
  apply Qabs_Qle_condition.
  destruct (Qcompare_spec (q - inject_Z f) (1 # 2)) as [H|H|H].
  - destruct (Z.even f); [|rewrite Ef]; lra.
  - lra.
  - rewrite Ef. lra.
Qed.

Lemma nearest_even_nonneg (q : Q) : 0 <= q -> (0 <= nearest_even q)%Z.
Proof.
  intros Hq. unfold nearest_even.
  assert (H0 : (0 <= Qfloor q)%Z).
  { change 0%Z with (Qfloor 0). apply Qfloor_resp_le, Hq. }
  destruct (Qcompare _ _); [destruct (Z.even _)| |]; lia.
Qed.

(** What [round] returns. *)
Lemma round_Some (q r : Q) :
  round q = Some r ->
  (q == 0 /\ r = 0) \/ (~ q == 0 /\ r == nearest q /\ Qabs r < 2 ^ 1024).
Proof.
  unfold round. destruct (Qeq_bool q 0) eqn:E0.
  - intros [= <-]. left. split; [apply Qeq_bool_iff, E0 | reflexivity].
  - destruct (Qle_bool _ _) eqn:E; [discriminate|]. intros [= <-]. right.
    split; [apply Qeq_bool_neq, E0|]. split; [apply Qred_correct|].
    apply Qnot_le_lt. intros H. apply Qle_bool_iff in H. congruence.
Qed.

Lemma Qabs_pos_of_nonzero (q : Q) : ~ q == 0 -> 0 < Qabs q.
Proof.
  intros H. destruct (Qlt_le_dec 0 (Qabs q)) as [|Hle]; [assumption|].
  exfalso. apply H. apply Qabs_Qle_condition in Hle. lra.
Qed.

(** The distance between a number and the nearest one is at most half a
    unit of the last place. *)
Lemma nearest_half_ulp (q : Q) :
  Qabs (nearest q - q) <= 2 ^ (exponent q - 1).
Proof.
  unfold nearest.
  set (e := exponent q) in *. pose proof (two_pow_pos e) as Pe.
  pose proof (nearest_even_error (q / 2 ^ e)) as Hn.
  set (n := inject_Z (nearest_even (q / 2 ^ e))) in *.
  assert (Eq : q == q / 2 ^ e * 2 ^ e) by (field; lra).
  set (x := q / 2 ^ e) in *. clearbody x n.
  rewrite two_pow_pred.
  apply Qabs_Qle_condition in Hn. apply Qabs_Qle_condition.
  generalize dependent (2 ^ e). intros p Pp Eq. nra.
Qed.

Lemma nearest_nonneg (q : Q) : 0 <= q -> 0 <= nearest q.
Proof.
  intros Hq. unfold nearest. pose proof (two_pow_pos (exponent q)) as Pe.
  apply Qmult_le_0_compat; [|lra].
  change 0 with (inject_Z 0). rewrite <- Zle_Qle.
  apply nearest_even_nonneg. apply Qle_shift_div_l; [exact Pe | lra].
Qed.

Lemma half_ulp_relative (q : Q) :
  ~ q == 0 -> exponent q = (floor_log2 (Qabs q) - 52)%Z ->
  2 ^ (exponent q - 1) <= 2 ^ (-53) * Qabs q.
Proof.
  intros Hq He. pose proof (Qabs_pos_of_nonzero q Hq) as Ha.
  destruct (floor_log2_spec (Qabs q) Ha) as [Hlo _]. rewrite He.
  replace (floor_log2 (Qabs q) - 52 - 1)%Z
    with (- 53 + floor_log2 (Qabs q))%Z by lia.
  rewrite Qpower_plus by discriminate.
  apply Qmult_le_l; [apply two_pow_pos | exact Hlo].
Qed.

Lemma exponent_cases (q : Q) :
  exponent q = (floor_log2 (Qabs q) - 52)%Z \/ exponent q = (-1074)%Z.
Proof. unfold exponent. lia. Qed.

Lemma exponent_normal (q : Q) :
  2 ^ (-1022) <= Qabs q -> exponent q = (floor_log2 (Qabs q) - 52)%Z.
Proof.
  intros Hn.
  assert (Ha : 0 < Qabs q).
  { pose proof (two_pow_pos (-1022)). lra. }
  destruct (floor_log2_spec (Qabs q) Ha) as [_ Hhi].
  assert (Hlt : 2 ^ (-1022) < 2 ^ (floor_log2 (Qabs q) + 1)) by lra.
  apply Qpower_lt_compat_l_inv in Hlt; [|reflexivity].
  unfold exponent. lia.
Qed.

(** The error of one operation: relative [2 ^ -53], or absolute
    [2 ^ -1075] among the subnormal numbers. *)
Lemma nearest_error (q : Q) :
  ~ q == 0 -> Qabs (nearest q - q) <= 2 ^ (-53) * Qabs q + 2 ^ (-1075).
Proof.
  intros Hq. pose proof (nearest_half_ulp q) as Hh.
  pose proof (Qabs_nonneg q) as Ha.
  destruct (exponent_cases q) as [He|He].
  - pose proof (half_ulp_relative q Hq He).
    assert (0 < 2 ^ (-1075))
    by constants. lra.
  - rewrite He in Hh. change (2 ^ (-1074 - 1)) with (2 ^ (-1075)) in Hh.
    assert (0 <= 2 ^ (-53) * Qabs q).
    { apply Qmult_le_0_compat; [constants | exact Ha]. }
    lra.
Qed.

Lemma round_error (q r : Q) :
  round q = Some r -> Qabs (r - q) <= 2 ^ (-53) * Qabs q + 2 ^ (-1075).
Proof.
  intros H. pose proof (Qabs_nonneg q) as Ha.
  destruct (round_Some q r H) as [[Hq ->]|(Hq & Hr & _)].
  - apply Qabs_Qle_condition. assert (0 < 2 ^ (-1075))
    by constants.
    assert (0 <= 2 ^ (-53) * Qabs q).
    { apply Qmult_le_0_compat; [constants | exact Ha]. }
    lra.
  - rewrite Hr. apply nearest_error, Hq.
Qed.

Lemma round_error_normal (q r : Q) :
  round q = Some r -> 2 ^ (-1022) <= Qabs q ->
  Qabs (r - q) <= 2 ^ (-53) * Qabs q.
Proof.
  intros H Hn.
  assert (Hq : ~ q == 0).
  { intros E. rewrite E in Hn. apply Qle_bool_iff in Hn. discriminate. }
  destruct (round_Some q r H) as [[Hq' _]|(_ & Hr & _)]; [contradiction|].
  rewrite Hr. pose proof (nearest_half_ulp q).
  pose proof (half_ulp_relative q Hq (exponent_normal q Hn)). lra.
Qed.

Lemma round_nonneg (q r : Q) : round q = Some r -> 0 <= q -> 0 <= r.
Proof.
  intros H Hq. destruct (round_Some q r H) as [[_ ->]|(_ & Hr & _)].
  - discriminate.
  - rewrite Hr. apply nearest_nonneg, Hq.
Qed.

(** No overflow up to [2 ^ 1023]. *)
Lemma round_finite (q : Q) :
  Qabs q <= 2 ^ 1023 -> exists r, round q = Some r.
Proof.
  intros Hq. unfold round. destruct (Qeq_bool q 0) eqn:E0; [eauto|].
  apply Qeq_bool_neq in E0.
  destruct (Qle_bool _ _) eqn:E; [|eauto]. exfalso.
  apply Qle_bool_iff in E. rewrite Qred_correct in E.
  pose proof (nearest_error q E0) as He.
  assert (Ht : Qabs (nearest q) <=
               2 ^ (-53) * Qabs q + 2 ^ (-1075) + 2 ^ 1023).
  { pose proof Hq as Hq'. apply Qabs_Qle_condition in Hq'.
    apply Qabs_Qle_condition in He. apply Qabs_Qle_condition. lra. }
  assert (Hc : 2 ^ (-53) * 2 ^ 1023 + 2 ^ (-1075) + 2 ^ 1023 < 2 ^ 1024)
    by constants.
  assert (Hm : 2 ^ (-53) * Qabs q <= 2 ^ (-53) * 2 ^ 1023).
  { apply Qmult_le_l; [constants | exact Hq]. }
  lra.
Qed.
Lemma exponent_subnormal (q : Q) :
  ~ q == 0 -> Qabs q < 2 ^ (-1022) -> exponent q = (-1074)%Z.
Proof.
  intros Hq Hs. pose proof (Qabs_pos_of_nonzero q Hq) as Ha.
  destruct (floor_log2_spec (Qabs q) Ha) as [Hlo _].
  assert (Hlt : 2 ^ floor_log2 (Qabs q) < 2 ^ (-1022)) by lra.
  apply Qpower_lt_compat_l_inv in Hlt; [|reflexivity].
  unfold exponent. lia.
Qed.

Lemma nearest_even_Z (q : Q) (k : Z) : q == inject_Z k -> nearest_even q = k.
Proof.
  intros E. unfold nearest_even.
  assert (Ef : Qfloor q = k) by (rewrite E; apply Qfloor_Z).
  rewrite Ef.
  destruct (Qcompare_spec (q - inject_Z k) (1 # 2)) as [H|H|H];
    [exfalso; lra | reflexivity | exfalso; lra].
Qed.

(** A float64 number below [2 ^ -1022] is a multiple of [2 ^ -1074]. *)
Lemma is_float_subnormal (q : Q) :
  is_float q = true -> Qabs q < 2 ^ (-1022) ->
  exists k, q == inject_Z k * 2 ^ (-1074).
Proof.
  unfold is_float. destruct (round q) as [r|] eqn:E; [|discriminate].
  intros Hr Hs. apply Qeq_bool_iff in Hr.
  destruct (round_Some q r E) as [[Hq _]|(Hq & Hn & _)].
  - exists 0%Z. rewrite Hq. reflexivity.
  - exists (nearest_even (q / 2 ^ exponent q)).
    rewrite <- Hr at 1. rewrite Hn. unfold nearest.
    rewrite (exponent_subnormal q Hq Hs). reflexivity.
Qed.

(** Among the numbers below [2 ^ -1022] the multiples of [2 ^ -1074] are
    float64 numbers: they are not rounded. *)
Lemma round_subnormal (q : Q) (k : Z) :
  q == inject_Z k * 2 ^ (-1074) -> Qabs q < 2 ^ (-1022) ->
  exists r, round q = Some r /\ r == q.
Proof.
  intros Ek Hs. unfold round. destruct (Qeq_bool q 0) eqn:E0.
  - exists 0. split; [reflexivity|]. apply Qeq_bool_iff in E0.
    symmetry. exact E0.
  - apply Qeq_bool_neq in E0.
    assert (En : nearest q == q).
    { unfold nearest. rewrite (exponent_subnormal q E0 Hs).
      rewrite (nearest_even_Z _ k); [symmetry; exact Ek|].
      rewrite Ek. field. discriminate. }
    destruct (Qle_bool _ _) eqn:E.
    + exfalso. apply Qle_bool_iff in E. rewrite Qred_correct, En in E.
      assert (2 ^ (-1022) < 2 ^ 1024)
    by constants. lra.
    + eexists. split; [reflexivity|]. rewrite Qred_correct. exact En.
Qed.

(** The float64 sum of two non-negative float64 numbers: the error is
    relative, also when the sum is subnormal, where it is exact. *)
Lemma add_error (s b t : Q) :
  is_float s = true -> is_float b = true -> 0 <= s -> 0 <= b ->
  add s b = Some t -> Qabs (t - (s + b)) <= 2 ^ (-53) * (s + b).
Proof.
  intros Fs Fb Hs Hb Ht. unfold add in Ht.
  destruct (Qlt_le_dec (s + b) (2 ^ (-1022))) as [Hsub|Hnorm].
  - assert (As : Qabs s < 2 ^ (-1022)) by (rewrite Qabs_pos; lra).
    assert (Ab : Qabs b < 2 ^ (-1022)) by (rewrite Qabs_pos; lra).
    destruct (is_float_subnormal s Fs As) as [k1 E1].
    destruct (is_float_subnormal b Fb Ab) as [k2 E2].
    destruct (round_subnormal (s + b) (k1 + k2)) as (r & Hr & Er).
    + rewrite inject_Z_plus, E1, E2. ring.
    + rewrite Qabs_pos; lra.
    + rewrite Hr in Ht. injection Ht as <-.
      assert (0 <= 2 ^ (-53) * (s + b)).
      { apply Qmult_le_0_compat; [constants | lra]. }
      apply Qabs_Qle_condition. lra.
  - pose proof (round_error_normal (s + b) t Ht) as He.
    rewrite (Qabs_pos (s + b)) in He by lra. apply He. exact Hnorm.
Qed.
(** The quotient of a sum by its rounding. *)
Lemma quotient_near_one (u S t c : Q) :
  0 < u -> u <= 1 # 8 -> 0 < S ->
  - (u * S) <= t - S -> t - S <= u * S -> c * t == S ->
  0 < t /\ 0 < c /\ c * (1 - u) <= 1 /\ 1 <= c * (1 + u).
Proof.
  intros Hu Hu' HS Hlo Hhi Hc.
  assert (Ht : 0 < t) by nra.
  assert (Hc0 : 0 < c) by nra.
  repeat split; try assumption.
  - assert (S * (c * (1 - u)) <= S * 1) by nra. nra.
  - assert (S * 1 <= S * (c * (1 + u))) by nra. nra.
Qed.

(** Two rounded quotients of the parts of a sum by the rounded sum. *)
Lemma rounded_quotients_sum (u eta c e : Q) :
  0 < u -> u <= 1 # 8 -> 0 <= eta -> eta <= u * (1 # 8) -> 0 < c ->
  c * (1 - u) <= 1 -> 1 <= c * (1 + u) ->
  - (u * c + 2 * eta) <= e -> e <= u * c + 2 * eta ->
  - (3 * u) <= c + e - 1 /\ c + e - 1 <= 3 * u.
Proof. intros. split; nra. Qed.

Lemma truediv_Some (x t : Q) :
  0 <= x -> 0 < t -> x <= 2 * t ->
  exists q p, q * t == x /\ 0 <= q /\ truediv x t = Some p /\
              Qabs (p - q) <= 2 ^ (-53) * q + 2 ^ (-1075).
Proof.
  intros Hx Ht Hle. exists (x / t).
  assert (Eq : x / t * t == x) by (field; lra).
  assert (Hq : 0 <= x / t) by (apply Qle_shift_div_l; lra).
  assert (Hq2 : x / t <= 2) by (apply Qle_shift_div_r; lra).
  unfold truediv. destruct (Qeq_bool t 0) eqn:E0.
  { apply Qeq_bool_iff in E0. lra. }
  destruct (round_finite (x / t)) as [p Hp].
  { rewrite Qabs_pos by exact Hq. assert (2 <= 2 ^ 1023)
    by constants.
    lra. }
  exists p. repeat split; try assumption.
  pose proof (round_error _ _ Hp) as He.
  rewrite (Qabs_pos (x / t)) in He by exact Hq. exact He.
Qed.

(** The row sums to one up to three units of [2 ^ -53]. *)
Lemma div_row_sum (x : row) (t : Q) :
  is_float (sig x) = true -> is_float (bkg x) = true ->
  0 <= sig x -> 0 <= bkg x -> row_sum x = Some t -> ~ t == 0 ->
  exists y, div_row x (Some t) = Some y /\
            Qabs (sig y + bkg y - 1) <= 3 * 2 ^ (-53).
Proof.
  intros Fs Fb Hs Hb Ht Ht0. unfold row_sum in Ht.
  pose proof (add_error _ _ _ Fs Fb Hs Hb Ht) as He.
  apply Qabs_Qle_condition in He. destruct He as [He1 He2].
  set (S := sig x + bkg x) in *.
  assert (HS : 0 < S).
  { destruct (Qlt_le_dec 0 S) as [|Hle]; [assumption|]. exfalso.
    apply Ht0. assert (S == 0) by (unfold S in *; lra).
    assert (0 < 2 ^ (-53))
    by constants. nra. }
  assert (Hu : 0 < 2 ^ (-53))
    by constants.
  assert (Hu' : 2 ^ (-53) <= 1 # 8)
    by constants.
  assert (Hpos : 0 < t) by nra.
  assert (Hbig : S <= 2 * t) by nra.
  destruct (truediv_Some (sig x) t Hs Hpos) as (qs & ps & Eqs & Hqs & Hps & Es).
  { unfold S in Hbig. lra. }
  destruct (truediv_Some (bkg x) t Hb Hpos) as (qb & pb & Eqb & Hqb & Hpb & Eb).
  { unfold S in Hbig. lra. }
  exists (Row ps pb). unfold div_row. rewrite Hps, Hpb.
  split; [reflexivity|]. cbn [sig bkg].
  assert (Ec : (qs + qb) * t == S) by (unfold S; lra).
  destruct (quotient_near_one (2 ^ (-53)) S t (qs + qb))
    as (_ & Hc0 & Hc1 & Hc2); try assumption.
  apply Qabs_Qle_condition in Es. apply Qabs_Qle_condition in Eb.
  destruct (rounded_quotients_sum (2 ^ (-53)) (2 ^ (-1075)) (qs + qb)
              (ps - qs + (pb - qb))) as [G1 G2]; try assumption;
    try constants; try lra.
  apply Qabs_Qle_condition. lra.
Qed.
(** A rounded quotient [x / t] against the exact share [rho] of [x] in the
    sum [S] that [t] approximates. *)
Lemma quotient_error (a u eta S t rho q p : Q) :
  0 < a -> a <= 1 # 8 -> 0 < u -> u <= 1 # 8 -> 0 <= eta ->
  eta <= u * (1 # 8) -> 0 < S ->
  - (a * S) <= t - S -> t - S <= a * S ->
  0 <= rho -> rho <= 1 -> q * t == rho * S ->
  - (u * q + eta) <= p - q -> p - q <= u * q + eta ->
  - (2 * a + 2 * u) <= p - rho /\ p - rho <= 2 * a + 2 * u.
Proof.
  intros Ha Ha' Hu Hu' He He' HS Hlo Hhi Hr0 Hr1 Eq Hp1 Hp2.
  assert (Ht : 0 < t) by nra.
  assert (H1 : q * (1 - a) <= rho).
  { assert (t * (q * (1 - a)) <= t * rho) by nra. nra. }
  assert (H2 : rho <= q * (1 + a)).
  { assert (t * rho <= t * (q * (1 + a))) by nra. nra. }
  assert (Hq0 : 0 <= q) by nra.
  assert (Hq2 : q <= rho * (1 + 2 * a)) by nra.
  assert (Hq3 : q <= 1 + 2 * a) by nra.
  split; nra.
Qed.

(** The float64 product of a positive number and a non-negative one that
    does not fall among the subnormal numbers. *)
Lemma mul_error (c x : Q) :
  0 < c -> 0 <= x -> x == 0 \/ 2 ^ (-1022) <= c * x ->
  c * x <= 2 ^ 1023 ->
  exists r, mul c x = Some r /\ 0 <= r /\
            Qabs (r - c * x) <= 2 ^ (-53) * (c * x).
Proof.
  intros Hc Hx Hn Hf. assert (H0 : 0 <= c * x) by nra.
  destruct (round_finite (c * x)) as [r Hr].
  { rewrite Qabs_pos by exact H0. exact Hf. }
  exists r. split; [exact Hr|]. split; [apply (round_nonneg _ _ Hr H0)|].
  destruct Hn as [Hz|Hn].
  - destruct (round_Some _ _ Hr) as [[_ ->]|(Hq & _ & _)].
    + apply Qabs_Qle_condition. assert (c * x == 0) by nra. lra.
    + exfalso. apply Hq. rewrite Hz. ring.
  - pose proof (round_error_normal _ _ Hr) as He.
    rewrite (Qabs_pos (c * x)) in He by exact H0. apply He, Hn.
Qed.

(** The shares of a rescaled row. *)
Lemma rescaled_share (u c s b s' b' rho rho' : Q) :
  0 < u -> u <= 1 # 8 -> 0 < c -> 0 <= s -> 0 <= b -> 0 < s + b ->
  - (u * (c * s)) <= s' - c * s -> s' - c * s <= u * (c * s) ->
  - (u * (c * b)) <= b' - c * b -> b' - c * b <= u * (c * b) ->
  rho * (s + b) == s -> rho' * (s' + b') == s' ->
  0 <= rho /\ rho <= 1 /\ 0 <= rho' /\ rho' <= 1 /\
  - (2 * u) <= rho' - rho /\ rho' - rho <= 2 * u.
Proof.
  intros Hu Hu' Hc Hs Hb HS Hs1 Hs2 Hb1 Hb2 Er Er'.
  assert (Hcs : 0 <= c * s) by nra. assert (Hcb : 0 <= c * b) by nra.
  assert (HcS : 0 < c * (s + b)) by nra.
  assert (Hs' : 0 <= s') by nra. assert (Hb' : 0 <= b') by nra.
  assert (HS' : 0 < s' + b') by nra.
  assert (R0 : 0 <= rho) by nra. assert (R1 : rho <= 1) by nra.
  assert (R0' : 0 <= rho') by nra. assert (R1' : rho' <= 1) by nra.
  assert (K1 : rho' * (1 - u) <= rho * (1 + u)).
  { assert (c * (s + b) * (rho' * (1 - u)) <=
            c * (s + b) * (rho * (1 + u))); [|nra].
    assert (rho' * (c * (s + b) * (1 - u)) <= rho' * (s' + b')) by nra.
    nra. }
  assert (K2 : rho * (1 - u) <= rho' * (1 + u)).
  { assert (c * (s + b) * (rho * (1 - u)) <=
            c * (s + b) * (rho' * (1 + u))); [|nra].
    assert (rho' * (s' + b') <= rho' * (c * (s + b) * (1 + u))) by nra.
    nra. }
  repeat split; try assumption; nra.
Qed.
(** The normalised row of an event and of the event with its densities
    multiplied by [c] agree up to [2 ^ -49]. *)
Lemma scaled_row_close (c : Q) (x : row) (t : Q) :
  is_float (sig x) = true -> is_float (bkg x) = true ->
  0 <= sig x -> 0 <= bkg x -> row_sum x = Some t -> ~ t == 0 ->
  0 < c ->
  sig x == 0 \/ 2 ^ (-1022) <= c * sig x ->
  bkg x == 0 \/ 2 ^ (-1022) <= c * bkg x ->
  c * (sig x + bkg x) <= 2 ^ 1022 ->
  exists x' y y',
    scale c x = Some x' /\
    div_row x (row_sum x) = Some y /\
    div_row x' (row_sum x') = Some y' /\
    Qabs (sig y' - sig y) <= 2 ^ (-49) /\
    Qabs (bkg y' - bkg y) <= 2 ^ (-49).
Proof.
  intros Fs Fb Hs Hb Ht Ht0 Hc Ns Nb Hf.
  assert (Hu : 0 < 2 ^ (-53))
    by constants.
  assert (Hu' : 2 ^ (-53) <= 1 # 8)
    by constants.
  assert (Hu64 : 2 ^ (-53) <= 1 # 64)
    by constants.
  assert (He0 : 0 <= 2 ^ (-1075))
    by constants.
  assert (He1 : 2 ^ (-1075) <= 2 ^ (-53) * (1 # 8))
    by constants.
  (* the row itself *)
  pose proof Ht as Ht'. unfold row_sum in Ht'.
  pose proof (add_error _ _ _ Fs Fb Hs Hb Ht') as He.
  apply Qabs_Qle_condition in He. destruct He as [He1' He2'].
  destruct x as [s b]. cbn [sig bkg] in *.
  assert (HS : 0 < s + b).
  { destruct (Qlt_le_dec 0 (s + b)) as [|Hle]; [assumption|]. exfalso.
    apply Ht0. assert (s + b == 0) by lra. nra. }
  assert (Hpos : 0 < t) by nra.
  assert (Hbig : s + b <= 2 * t) by nra.
  destruct (truediv_Some s t Hs Hpos) as (qs & ps & Eqs & Hqs & Hps & Es);
    [lra|].
  destruct (truediv_Some b t Hb Hpos) as (qb & pb & Eqb & Hqb & Hpb & Eb);
    [lra|].
  (* the scaled row *)
  assert (Hcs : 0 <= c * s) by nra. assert (Hcb : 0 <= c * b) by nra.
  assert (H1023 : 2 ^ 1022 <= 2 ^ 1023)
    by constants.
  destruct (mul_error c s Hc Hs Ns) as (s' & Hs' & Hs0 & Ers); [nra|].
  destruct (mul_error c b Hc Hb Nb) as (b' & Hb' & Hb0 & Erb); [nra|].
  apply Qabs_Qle_condition in Ers. apply Qabs_Qle_condition in Erb.
  destruct Ers as [Ers1 Ers2]. destruct Erb as [Erb1 Erb2].
  assert (Hlow : 2 ^ (-1023) <= s' + b').
  { assert (Hk : 2 ^ (-1023) <= 2 ^ (-1022) * (1 - 2 ^ (-53)))
      by constants.
    assert (Hsb : ~ s == 0 \/ ~ b == 0).
    { destruct (Qeq_dec s 0) as [Ez|]; [|left; assumption].
      right. intros Eb0. lra. }
    destruct Hsb as [Hnz|Hnz].
    - destruct Ns as [|Ns]; [contradiction|].
      assert (2 ^ (-1022) * (1 - 2 ^ (-53)) <= s') by nra. lra.
    - destruct Nb as [|Nb]; [contradiction|].
      assert (2 ^ (-1022) * (1 - 2 ^ (-53)) <= b') by nra. lra. }
  assert (HS' : 0 < s' + b').
  { assert (0 < 2 ^ (-1023))
    by constants. lra. }
  assert (Hup : s' + b' <= 2 ^ 1023).
  { assert (s' + b' <= c * (s + b) * (1 + 2 ^ (-53))) by nra.
    assert (2 ^ 1022 * (1 + 2 ^ (-53)) <= 2 ^ 1023) by constants.
    nra. }
  destruct (round_finite (s' + b')) as [t' Ht2].
  { rewrite Qabs_pos by lra. exact Hup. }
  pose proof (round_error _ _ Ht2) as Et.
  rewrite (Qabs_pos (s' + b')) in Et by lra.
  apply Qabs_Qle_condition in Et. destruct Et as [Et1 Et2].
  assert (Heta : 2 ^ (-1075) <= 2 * 2 ^ (-53) * (s' + b')).
  { assert (2 ^ (-1075) == 2 * 2 ^ (-53) * 2 ^ (-1023))
    by constants.
    nra. }
  assert (Et1' : - (3 * 2 ^ (-53) * (s' + b')) <= t' - (s' + b')) by lra.
  assert (Et2' : t' - (s' + b') <= 3 * 2 ^ (-53) * (s' + b')) by lra.
  assert (Hpos' : 0 < t') by nra.
  assert (Hbig' : s' + b' <= 2 * t') by nra.
  destruct (truediv_Some s' t' Hs0 Hpos')
    as (qs' & ps' & Eqs' & Hqs' & Hps' & Es'); [lra|].
  destruct (truediv_Some b' t' Hb0 Hpos')
    as (qb' & pb' & Eqb' & Hqb' & Hpb' & Eb'); [lra|].
  exists (Row s' b'), (Row ps pb), (Row ps' pb').
  unfold scale, row_sum, div_row, add. cbn [sig bkg].
  unfold add in Ht'. rewrite Hs', Hb', Ht', Ht2, Hps, Hpb, Hps', Hpb'.
  do 3 (split; [reflexivity|]).
  apply Qabs_Qle_condition in Es, Eb, Es', Eb'.
  assert (Hk : 2 ^ (-49) == 16 * 2 ^ (-53)) by constants.
  clear Hlow Hup Hf Ns Nb H1023 Heta Et1 Et2 Hs' Hb' Ht Ht' Ht2 Hps Hpb
        Hps' Hpb' Fs Fb Ht0 Hbig Hbig'.
  set (u := 2 ^ (-53)) in *. set (eta := 2 ^ (-1075)) in *.
  clearbody u eta.
  (* the exact shares *)
  assert (Er : s / (s + b) * (s + b) == s) by (field; lra).
  assert (Er' : s' / (s' + b') * (s' + b') == s') by (field; lra).
  assert (Eb2 : b / (s + b) * (b + s) == b) by (field; lra).
  assert (Eb2' : b' / (s' + b') * (b' + s') == b') by (field; lra).
  destruct (rescaled_share u c s b s' b' _ _ Hu Hu' Hc Hs Hb HS
              Ers1 Ers2 Erb1 Erb2 Er Er')
    as (R0 & R1 & R0' & R1' & D1 & D2).
  assert (HS2 : 0 < b + s) by lra.
  destruct (rescaled_share u c b s b' s' _ _ Hu Hu' Hc Hb Hs HS2
              Erb1 Erb2 Ers1 Ers2 Eb2 Eb2')
    as (B0 & B1 & B0' & B1' & D3 & D4).
  set (rs := s / (s + b)) in *. set (rs' := s' / (s' + b')) in *.
  set (rb := b / (s + b)) in *. set (rb' := b' / (s' + b')) in *.
  clearbody rs rs' rb rb'.
  assert (Hu3 : 0 < 3 * u) by lra.
  assert (Hu3' : 3 * u <= 1 # 8) by lra.
  assert (Q1 : qs * t == rs * (s + b)) by lra.
  assert (Q2 : qb * t == rb * (s + b)) by lra.
  assert (Q3 : qs' * t' == rs' * (s' + b')) by lra.
  assert (Q4 : qb' * t' == rb' * (s' + b')) by lra.
  destruct (quotient_error u u eta (s + b) t rs qs ps) as [A1 A2];
    try assumption; try lra.
  destruct (quotient_error u u eta (s + b) t rb qb pb) as [A3 A4];
    try assumption; try lra.
  destruct (quotient_error (3 * u) u eta (s' + b') t' rs' qs' ps')
    as [A5 A6]; try assumption; try lra.
  destruct (quotient_error (3 * u) u eta (s' + b') t' rb' qb' pb')
    as [A7 A8]; try assumption; try lra.
  split; apply Qabs_Qle_condition; lra.
Qed.
(** The literals are the roundings of the decimal numbers. *)
Lemma literals :
  round (1 # 10) = Some f0_1 /\ round (3 # 10) = Some f0_3 /\
  round (5 # 10) = Some f0_5.
Proof. repeat split; vm_compute; reflexivity. Qed.

Lemma normalize_lookup (probs : list row) (i : nat) (x : row) :
  probs !! i = Some x ->
  normalize probs !! i = Some (div_row x (row_sum x)).
Proof.
  intros Hi. unfold normalize, div.
  rewrite lookup_zip_with, Hi. simpl.
  rewrite list_lookup_fmap, Hi. reflexivity.
Qed.

End Binary64Facts.

Module KernelFacts.
Import PrimFloat.
Import Binary64 Kernel.
Local Open Scope Q_scope.

(** On the operands of the examples below, [round] gives the float64
    numbers that the kernel's own float64 arithmetic gives. *)
Lemma round_agrees_with_the_kernel :
  of_float (PrimFloat.div 1%float 10%float) = round (1 # 10) /\
  of_float (PrimFloat.div 3%float 10%float) = round (3 # 10) /\
  of_float (PrimFloat.add (PrimFloat.div 1%float 10%float)
                          (PrimFloat.div 3%float 10%float)) =
    add f0_1 f0_3 /\
  of_float (PrimFloat.div
              (PrimFloat.div 1%float 10%float)
              (PrimFloat.add (PrimFloat.div 1%float 10%float)
                             (PrimFloat.div 3%float 10%float))) =
    truediv f0_1 (3602879701896397 # 9007199254740992) /\
  of_float (PrimFloat.div
              (PrimFloat.div 3%float 10%float)
              (PrimFloat.add (PrimFloat.div 1%float 10%float)
                             (PrimFloat.div 3%float 10%float))) =
    truediv f0_3 (3602879701896397 # 9007199254740992) /\
  of_float (PrimFloat.mul 3%float (PrimFloat.div 1%float 10%float)) =
    mul 3 f0_1 /\
  of_float (PrimFloat.mul 3%float (PrimFloat.div 3%float 10%float)) =
    mul 3 f0_3.
Proof. repeat split; vm_compute; reflexivity. Qed.

End KernelFacts.

Module SPlotFacts.
Import SPlot.
Local Open Scope R_scope.

(** ** Sums over the sample *)

Lemma np_sum_ext {A} (f g : A -> R) (l : list A) :
  Forall (fun e => f e = g e) l -> np_sum (map f l) = np_sum (map g l).
Proof.
  induction 1 as [|e l He _ IH]; simpl; [reflexivity|].
  rewrite He, IH. reflexivity.
Qed.

Lemma np_sum_plus {A} (f g : A -> R) (l : list A) :
  np_sum (map (fun e => f e + g e) l) = np_sum (map f l) + np_sum (map g l).
Proof. induction l as [|e l IH]; simpl; [lra|rewrite IH; lra]. Qed.

Lemma np_sum_scal {A} (c : R) (f : A -> R) (l : list A) :
  np_sum (map (fun e => c * f e) l) = c * np_sum (map f l).
Proof. induction l as [|e l IH]; simpl; [lra|rewrite IH; lra]. Qed.

Lemma np_sum_square_nonneg {A} (f : A -> R) (l : list A) :
  0 <= np_sum (map (fun e => f e * f e) l).
Proof. induction l as [|e l IH]; simpl; [lra|nra]. Qed.

Lemma np_sum_square_zero {A} (f : A -> R) (l : list A) :
  np_sum (map (fun e => f e * f e) l) = 0 -> Forall (fun e => f e = 0) l.
Proof.
  induction l as [|e l IH]; simpl; intros H; constructor.
  - pose proof (np_sum_square_nonneg f l). nra.
  - apply IH. pose proof (np_sum_square_nonneg f l). nra.
Qed.

(** ** The inverse *)

Lemma inv_Ok (M Mi : mat2) :
  inv M = Ok Mi ->
  det M <> 0 /\
  Mi = Mat2 (m_bb M / det M) (- m_sb M / det M)
            (- m_bs M / det M) (m_ss M / det M).
Proof.
  unfold inv. destruct (Req_dec_T (det M) 0); [discriminate|].
  intros [= <-]. split; [assumption|reflexivity].
Qed.

Lemma inv_singular (M : mat2) : inv M = SingularMatrix <-> det M = 0.
Proof.
  unfold inv. destruct (Req_dec_T (det M) 0); split; try discriminate; tauto.
Qed.

(** Cramer's rule for a system whose right-hand side is (1, 1). *)
Lemma cramer_unit (a b c d ns nb : R) :
  a * d - b * c <> 0 ->
  a * ns + b * nb = 1 ->
  c * ns + d * nb = 1 ->
  d / (a * d - b * c) * 1 + - b / (a * d - b * c) * 1 = ns /\
  - c / (a * d - b * c) * 1 + a / (a * d - b * c) * 1 = nb.
Proof.
  intros Hdet K1 K2.
  assert (Es : d - b = ns * (a * d - b * c)).
  { transitivity (d * (a * ns + b * nb) - b * (c * ns + d * nb));
      [rewrite K1, K2|]; ring. }
  assert (Eb : a - c = nb * (a * d - b * c)).
  { transitivity (a * (c * ns + d * nb) - c * (a * ns + b * nb));
      [rewrite K1, K2|]; ring. }
  split.
  - transitivity ((d - b) / (a * d - b * c)); [field; exact Hdet|].
    rewrite Es. field. exact Hdet.
  - transitivity ((a - c) / (a * d - b * c)); [field; exact Hdet|].
    rewrite Eb. field. exact Hdet.
Qed.

(** ** The fitted-yield form *)

(** Multiplying the second-moment matrix by the yields gives the sums of
    the fit conditions: [sum_j V^{-1}_{nj} N_j = sum_e f_n(x_e) / total]. *)
Lemma Vinv_times_yields (N : yields) (data : list row) (n : source) :
  Forall (fun e => total N e <> 0) data ->
  entry (Vinv N data) n Sig * yield N Sig +
  entry (Vinv N data) n Bkg * yield N Bkg =
  np_sum (map (fun e => pdf n e / total N e) data).
Proof.
  intros Hpos.
  assert (Hext : forall a b : source,
    Forall (fun e => yield N Sig * (pdf a e * pdf Sig e / total N e ^ 2) +
                     yield N Bkg * (pdf a e * pdf Bkg e / total N e ^ 2) =
                     pdf a e / total N e) data).
  { intros a b. eapply Forall_impl; [exact Hpos|].
    intros e He. unfold total in *. simpl in *. field. exact He. }
  destruct n; simpl; unfold Vinv_entry;
    rewrite (Rmult_comm _ (N_sig N)), (Rmult_comm _ (N_bkg N)),
            <- !np_sum_scal, <- np_sum_plus;
    apply np_sum_ext; [apply (Hext Sig Sig)|apply (Hext Bkg Bkg)].
Qed.

(** The sum over the sample of the weights of source [n]. *)
Lemma np_sum_W (V : mat2) (N : yields) (data : list row) (n : source) :
  np_sum (map (W V N n) data) =
  entry V n Sig * np_sum (map (fun e => pdf Sig e / total N e) data) +
  entry V n Bkg * np_sum (map (fun e => pdf Bkg e / total N e) data).
Proof.
  rewrite <- !np_sum_scal, <- np_sum_plus. apply np_sum_ext.
  apply Forall_forall. intros e _. unfold W, Rdiv. ring.
Qed.

Lemma sweights_Ok (N : yields) (data ws : list row) :
  sweights N data = Ok ws ->
  exists Vm, inv (Vinv N data) = Ok Vm /\
             map sig ws = map (W Vm N Sig) data /\
             map bkg ws = map (W Vm N Bkg) data.
Proof.
  unfold sweights. destruct (inv (Vinv N data)) as [Vm|] eqn:E; [|discriminate].
  intros [= <-]. exists Vm. rewrite !map_map. simpl. auto.
Qed.


(** ** The second-moment matrix of the probability form *)

(** The quadratic form of [V] is a sum of squares over the sample. *)
Lemma quadratic_form_V (probs : list row) (x y : R) :
  quadratic_form (V probs) x y =
  np_sum (map (fun e => (x * sig e + y * bkg e) * (x * sig e + y * bkg e))
              probs).
Proof.
  unfold quadratic_form, V, V_bs, V_ss, V_sb, V_bb. simpl.
  induction probs as [|e l IH]; simpl; [ring|].
  rewrite <- IH. ring.
Qed.

(** Sums of a combination of the columns against one column. *)
Lemma combination_against_sig (probs : list row) (a b : R) :
  np_sum (map (fun e => (a * sig e + b * bkg e) * sig e) probs) =
  a * V_ss probs + b * V_sb probs.
Proof.
  unfold V_ss, V_sb. induction probs as [|e l IH]; simpl; [ring|].
  rewrite IH. ring.
Qed.

Lemma combination_against_bkg (probs : list row) (a b : R) :
  np_sum (map (fun e => (a * sig e + b * bkg e) * bkg e) probs) =
  a * V_sb probs + b * V_bb probs.
Proof.
  unfold V_bb, V_sb. induction probs as [|e l IH]; simpl; [ring|].
  rewrite IH. ring.
Qed.

Lemma np_sum_zero {A} (f : A -> R) (l : list A) :
  Forall (fun e => f e = 0) l -> np_sum (map f l) = 0.
Proof.
  induction 1 as [|e l He _ IH]; simpl; [reflexivity|]. rewrite He, IH. ring.
Qed.

Lemma det_V (probs : list row) :
  det (V probs) = V_ss probs * V_bb probs - V_sb probs * V_sb probs.
Proof. reflexivity. Qed.

(** The determinant vanishes exactly when the columns are dependent. *)
Lemma det_V_zero_dependent (probs : list row) :
  det (V probs) = 0 -> dependent probs.
Proof.
  rewrite det_V. intros Hdet.
  destruct (Req_dec_T (V_bb probs) 0) as [Hbb|Hbb].
  - exists 0, 1. split; [right; lra|].
    apply np_sum_square_zero in Hbb.
    eapply Forall_impl; [exact Hbb|]. intros e He. simpl in *. lra.
  - exists (V_bb probs), (- V_sb probs). split; [left; exact Hbb|].
    apply (np_sum_square_zero
             (fun e => V_bb probs * sig e + - V_sb probs * bkg e)).
    rewrite <- quadratic_form_V. unfold quadratic_form, V, V_bs. simpl.
    transitivity (V_bb probs *
                  (V_ss probs * V_bb probs - V_sb probs * V_sb probs));
      [ring|]. rewrite Hdet. ring.
Qed.

Lemma dependent_det_V_zero (probs : list row) :
  dependent probs -> det (V probs) = 0.
Proof.
  intros (a & b & Hab & Hall). rewrite det_V.
  assert (Ks : a * V_ss probs + b * V_sb probs = 0).
  { rewrite <- combination_against_sig. apply np_sum_zero.
    eapply Forall_impl; [exact Hall|]. intros e He. simpl in *.
    rewrite He. ring. }
  assert (Kb : a * V_sb probs + b * V_bb probs = 0).
  { rewrite <- combination_against_bkg. apply np_sum_zero.
    eapply Forall_impl; [exact Hall|]. intros e He. simpl in *.
    rewrite He. ring. }
  destruct Hab as [Ha|Hb].
  - apply (Rmult_eq_reg_l a); [|exact Ha]. rewrite Rmult_0_r.
    transitivity (V_bb probs * (a * V_ss probs + b * V_sb probs)
                  - V_sb probs * (a * V_sb probs + b * V_bb probs));
      [ring|]. rewrite Ks, Kb. ring.
  - apply (Rmult_eq_reg_l b); [|exact Hb]. rewrite Rmult_0_r.
    transitivity (V_ss probs * (a * V_sb probs + b * V_bb probs)
                  - V_sb probs * (a * V_ss probs + b * V_sb probs));
      [ring|]. rewrite Ks, Kb. ring.
Qed.

Lemma inv_V_singular (probs : list row) :
  inv (V probs) = SingularMatrix <-> dependent probs.
Proof.
  rewrite inv_singular. split;
    [apply det_V_zero_dependent|apply dependent_det_V_zero].
Qed.

Lemma inv_V_Ok (probs : list row) :
  (exists Vi, inv (V probs) = Ok Vi) <-> independent probs.
Proof.
  unfold independent. rewrite <- inv_V_singular.
  destruct (inv (V probs)) as [Vi|]; split.
  - intros _ H. discriminate H.
  - intros _. exists Vi. reflexivity.
  - intros [Vi H]. discriminate H.
  - intros H. exfalso. apply H. reflexivity.
Qed.

(** Exchanging the classes does not change dependence. *)
Lemma dependent_swap (probs : list row) :
  dependent (map swap probs) <-> dependent probs.
Proof.
  split; intros (a & b & Hab & Hall); exists b, a;
    (split; [tauto|]).
  - apply Forall_map in Hall. eapply Forall_impl; [exact Hall|].
    intros e He. simpl in *. lra.
  - apply Forall_map. eapply Forall_impl; [exact Hall|].
    intros e He. simpl in *. lra.
Qed.

(** ** The second-moment matrix of the fitted-yield form

    It is the matrix [V] of the table whose rows are divided by the mixture
    density of their event. *)

Lemma Vinv_as_V (N : yields) (data : list row) :
  Vinv N data = V (map (per_total N) data).
Proof.
  assert (E : forall n j, Vinv_entry N data n j =
    np_sum (map (fun x => pdf n x * pdf j x) (map (per_total N) data))).
  { intros n j. unfold Vinv_entry. rewrite map_map. apply np_sum_ext.
    apply Forall_forall. intros e _.
    destruct n, j; unfold per_total, Rdiv; simpl;
      rewrite Rmult_1_r, Rinv_mult; ring. }
  unfold Vinv, V, V_bs, V_ss, V_sb, V_bb. rewrite !E. simpl.
  f_equal. apply np_sum_ext, Forall_forall. intros e _. ring.
Qed.

Lemma dependent_divided (d : row -> R) (data : list row) :
  Forall (fun e => d e <> 0) data ->
  dependent (map (fun e => Row (sig e / d e) (bkg e / d e)) data) <->
  dependent data.
Proof.
  intros Hpos.
  split; intros (a & b & Hab & Hall); exists a, b; (split; [exact Hab|]).
  - apply Forall_map in Hall.
    pose proof (proj2 (Forall_and _ _) (conj Hpos Hall)) as H.
    eapply Forall_impl; [exact H|]. intros e [Hne He]. simpl in *.
    apply (Rmult_eq_reg_r (/ d e)); [|apply Rinv_neq_0_compat; exact Hne].
    rewrite Rmult_0_l, <- He. unfold Rdiv. ring.
  - apply Forall_map. eapply Forall_impl; [exact Hall|].
    intros e He. simpl in *.
    transitivity ((a * sig e + b * bkg e) / d e);
      [unfold Rdiv; ring|]. rewrite He. unfold Rdiv. ring.
Qed.

Lemma dependent_per_total (N : yields) (data : list row) :
  Forall (fun e => total N e <> 0) data ->
  dependent (map (per_total N) data) <-> dependent data.
Proof. apply (dependent_divided (total N)). Qed.

Lemma normalize_map (probs : list row) :
  normalize probs = map normalize_row probs.
Proof.
  unfold normalize, div.
  induction probs as [|x l IH]; simpl; [reflexivity|]. rewrite IH.
  reflexivity.
Qed.

Lemma dependent_normalize (data : list row) :
  Forall (fun e => row_sum e <> 0) data ->
  dependent (normalize data) <-> dependent data.
Proof. rewrite normalize_map. apply (dependent_divided row_sum). Qed.

Lemma length_zip_with_map {A B C D} (f : A -> B -> C) (g : D -> A)
      (h : D -> B) (l : list D) :
  length (zip_with f (map g l) (map h l)) = length l.
Proof. induction l as [|x l IH]; simpl; [reflexivity|]. rewrite IH; auto. Qed.

Lemma signal_sweights_singular (probs : list row) (Nsig : R) :
  signal_sweights probs Nsig = SingularMatrix <-> dependent probs.
Proof.
  rewrite <- inv_V_singular. unfold signal_sweights, coefficients.
  destruct (inv (V probs)); split; try discriminate; reflexivity.
Qed.

Lemma signal_sweights_Ok (probs : list row) (Nsig : R) :
  independent probs ->
  exists a1 a2, coefficients probs Nsig = Ok (a1, a2) /\
                signal_sweights probs Nsig = Ok (map (sw a1 a2) probs).
Proof.
  intros Hind. apply inv_V_Ok in Hind. destruct Hind as [Vi HVi].
  unfold signal_sweights, coefficients. rewrite HVi. eauto.
Qed.

Lemma compute_sweights_singular (N : yields) (probs : list row) :
  compute_sweights N probs = SingularMatrix <-> dependent probs.
Proof.
  unfold compute_sweights. split.
  - destruct (signal_sweights probs (N_sig N)) as [ws|] eqn:E1.
    + destruct (signal_sweights (map swap probs) (N_bkg N)) as [wb|] eqn:E2;
        [discriminate|]. intros _.
      apply dependent_swap. apply signal_sweights_singular in E2. exact E2.
    + intros _. apply signal_sweights_singular in E1. exact E1.
  - intros Hdep. apply (signal_sweights_singular probs (N_sig N)) in Hdep.
    rewrite Hdep. reflexivity.
Qed.

Lemma inv_Vinv_Ok (N : yields) (data : list row) :
  Forall (fun e => total N e <> 0) data ->
  (exists Vi, inv (Vinv N data) = Ok Vi) <-> independent data.
Proof.
  intros Hpos. rewrite Vinv_as_V, inv_V_Ok. unfold independent.
  rewrite (dependent_per_total N data Hpos). reflexivity.
Qed.

(** C3. The second-moment matrix of the sWeight computation is invertible
    if and only if the per-class columns of the fitted sample are linearly
    independent; on dependent columns the computation ends in the
    singular-matrix error, and on independent columns it returns one weight
    row per event.  This holds for the probability form, also when its
    input is the table of densities normalised by the notebook (rows of
    non-zero sum); for the fitted-yield form it holds on samples whose
    mixture density is non-zero at every event. *)
Theorem singular_iff_dependent (N : yields) (data : list row) :
  ((exists Vi, inv (V data) = Ok Vi) <-> independent data) /\
  (dependent data -> compute_sweights N data = SingularMatrix) /\
  (independent data ->
   exists ws, compute_sweights N data = Ok ws /\ length ws = length data) /\
  (Forall (fun e => row_sum e <> 0) data ->
   (compute_sweights N (normalize data) = SingularMatrix <->
    dependent data)) /\
  (Forall (fun e => total N e <> 0) data ->
   ((exists Vi, inv (Vinv N data) = Ok Vi) <-> independent data) /\
   (dependent data -> sweights N data = SingularMatrix) /\
   (independent data ->
    exists ws, sweights N data = Ok ws /\ length ws = length data)).
Proof.
  split; [apply inv_V_Ok|]. split; [|split; [|split]].
  - apply compute_sweights_singular.
  - intros Hind. unfold compute_sweights.
    destruct (signal_sweights_Ok data (N_sig N) Hind) as (a1 & a2 & _ & ->).
    assert (Hind' : independent (map swap data)).
    { unfold independent. rewrite dependent_swap. exact Hind. }
    destruct (signal_sweights_Ok _ (N_bkg N) Hind') as (b1 & b2 & _ & ->).
    eexists. split; [reflexivity|].
    rewrite map_map. apply length_zip_with_map.
  - intros Hsum. rewrite compute_sweights_singular.
    apply dependent_normalize, Hsum.
  - intros Hpos.
    pose proof (inv_Vinv_Ok N data Hpos) as Hiff.
    split; [exact Hiff|]. split.
    + intros Hdep. unfold sweights.
      destruct (inv (Vinv N data)) as [Vi|] eqn:E; [|reflexivity].
      exfalso. apply (proj1 Hiff); eauto.
    + intros Hind. apply Hiff in Hind. destruct Hind as [Vi HVi].
      unfold sweights. rewrite HVi. eexists. split; [reflexivity|].
      apply length_map.
Qed.

Lemma independent_example : independent [Row 2 1; Row 1 2].
Proof.
  intros Hdep. apply dependent_det_V_zero in Hdep. revert Hdep.
  unfold det, V, V_bs, V_ss, V_sb, V_bb. simpl. lra.
Qed.

Lemma dependent_example : dependent [Row 1 2; Row 2 4].
Proof.
  exists 2, (-1). split; [left; lra|]. repeat constructor; simpl; lra.
Qed.

Lemma total_example :
  Forall (fun e => total (Yields 1 1) e <> 0) [Row 2 1; Row 1 2].
Proof. repeat constructor; unfold total; simpl; lra. Qed.

Lemma singular_iff_dependent_witness :
  (exists ws, compute_sweights (Yields 1 1) [Row 2 1; Row 1 2] = Ok ws /\
              length ws = 2%nat) /\
  compute_sweights (Yields 1 1) [Row 1 2; Row 2 4] = SingularMatrix /\
  (exists ws, sweights (Yields 1 1) [Row 2 1; Row 1 2] = Ok ws /\
              length ws = 2%nat).
Proof.
  pose proof (singular_iff_dependent (Yields 1 1) [Row 2 1; Row 1 2])
    as (_ & _ & Hc & _ & Hd).
  pose proof (singular_iff_dependent (Yields 1 1) [Row 1 2; Row 2 4])
    as (_ & Hb & _).
  split; [exact (Hc independent_example)|].
  split; [exact (Hb dependent_example)|].
  exact (proj2 (proj2 (Hd total_example)) independent_example).
Defined.

(** C1. For a two-class sample whose yields satisfy the conditions of the
    extended maximum-likelihood fit, the sWeights
    [W_n(x_e) = (sum_j V_nj f_j(x_e)) / (sum_k N_k f_k(x_e))], with [V] the
    inverse of the second-moment matrix, sum over all events to the fitted
    yields: the signal weights to [N_sig] and the background weights to
    [N_bkg], exactly.  The inverse, and with it the weights, exist when the
    two density columns are linearly independent. *)
Theorem sweights_sum_to_yields (N : yields) (data : list row) :
  fitted N data ->
  (forall ws, sweights N data = Ok ws ->
     np_sum (map sig ws) = N_sig N /\ np_sum (map bkg ws) = N_bkg N) /\
  (independent data -> exists ws, sweights N data = Ok ws).
Proof.
  intros [Hpos Hfit]. split.
  - intros ws Hws.
    destruct (sweights_Ok _ _ _ Hws) as (Vm & Hinv & -> & ->).
    destruct (inv_Ok _ _ Hinv) as [Hdet ->].
    pose proof (Vinv_times_yields N data Sig Hpos) as K1.
    pose proof (Vinv_times_yields N data Bkg Hpos) as K2.
    rewrite (Hfit Sig) in K1. rewrite (Hfit Bkg) in K2.
    rewrite !np_sum_W, (Hfit Sig), (Hfit Bkg).
    destruct (Vinv N data) as [a b c d]. unfold det in *. simpl in *.
    apply cramer_unit; assumption.
  - intros Hind. apply (inv_Vinv_Ok N data Hpos) in Hind.
    destruct Hind as [Vi HVi]. unfold sweights. rewrite HVi. eauto.
Qed.

Lemma sweights_example :
  sweights (Yields 1 1) [Row 2 1; Row 1 2] = Ok [Row 2 (-1); Row (-1) 2].
Proof.
  unfold sweights, inv.
  destruct (Req_dec_T _ _) as [E|E].
  - exfalso. revert E. unfold det, Vinv, Vinv_entry, total. simpl. lra.
  - simpl. f_equal. unfold W, det, Vinv, Vinv_entry, total; simpl.
    repeat f_equal; field.
Qed.

Lemma fitted_example : fitted (Yields 1 1) [Row 2 1; Row 1 2].
Proof.
  split.
  - repeat constructor; unfold total; simpl; lra.
  - intros [|]; unfold total; simpl; lra.
Qed.

Lemma sweights_sum_to_yields_witness :
  np_sum (map sig [Row 2 (-1); Row (-1) 2]) = 1 /\
  np_sum (map bkg [Row 2 (-1); Row (-1) 2]) = 1.
Proof.
  exact (proj1 (sweights_sum_to_yields (Yields 1 1) [Row 2 1; Row 1 2]
                  fitted_example) [Row 2 (-1); Row (-1) 2] sweights_example).
Defined.


(** The matrices are symmetric and positive semi-definite on every sample. *)
Lemma V_symmetric (probs : list row) : symmetric (V probs).
Proof. reflexivity. Qed.

Lemma V_positive_semidefinite (probs : list row) :
  positive_semidefinite (V probs).
Proof.
  intros x y. rewrite quadratic_form_V.
  apply (np_sum_square_nonneg (fun e => x * sig e + y * bkg e)).
Qed.

(** On independent columns the quadratic form vanishes only at zero. *)
Lemma V_positive_definite (probs : list row) (x y : R) :
  independent probs -> quadratic_form (V probs) x y = 0 -> x = 0 /\ y = 0.
Proof.
  intros Hind H0. rewrite quadratic_form_V in H0.
  apply (np_sum_square_zero (fun e => x * sig e + y * bkg e)) in H0.
  destruct (Req_dec_T x 0) as [Hx|Hx]; [destruct (Req_dec_T y 0) as [Hy|Hy]|];
    [tauto| |]; exfalso; apply Hind; exists x, y; split; auto.
Qed.

(** C5. When the per-class density columns of the fitted sample are
    linearly independent, the matrix of the linear system (the second-moment
    matrix whose entries are sums over events of products of per-class
    densities) is symmetric and positive semi-definite; so is the
    second-moment matrix of the fitted-yield form. *)
Theorem second_moment_matrix_symmetric_psd (N : yields) (data : list row) :
  independent data ->
  (symmetric (V data) /\ positive_semidefinite (V data)) /\
  (symmetric (Vinv N data) /\ positive_semidefinite (Vinv N data)).
Proof.
  intros _. rewrite Vinv_as_V.
  repeat split; auto using V_symmetric, V_positive_semidefinite.
Qed.

Lemma second_moment_matrix_symmetric_psd_witness :
  (symmetric (V [Row 2 1; Row 1 2]) /\
   positive_semidefinite (V [Row 2 1; Row 1 2])) /\
  (symmetric (Vinv (Yields 1 1) [Row 2 1; Row 1 2]) /\
   positive_semidefinite (Vinv (Yields 1 1) [Row 2 1; Row 1 2])).
Proof.
  exact (second_moment_matrix_symmetric_psd (Yields 1 1) [Row 2 1; Row 1 2]
           independent_example).
Defined.

(** ** The optimisation problem and the linear system *)

(** The weighted sums of a weight list that is a function of the event. *)
Lemma weighted_sum_map (g h : row -> R) (probs : list row) :
  weighted_sum g probs (map h probs) =
  np_sum (map (fun x => h x * g x) probs).
Proof.
  unfold weighted_sum. induction probs as [|x l IH]; simpl; [reflexivity|].
  rewrite IH. reflexivity.
Qed.

Lemma weighted_sum_sw (a1 a2 : R) (probs : list row) (w : list R) :
  weighted_sum (sw a1 a2) probs w =
  a1 * weighted_sum bkg probs w + a2 * weighted_sum sig probs w.
Proof.
  unfold weighted_sum, sw. revert w.
  induction probs as [|x l IH]; intros [|wx w]; simpl; try ring.
  rewrite IH. ring.
Qed.


Lemma distance_nonneg (h : row -> R) (probs : list row) (w : list R) :
  0 <= distance h probs w.
Proof.
  unfold distance. revert w.
  induction probs as [|x l IH]; intros [|wx w]; simpl; try lra.
  specialize (IH w). pose proof (Rle_0_sqr (wx - h x)) as Hsq.
  unfold Rsqr in Hsq. lra.
Qed.

Lemma distance_zero (h : row -> R) (probs : list row) (w : list R) :
  length w = length probs -> distance h probs w = 0 -> w = map h probs.
Proof.
  unfold distance. revert w.
  induction probs as [|x l IH]; intros [|wx w]; simpl; try discriminate.
  - reflexivity.
  - intros [= Hlen] H0.
    pose proof (distance_nonneg h l w) as Hpos. unfold distance in Hpos.
    pose proof (Rle_0_sqr (wx - h x)) as Hsq. unfold Rsqr in Hsq.
    assert (Hx : (wx - h x) * (wx - h x) = 0) by lra.
    assert (Hl : np_sum (zip_with (fun x wx => (wx - h x) * (wx - h x)) l w)
                 = 0) by lra.
    rewrite <- (IH w Hlen Hl). f_equal.
    apply Rmult_integral in Hx. lra.
Qed.

(** Expansion of the objective around a function of the event. *)
Lemma objective_expand (h : row -> R) (probs : list row) (w : list R) :
  length w = length probs ->
  objective w =
  objective (map h probs)
  + 2 * (weighted_sum h probs w - weighted_sum h probs (map h probs))
  + distance h probs w.
Proof.
  unfold objective, weighted_sum, distance. revert w.
  induction probs as [|x l IH]; intros [|wx w]; simpl; try discriminate.
  - intros _. ring.
  - intros [= Hlen]. rewrite (IH w Hlen). ring.
Qed.

Lemma sw_against_bkg (a1 a2 : R) (probs : list row) :
  np_sum (map (fun x => sw a1 a2 x * bkg x) probs) =
  a1 * V_bb probs + a2 * V_sb probs.
Proof.
  unfold sw, V_bb, V_sb. induction probs as [|x l IH]; simpl; [ring|].
  rewrite IH. ring.
Qed.

Lemma sw_against_sig (a1 a2 : R) (probs : list row) :
  np_sum (map (fun x => sw a1 a2 x * sig x) probs) =
  a1 * V_sb probs + a2 * V_ss probs.
Proof.
  unfold sw, V_ss, V_sb. induction probs as [|x l IH]; simpl; [ring|].
  rewrite IH. ring.
Qed.

(** A combination of the columns whose coefficients solve the linear system
    satisfies both constraints. *)
Lemma linear_system_feasible (probs : list row) (Nsig a1 a2 : R) :
  linear_system probs Nsig a1 a2 <->
  feasible probs Nsig (map (sw a1 a2) probs).
Proof.
  unfold linear_system, feasible. rewrite !weighted_sum_map, length_map.
  rewrite sw_against_bkg, sw_against_sig. unfold V_bs. split.
  - intros [H1 H2]. split; [reflexivity|]. split; lra.
  - intros (_ & H1 & H2). split; lra.
Qed.

(** Such a combination is the one solution of the optimisation problem. *)
Lemma linear_system_minimiser (probs : list row) (Nsig a1 a2 : R) :
  linear_system probs Nsig a1 a2 ->
  minimiser probs Nsig (map (sw a1 a2) probs) /\
  forall w', minimiser probs Nsig w' -> w' = map (sw a1 a2) probs.
Proof.
  intros Hsys.
  pose proof (proj1 (linear_system_feasible probs Nsig a1 a2) Hsys) as Hfeas.
  assert (Hexp : forall w', feasible probs Nsig w' ->
            objective w' =
            objective (map (sw a1 a2) probs) + distance (sw a1 a2) probs w').
  { intros w' (Hlen & Hb & Hs).
    rewrite (objective_expand (sw a1 a2) probs w' Hlen).
    destruct Hfeas as (_ & Hb0 & Hs0).
    rewrite !weighted_sum_sw, Hb, Hs, Hb0, Hs0. ring. }
  split.
  - split; [exact Hfeas|]. intros w' Hw'. rewrite (Hexp w' Hw').
    pose proof (distance_nonneg (sw a1 a2) probs w'). lra.
  - intros w' [Hw' Hmin]. specialize (Hmin _ Hfeas).
    rewrite (Hexp w' Hw') in Hmin.
    pose proof (distance_nonneg (sw a1 a2) probs w').
    apply distance_zero; [exact (proj1 Hw')|lra].
Qed.

(** The coefficients obtained through the inverse solve the system, and
    they are the only solution of it. *)
Lemma coefficients_solve (probs : list row) (Nsig a1 a2 : R) :
  coefficients probs Nsig = Ok (a1, a2) ->
  linear_system probs Nsig a1 a2 /\
  forall b1 b2, linear_system probs Nsig b1 b2 -> b1 = a1 /\ b2 = a2.
Proof.
  unfold coefficients.
  destruct (inv (V probs)) as [Vi|] eqn:E; [|discriminate].
  destruct (inv_Ok _ _ E) as [Hdet ->]. rewrite det_V in *.
  simpl. unfold V_bs. intros [= <- <-].
  remember (V_ss probs * V_bb probs - V_sb probs * V_sb probs) as d eqn:Hd.
  unfold linear_system, V_bs. split.
  - split; [field; exact Hdet|].
    transitivity (Nsig * (V_ss probs * V_bb probs - V_sb probs * V_sb probs)
                  / d); [field; exact Hdet|].
    rewrite <- Hd. field. exact Hdet.
  - intros b1 b2 [H1 H2].
    assert (E1 : b1 * d = - V_sb probs * Nsig).
    { rewrite <- H2, Hd.
      transitivity (V_ss probs * (b1 * V_bb probs + b2 * V_sb probs)
                    - V_sb probs * (b1 * V_sb probs + b2 * V_ss probs));
        [ring|]. rewrite H1. ring. }
    assert (E2 : b2 * d = V_bb probs * Nsig).
    { rewrite <- H2, Hd.
      transitivity (V_bb probs * (b1 * V_sb probs + b2 * V_ss probs)
                    - V_sb probs * (b1 * V_bb probs + b2 * V_sb probs));
        [ring|]. rewrite H1. ring. }
    split.
    + transitivity (b1 * d / d); [field; exact Hdet|]. rewrite E1.
      field. exact Hdet.
    + transitivity (b2 * d / d); [field; exact Hdet|]. rewrite E2.
      field. exact Hdet.
Qed.

(** C2. The optimisation problem that defines the sWeights (minimise the
    sum over events of [w(x_e)^2] subject to [sum_e w(x_e) p_sig(x_e) =
    N_sig] and [sum_e w(x_e) p_bkg(x_e) = 0]) has as its only solution the
    per-event combination [w(x) = a1 p_bkg(x) + a2 p_sig(x)] whose
    coefficients solve the 2x2 system built from [V_ss], [V_sb = V_bs] and
    [V_bb]: the weights computed in closed form are the solution of the
    optimisation problem, and every solution equals them. *)
Theorem sweights_solve_optimisation (probs : list row) (Nsig : R) :
  (forall w, signal_sweights probs Nsig = Ok w ->
     (exists a1 a2, linear_system probs Nsig a1 a2 /\
                    w = map (sw a1 a2) probs) /\
     minimiser probs Nsig w /\
     (forall w', minimiser probs Nsig w' <-> w' = w)) /\
  (independent probs -> exists w, signal_sweights probs Nsig = Ok w).
Proof.
  split.
  - intros w. unfold signal_sweights.
    destruct (coefficients probs Nsig) as [[a1 a2]|] eqn:E; [|discriminate].
    intros [= <-]. destruct (coefficients_solve _ _ _ _ E) as [Hsys _].
    destruct (linear_system_minimiser _ _ _ _ Hsys) as [Hmin Huniq].
    split; [eauto|]. split; [exact Hmin|].
    intros w'. split; [apply Huniq|]. intros ->. exact Hmin.
  - intros Hind.
    destruct (signal_sweights_Ok probs Nsig Hind) as (a1 & a2 & _ & ->).
    eauto.
Qed.

Lemma signal_sweights_example :
  signal_sweights [Row 2 1; Row 1 2] 9 = Ok [6; -3].
Proof.
  unfold signal_sweights, coefficients, inv.
  destruct (Req_dec_T _ _) as [E|E].
  - exfalso. revert E. unfold det, V, V_bs, V_ss, V_sb, V_bb. simpl. lra.
  - unfold det, V, V_bs, V_ss, V_sb, V_bb, sw. simpl.
    repeat f_equal; field.
Qed.

Lemma sweights_solve_optimisation_witness :
  minimiser [Row 2 1; Row 1 2] 9 [6; -3].
Proof.
  exact (proj1 (proj2 (proj1 (sweights_solve_optimisation
                                [Row 2 1; Row 1 2] 9)
                         [6; -3] signal_sweights_example))).
Defined.

(** ** The cells around [compute_sweights] *)


Lemma map_alter_invariant {A B} (f : A -> B) (g : A -> A) (i : nat)
      (l : list A) :
  (forall x, f (g x) = f x) -> map f (alter g i l) = map f l.
Proof.
  intros Hfg. revert i.
  induction l as [|x l IH]; intros [|i]; simpl; try reflexivity.
  - rewrite Hfg. reflexivity.
  - f_equal. apply IH.
Qed.

Lemma normalize_row_scale (c : R) (x : row) :
  c <> 0 -> normalize_row (scale c x) = normalize_row x.
Proof.
  intros Hc. unfold normalize_row, scale, row_sum. simpl.
  assert (E : forall u, c * u / (c * sig x + c * bkg x) =
                        u / (sig x + bkg x)).
  { intros u. rewrite <- Rmult_plus_distr_l. unfold Rdiv.
    rewrite Rinv_mult.
    transitivity (c * / c * (u * / (sig x + bkg x))); [ring|].
    rewrite Rinv_r by exact Hc. ring. }
  rewrite !E. reflexivity.
Qed.

Lemma Vinv_scale (N : yields) (c : R) (i : nat) (data : list row) :
  c <> 0 -> Vinv N (rescale_event i c data) = Vinv N data.
Proof.
  intros Hc.
  assert (E : forall n j, Vinv_entry N (rescale_event i c data) n j =
                          Vinv_entry N data n j).
  { intros n j. unfold Vinv_entry, rescale_event. f_equal.
    apply (map_alter_invariant
             (fun e => pdf n e * pdf j e / total N e ^ 2)).
    intros x.
    assert (Et : total N (scale c x) = c * total N x)
      by (unfold total, scale; simpl; ring).
    assert (Ep : forall m, pdf m (scale c x) = c * pdf m x)
      by (intros [|]; reflexivity).
    rewrite Et, !Ep. unfold Rdiv. simpl. rewrite !Rmult_1_r, !Rinv_mult.
    transitivity (c * / c * (c * / c) *
                  (pdf n x * pdf j x * (/ total N x * / total N x)));
      [ring|]. rewrite Rinv_r by exact Hc. ring. }
  unfold Vinv. rewrite !E. reflexivity.
Qed.

Lemma W_scale (Vm : mat2) (N : yields) (n : source) (c : R) (x : row) :
  c <> 0 -> W Vm N n (scale c x) = W Vm N n x.
Proof.
  intros Hc.
  assert (Et : total N (scale c x) = c * total N x)
    by (unfold total, scale; simpl; ring).
  unfold W. rewrite Et. unfold Rdiv. rewrite Rinv_mult. simpl.
  transitivity (c * / c * ((entry Vm n Sig * sig x + entry Vm n Bkg * bkg x)
                           * / total N x)); [ring|].
  rewrite Rinv_r by exact Hc. ring.
Qed.

(** ** The weights of one event *)

Lemma Vinv_symmetric (N : yields) (data : list row) :
  symmetric (Vinv N data).
Proof. rewrite Vinv_as_V. apply V_symmetric. Qed.

(** X1. Under the fit conditions the signal weight and the background weight
    of every event add up to one. *)
Theorem sweights_of_an_event_sum_to_one (N : yields) (data ws : list row) :
  fitted N data ->
  sweights N data = Ok ws ->
  Forall (fun w => sig w + bkg w = 1) ws.
Proof.
  intros [Hpos Hfit] Hws.
  pose proof (Vinv_times_yields N data Sig Hpos) as K1.
  pose proof (Vinv_times_yields N data Bkg Hpos) as K2.
  rewrite (Hfit Sig) in K1. rewrite (Hfit Bkg) in K2.
  pose proof (Vinv_symmetric N data) as Hsym. unfold symmetric in Hsym.
  unfold sweights in Hws. clear Hfit.
  destruct (Vinv N data) as [a b c d]. simpl in *. subst c.
  destruct (inv _) as [Vm|] eqn:Hinv; [|discriminate].
  injection Hws as <-. destruct (inv_Ok _ _ Hinv) as [Hdet ->].
  unfold det in Hdet. simpl in Hdet.
  destruct (cramer_unit a b b d _ _ Hdet K1 K2) as [Es Eb].
  rewrite !Rmult_1_r in Es, Eb.
  apply Forall_map. eapply Forall_impl; [exact Hpos|].
  intros e He. unfold W, total, det in *. simpl in *.
  transitivity (((d / (a * d - b * b) + - b / (a * d - b * b)) * sig e
                 + (- b / (a * d - b * b) + a / (a * d - b * b)) * bkg e)
                / (N_sig N * sig e + N_bkg N * bkg e));
    [unfold Rdiv; ring|].
  rewrite Es, Eb. unfold Rdiv. apply Rinv_r. exact He.
Qed.

Lemma sweights_of_an_event_sum_to_one_witness :
  Forall (fun w => sig w + bkg w = 1) [Row 2 (-1); Row (-1) 2].
Proof.
  exact (sweights_of_an_event_sum_to_one (Yields 1 1) [Row 2 1; Row 1 2]
           [Row 2 (-1); Row (-1) 2] fitted_example sweights_example).
Defined.

(** ** Normalised probabilities *)


Lemma map_sig_zip_with {A} (f g : A -> R) (l : list A) :
  map sig (zip_with Row (map f l) (map g l)) = map f l /\
  map bkg (zip_with Row (map f l) (map g l)) = map g l.
Proof.
  induction l as [|x l [IHs IHb]]; simpl; [auto|].
  rewrite IHs, IHb. auto.
Qed.

Lemma compute_sweights_Ok (N : yields) (probs ws : list row) :
  compute_sweights N probs = Ok ws ->
  exists a1 a2 b1 b2,
    signal_sweights probs (N_sig N) = Ok (map (sw a1 a2) probs) /\
    signal_sweights (map swap probs) (N_bkg N) =
      Ok (map (sw b1 b2) (map swap probs)) /\
    ws = map (fun x => Row (sw a1 a2 x) (sw b1 b2 (swap x))) probs.
Proof.
  unfold compute_sweights, signal_sweights.
  destruct (coefficients probs (N_sig N)) as [[a1 a2]|]; [|discriminate].
  destruct (coefficients (map swap probs) (N_bkg N)) as [[b1 b2]|];
    [|discriminate].
  intros [= <-]. exists a1, a2, b1, b2. repeat split.
  rewrite map_map. clear. induction probs as [|x l IH]; simpl; [reflexivity|].
  rewrite IH. reflexivity.
Qed.


Lemma compute_sweights_defined (N : yields) (probs : list row) :
  independent probs -> exists ws, compute_sweights N probs = Ok ws.
Proof.
  intros Hind. unfold compute_sweights.
  destruct (signal_sweights_Ok probs (N_sig N) Hind) as (a1 & a2 & _ & ->).
  assert (Hind' : independent (map swap probs)).
  { unfold independent. rewrite dependent_swap. exact Hind. }
  destruct (signal_sweights_Ok _ (N_bkg N) Hind') as (b1 & b2 & _ & ->).
  eauto.
Qed.



(** ** Reordering the sample *)

Lemma np_sum_Permutation (l l' : list R) : l ≡ₚ l' -> np_sum l = np_sum l'.
Proof.
  induction 1 as [|x l l' _ IH|x y l|l l' l'' _ IH1 _ IH2]; simpl;
    [reflexivity|rewrite IH; reflexivity|ring|congruence].
Qed.

Lemma Vinv_Permutation (N : yields) (data data' : list row) :
  data ≡ₚ data' -> Vinv N data = Vinv N data'.
Proof.
  intros Hp.
  assert (E : forall n j, Vinv_entry N data n j = Vinv_entry N data' n j).
  { intros n j. unfold Vinv_entry. apply np_sum_Permutation.
    apply fmap_Permutation, Hp. }
  unfold Vinv. rewrite !E. reflexivity.
Qed.

Lemma V_Permutation (probs probs' : list row) :
  probs ≡ₚ probs' -> V probs = V probs'.
Proof.
  intros Hp. unfold V, V_bs, V_ss, V_sb, V_bb.
  rewrite !(np_sum_Permutation _ _ (fmap_Permutation _ _ _ Hp)).
  reflexivity.
Qed.

Lemma zip_map_self {A B} (g : A -> B) (l : list A) :
  zip l (map g l) = map (fun x => (x, g x)) l.
Proof. induction l as [|x l IH]; simpl; [reflexivity|]. rewrite IH; auto. Qed.

(** X3. The weight of an event does not depend on the order of the sample:
    on a reordered sample both computations end the same way, and each
    event keeps its weights. *)
Theorem sweights_of_a_reordered_sample (N : yields) (data data' : list row) :
  data ≡ₚ data' ->
  match sweights N data, sweights N data' with
  | Ok ws, Ok ws' => zip data ws ≡ₚ zip data' ws'
  | SingularMatrix, SingularMatrix => True
  | _, _ => False
  end /\
  match compute_sweights N data, compute_sweights N data' with
  | Ok ws, Ok ws' => zip data ws ≡ₚ zip data' ws'
  | SingularMatrix, SingularMatrix => True
  | _, _ => False
  end.
Proof.
  intros Hp. split.
  - unfold sweights. rewrite <- (Vinv_Permutation N data data' Hp).
    destruct (inv (Vinv N data)) as [Vm|]; [|exact I].
    rewrite !zip_map_self. apply fmap_Permutation, Hp.
  - unfold compute_sweights, signal_sweights, coefficients.
    rewrite <- (V_Permutation data data' Hp).
    rewrite <- (V_Permutation (map swap data) (map swap data')
                  (fmap_Permutation _ _ _ Hp)).
    destruct (inv (V data)) as [Vs|]; [|exact I].
    destruct (inv (V (map swap data))) as [Vb|]; [|exact I].
    assert (E : forall l : list row,
      zip_with Row (map (sw (m_sb Vs * N_sig N) (m_ss Vs * N_sig N)) l)
        (map (sw (m_sb Vb * N_bkg N) (m_ss Vb * N_bkg N)) (map swap l)) =
      map (fun x => Row (sw (m_sb Vs * N_sig N) (m_ss Vs * N_sig N) x)
                        (sw (m_sb Vb * N_bkg N) (m_ss Vb * N_bkg N) (swap x)))
          l).
    { intros l. rewrite map_map. induction l as [|x l IH]; simpl;
        [reflexivity|]. rewrite IH. reflexivity. }
    rewrite !E, !zip_map_self. apply fmap_Permutation, Hp.
Qed.

Lemma sweights_of_a_reordered_sample_witness :
  match sweights (Yields 1 1) [Row 2 1; Row 1 2],
        sweights (Yields 1 1) [Row 1 2; Row 2 1] with
  | Ok ws, Ok ws' =>
      zip [Row 2 1; Row 1 2] ws ≡ₚ zip [Row 1 2; Row 2 1] ws'
  | SingularMatrix, SingularMatrix => True
  | _, _ => False
  end.
Proof.
  exact (proj1 (sweights_of_a_reordered_sample (Yields 1 1)
                  [Row 2 1; Row 1 2] [Row 1 2; Row 2 1]
                  (perm_swap _ _ _))).
Defined.

(** ** The samples and their plots *)

Lemma np_sum_app (l l' : list R) : np_sum (l ++ l') = np_sum l + np_sum l'.
Proof. induction l as [|x l IH]; simpl; [ring|]. rewrite IH. ring. Qed.

Lemma content_app (in_bin : R -> bool) (l l' : list (R * R)) :
  content in_bin (l ++ l') = content in_bin l + content in_bin l'.
Proof. unfold content. rewrite map_app. apply np_sum_app. Qed.

(** The entries of one sample that is filled with one weight. *)
Lemma zip_ones (d : list R) (w : R) :
  zip d (times (ones (length d)) w) = map (fun x => (x, 1 * w)) d.
Proof.
  unfold times, ones. induction d as [|x d IH]; simpl; [reflexivity|].
  rewrite IH. reflexivity.
Qed.

Lemma content_one_sample (in_bin : R -> bool) (d : list R) (w : R) :
  content in_bin (map (fun x => (x, 1 * w)) d) = w * count in_bin d.
Proof.
  unfold content, count. rewrite map_map. simpl.
  rewrite <- np_sum_scal. apply np_sum_ext, Forall_forall. intros x _.
  destruct (in_bin x); ring.
Qed.

Lemma length_weight (datas : list (list R)) (weights : list R) :
  length datas = length weights ->
  length (concat (zip_with (fun d w => times (ones (length d)) w)
                           datas weights)) = length (concat datas).
Proof.
  revert weights. induction datas as [|d datas IH]; intros [|w weights];
    simpl; try discriminate; [reflexivity|].
  intros [= Hlen]. rewrite !length_app, (IH _ Hlen).
  unfold times, ones. rewrite length_map, length_replicate. reflexivity.
Qed.

Lemma zip_concat_weight (datas : list (list R)) (weights : list R) :
  length datas = length weights ->
  zip (concat datas)
      (concat (zip_with (fun d w => times (ones (length d)) w)
                        datas weights)) =
  concat (zip_with (fun d w => map (fun x => (x, 1 * w)) d) datas weights).
Proof.
  revert weights. induction datas as [|d datas IH]; intros [|w weights];
    simpl; try discriminate; [reflexivity|].
  intros [= Hlen]. rewrite <- (IH _ Hlen), <- zip_ones.
  apply zip_with_app. unfold times, ones.
  rewrite length_map, length_replicate. reflexivity.
Qed.


Lemma plot_with_weights_Returns (datas : list (list R)) (weights : list R)
      (kargs : list (string * value)) :
  length datas = length weights -> datas <> [] ->
  plot_with_weights datas weights kargs =
  if repeats_keyword kargs then Raises TypeError
  else Returns
         (Hist (concat datas)
               (concat (zip_with (fun d w => times (ones (length d)) w)
                                 datas weights))
               0.5 30 kargs).
Proof.
  intros Hlen Hne. unfold plot_with_weights.
  rewrite (proj2 (Nat.eqb_eq _ _) Hlen).
  destruct datas as [|d datas]; [contradiction|].
  destruct weights as [|w weights]; [discriminate|]. reflexivity.
Qed.


Lemma filled_values (datas : list (list R)) (weights : list R) :
  length datas = length weights ->
  map fst (concat (zip_with (fun d w => map (fun x => (x, 1 * w)) d)
                            datas weights)) = concat datas.
Proof.
  revert weights. induction datas as [|d datas IH];
    intros [|w weights]; simpl; try discriminate; [reflexivity|].
  intros [= Hlen]. rewrite map_app, (IH _ Hlen), map_map. simpl.
  rewrite map_id. reflexivity.
Qed.

Lemma filled_content (in_bin : R -> bool) (datas : list (list R))
      (weights : list R) :
  length datas = length weights ->
  content in_bin (concat (zip_with (fun d w => map (fun x => (x, 1 * w)) d)
                                   datas weights)) =
  np_sum (zip_with (fun d w => w * count in_bin d) datas weights).
Proof.
  revert weights.
  induction datas as [|d datas IH]; intros [|w weights]; simpl;
    try discriminate; [reflexivity|].
  intros [= Hlen]. rewrite content_app, content_one_sample, (IH _ Hlen).
  reflexivity.
Qed.

(** X6. The call of [plt.hist] that [plot_with_weights] makes: the data
    are the values of all samples, in order, the weights have the shape of
    the data, [alpha] is 0.5, [bins] is 30 and [kargs] is passed on as it
    is; the weight handed over for the values of any bin is the sum over
    the samples of the weight of the sample times the number of its values
    in the bin. *)
Theorem plot_with_weights_content (datas : list (list R)) (weights : list R)
        (kargs : list (string * value)) (call : hist_call) :
  plot_with_weights datas weights kargs = Returns call ->
  hist_x call = concat datas /\
  length (hist_weights call) = length (hist_x call) /\
  hist_alpha call = 0.5 /\ hist_bins call = 30%nat /\
  hist_kargs call = kargs /\
  forall in_bin,
    content in_bin (entries call) =
    np_sum (zip_with (fun d w => w * count in_bin d) datas weights).
Proof.
  intros H.
  destruct (decide (length datas = length weights)) as [Hlen|Hlen].
  2:{ unfold plot_with_weights in H.
      rewrite (proj2 (Nat.eqb_neq _ _) Hlen) in H. discriminate. }
  destruct (decide (datas = [])) as [->|Hne].
  { destruct weights; discriminate. }
  rewrite (plot_with_weights_Returns _ _ _ Hlen Hne) in H.
  destruct (repeats_keyword kargs); [discriminate|].
  injection H as <-. unfold entries. cbn [hist_x hist_weights hist_alpha
    hist_bins hist_kargs].
  split; [reflexivity|]. split; [apply length_weight, Hlen|].
  do 3 (split; [reflexivity|]).
  intros in_bin. rewrite (zip_concat_weight _ _ Hlen).
  apply filled_content, Hlen.
Qed.

(** X7. The two bins share out the particles: each particle of the two
    generated samples is in exactly one of [first_bin] and [second_bin]. *)
Theorem bins_partition (sig_data bck_data : list R) (n_sig1 n_bck1 : nat) :
  first_bin sig_data bck_data n_sig1 n_bck1
  ++ second_bin sig_data bck_data n_sig1 n_bck1 ≡ₚ sig_data ++ bck_data.
Proof.
  unfold first_bin, second_bin.
  rewrite <- (take_drop n_sig1 sig_data) at 3.
  rewrite <- (take_drop n_bck1 bck_data) at 3.
  solve_Permutation.
Qed.

Lemma count_all (l : list R) : count (fun _ => true) l = INR (length l).
Proof.
  unfold count. induction l as [|x l IH]; [reflexivity|].
  cbn [map np_sum length]. rewrite IH, S_INR. ring.
Qed.

Lemma count_app (in_bin : R -> bool) (l l' : list R) :
  count in_bin (l ++ l') = count in_bin l + count in_bin l'.
Proof. unfold count. rewrite map_app. apply np_sum_app. Qed.

(** X8. The plot of the reconstructed electrons,
    [plot_with_weights([first_bin, second_bin], [n_bck2, -n_bck1],
    density=True, label='reconstructed electron')]: the weight handed to
    [plt.hist] for the values of a bin is [n_bck2] times the count of the
    first bin minus [n_bck1] times the count of the second; over the whole
    range the weights of the positrons cancel, and the total weight is
    [n_sig1 n_bck2 - n_sig2 n_bck1]. *)
Theorem reconstructed_electron (sig_data bck_data : list R)
        (n_sig1 n_sig2 n_bck1 n_bck2 : nat) :
  length sig_data = (n_sig1 + n_sig2)%nat ->
  length bck_data = (n_bck1 + n_bck2)%nat ->
  exists call,
    plot_with_weights [first_bin sig_data bck_data n_sig1 n_bck1;
                       second_bin sig_data bck_data n_sig1 n_bck1]
                      [INR n_bck2; - INR n_bck1]
                      [("density", Bool true);
                       ("label", Str "reconstructed electron")]%string
    = Returns call /\
    (forall in_bin,
       content in_bin (entries call) =
       (INR n_bck2 * count in_bin (take n_sig1 sig_data)
        - INR n_bck1 * count in_bin (drop n_sig1 sig_data))
       + (INR n_bck2 * count in_bin (take n_bck1 bck_data)
          - INR n_bck1 * count in_bin (drop n_bck1 bck_data))) /\
    INR n_bck2 * count (fun _ => true) (take n_bck1 bck_data)
    - INR n_bck1 * count (fun _ => true) (drop n_bck1 bck_data) = 0 /\
    content (fun _ => true) (entries call) =
    INR n_sig1 * INR n_bck2 - INR n_sig2 * INR n_bck1.
Proof.
  intros Hsig Hbck.
  assert (Hbins : forall in_bin,
    np_sum (zip_with (fun d w => w * count in_bin d)
              [first_bin sig_data bck_data n_sig1 n_bck1;
               second_bin sig_data bck_data n_sig1 n_bck1]
              [INR n_bck2; - INR n_bck1]) =
    (INR n_bck2 * count in_bin (take n_sig1 sig_data)
     - INR n_bck1 * count in_bin (drop n_sig1 sig_data))
    + (INR n_bck2 * count in_bin (take n_bck1 bck_data)
       - INR n_bck1 * count in_bin (drop n_bck1 bck_data))).
  { intros in_bin. unfold first_bin, second_bin. simpl.
    rewrite !count_app. ring. }
  assert (Hts : length (take n_sig1 sig_data) = n_sig1)
    by (rewrite length_take; lia).
  assert (Hds : length (drop n_sig1 sig_data) = n_sig2)
    by (rewrite length_drop; lia).
  assert (Htb : length (take n_bck1 bck_data) = n_bck1)
    by (rewrite length_take; lia).
  assert (Hdb : length (drop n_bck1 bck_data) = n_bck2)
    by (rewrite length_drop; lia).
  eexists. split.
  { rewrite plot_with_weights_Returns; [reflexivity|reflexivity|discriminate]. }
  unfold entries. cbn [hist_x hist_weights].
  rewrite (zip_concat_weight
             [first_bin sig_data bck_data n_sig1 n_bck1;
              second_bin sig_data bck_data n_sig1 n_bck1]
             [INR n_bck2; - INR n_bck1] eq_refl).
  split; [|split].
  - intros in_bin. rewrite filled_content by reflexivity. apply Hbins.
  - rewrite !count_all, Htb, Hdb. ring.
  - rewrite filled_content by reflexivity.
    rewrite Hbins, !count_all, Hts, Hds, Htb, Hdb. ring.
Qed.


Lemma plot_with_weights_content_witness :
  content (fun x => gt x 1)
          (entries (Hist [1; 2; 3] [1 * 2; 1 * 2; 1 * 5] 0.5 30
                         [("density", Bool true)]%string)) =
  np_sum (zip_with (fun d w => w * count (fun x => gt x 1) d)
                   [[1; 2]; [3]] [2; 5]).
Proof.
  exact (proj2 (proj2 (proj2 (proj2 (proj2
           (plot_with_weights_content [[1; 2]; [3]] [2; 5]
              [("density", Bool true)]%string
              (Hist [1; 2; 3] [1 * 2; 1 * 2; 1 * 5] 0.5 30
                    [("density", Bool true)]%string)
              eq_refl)))))
           (fun x => gt x 1)).
Defined.

Lemma reconstructed_electron_witness :
  exists call,
    plot_with_weights [first_bin [1; 2; 3] [4; 5; 6] 2 1;
                       second_bin [1; 2; 3] [4; 5; 6] 2 1]
                      [INR 2; - INR 1]
                      [("density", Bool true);
                       ("label", Str "reconstructed electron")]%string
    = Returns call /\
    content (fun _ => true) (entries call) = INR 2 * INR 2 - INR 1 * INR 1.
Proof.
  destruct (reconstructed_electron [1; 2; 3] [4; 5; 6] 2 1 1 2 eq_refl
              eq_refl) as (call & H & _ & _ & Htotal).
  exists call. split; assumption.
Defined.

(** ** Cuts and reorderings of the arrays *)

Lemma gt_true (x c : R) : gt x c = true <-> c < x.
Proof. unfold gt. destruct (Rlt_dec c x); split; try discriminate; tauto. Qed.

(** A mask computed from the second array, applied to both arrays. *)
Lemma select_zip {A B} (f : B -> bool) (xs : list A) (ys : list B) :
  length xs = length ys ->
  zip (select (map f ys) xs) (select (map f ys) ys) =
  select (map (fun xy => f (snd xy)) (zip xs ys)) (zip xs ys).
Proof.
  revert ys. induction xs as [|x xs IH]; intros [|y ys]; simpl;
    try discriminate; [reflexivity|].
  intros [= Hlen]. destruct (f y); simpl; rewrite (IH _ Hlen); reflexivity.
Qed.

Lemma select_length {A B} (f : B -> bool) (xs : list A) (ys : list B) :
  length xs = length ys ->
  length (select (map f ys) xs) = length (select (map f ys) ys).
Proof.
  revert ys. induction xs as [|x xs IH]; intros [|y ys]; simpl;
    try discriminate; [reflexivity|].
  intros [= Hlen]. destruct (f y); simpl; rewrite (IH _ Hlen); reflexivity.
Qed.

Lemma select_filter {A} (f : A -> bool) (l : list A) :
  select (map f l) l = List.filter f l.
Proof.
  induction l as [|x l IH]; simpl; [reflexivity|].
  destruct (f x); rewrite IH; reflexivity.
Qed.

(** X9. The lifetime cut keeps the two arrays of the sample aligned: on
    mass and lifetime arrays of equal lengths it returns arrays of equal
    length whose pairs are the signal events followed by the background
    events of positive lifetime, each as often and in the order in which
    the sample has it; it raises [IndexError] when the background arrays
    differ in length. *)
Theorem lifetime_cut_keeps_events (np_sig_m_sw np_sig_t_sw np_bkg_m_sw
                                   np_bkg_t_sw : list R) :
  (length np_bkg_m_sw <> length np_bkg_t_sw ->
   lifetime_cut np_sig_m_sw np_sig_t_sw np_bkg_m_sw np_bkg_t_sw =
   Raises IndexError) /\
  (length np_sig_m_sw = length np_sig_t_sw ->
   length np_bkg_m_sw = length np_bkg_t_sw ->
   exists np_m_sw np_t_sw,
     lifetime_cut np_sig_m_sw np_sig_t_sw np_bkg_m_sw np_bkg_t_sw =
     Returns (np_m_sw, np_t_sw) /\
     length np_m_sw = length np_t_sw /\
     zip np_m_sw np_t_sw =
     zip np_sig_m_sw np_sig_t_sw
     ++ List.filter (fun mt => gt (snd mt) 0)
                    (zip np_bkg_m_sw np_bkg_t_sw)) /\
  (forall t, gt t 0 = true <-> 0 < t).
Proof.
  unfold lifetime_cut, mask_index. rewrite length_map, Nat.eqb_refl.
  split; [|split].
  - intros Hne. apply not_eq_sym in Hne.
    rewrite (proj2 (Nat.eqb_neq _ _) Hne). reflexivity.
  - intros Hsig Hbkg. rewrite <- Hbkg, Nat.eqb_refl.
    set (t_cut := map (fun t => gt t 0) np_bkg_t_sw).
    exists (np_sig_m_sw ++ select t_cut np_bkg_m_sw),
           (np_sig_t_sw ++ select t_cut np_bkg_t_sw).
    assert (Hz : zip (select t_cut np_bkg_m_sw) (select t_cut np_bkg_t_sw) =
                 List.filter (fun mt => gt (snd mt) 0)
                             (zip np_bkg_m_sw np_bkg_t_sw)).
    { rewrite <- select_filter. apply (select_zip (fun t => gt t 0)), Hbkg. }
    assert (Hl : length (select t_cut np_bkg_m_sw) =
                 length (select t_cut np_bkg_t_sw))
      by (apply select_length, Hbkg).
    split; [reflexivity|]. split; [rewrite !length_app; lia|].
    rewrite <- Hz. apply zip_with_app, Hsig.
  - intros t. apply gt_true.
Qed.

(** Indexing by an array of indices. *)
Lemma index_array_Returns {A} (xs ys : list A) (sorter : list nat) :
  index_array xs sorter = Returns ys <->
  Forall2 (fun i y => xs !! i = Some y) sorter ys.
Proof.
  revert ys. induction sorter as [|i rest IH]; intros ys; simpl.
  - split; [intros [= <-]; constructor|intros H; inversion H; reflexivity].
  - destruct (xs !! i) as [x|] eqn:Hi.
    + destruct (index_array xs rest) as [zs|e] eqn:Hrest.
      * split.
        -- intros [= <-]. constructor; [exact Hi|]. apply IH. reflexivity.
        -- intros H. inversion H as [|? y ? ys' Hy Hys]; subst.
           apply IH in Hys. congruence.
      * split; [discriminate|]. intros H.
        inversion H as [|? y ? ys' Hy Hys]; subst.
        apply IH in Hys. discriminate.
    + split; [discriminate|]. intros H.
      inversion H as [|? y ? ys' Hy Hys]; subst. congruence.
Qed.

Lemma index_array_Raises {A} (xs : list A) (sorter : list nat)
      (e : exception) :
  index_array xs sorter = Raises e -> e = IndexError.
Proof.
  induction sorter as [|i rest IH]; simpl; [discriminate|].
  destruct (xs !! i); [|intros [= <-]; reflexivity].
  destruct (index_array xs rest); [discriminate|].
  intros [= <-]. reflexivity.
Qed.

Lemma index_array_seq {A} (xs : list A) :
  index_array xs (seq 0 (length xs)) = Returns xs.
Proof.
  apply index_array_Returns.
  assert (H : forall pre, Forall2 (fun i y => (pre ++ xs) !! i = Some y)
                            (seq (length pre) (length xs)) xs).
  { induction xs as [|x xs IH]; intros pre; simpl; constructor.
    - rewrite lookup_app_r by lia. rewrite Nat.sub_diag. reflexivity.
    - specialize (IH (pre ++ [x])). rewrite <- app_assoc in IH.
      rewrite length_app in IH. simpl in IH.
      rewrite Nat.add_1_r in IH. exact IH. }
  exact (H []).
Qed.

Lemma index_array_Permutation {A} (xs ys : list A) (s s' : list nat) :
  s ≡ₚ s' -> index_array xs s = Returns ys ->
  exists ys', index_array xs s' = Returns ys' /\ ys ≡ₚ ys'.
Proof.
  intros Hp. revert ys.
  induction Hp as [|i s s' _ IH|i j s|s s' s'' _ IH1 _ IH2]; intros ys; simpl.
  - intros [= <-]. eauto.
  - destruct (xs !! i) as [x|]; [|discriminate].
    destruct (index_array xs s) as [zs|] eqn:Hs; [|discriminate].
    intros [= <-]. destruct (IH zs eq_refl) as (zs' & -> & Hzs).
    eexists. split; [reflexivity|]. constructor. exact Hzs.
  - destruct (xs !! j) as [y|]; [|discriminate].
    destruct (xs !! i) as [x|]; [|destruct (index_array xs s); discriminate].
    destruct (index_array xs s) as [zs|]; [|discriminate].
    intros [= <-]. eexists. split; [reflexivity|]. apply perm_swap.
  - intros H. destruct (IH1 _ H) as (ys1 & H1 & Hp1).
    destruct (IH2 _ H1) as (ys2 & H2 & Hp2).
    exists ys2. split; [exact H2|]. etransitivity; eassumption.
Qed.

Lemma index_array_zip {A B} (xs xs' : list A) (ys ys' : list B)
      (sorter : list nat) :
  index_array xs sorter = Returns xs' ->
  index_array ys sorter = Returns ys' ->
  index_array (zip xs ys) sorter = Returns (zip xs' ys').
Proof.
  rewrite !index_array_Returns. revert xs' ys'.
  induction sorter as [|i rest IH]; intros xs' ys' Hx Hy;
    inversion Hx; inversion Hy; subst; simpl; constructor.
  - rewrite lookup_zip_with. 
    match goal with Hxi : xs !! i = Some _, Hyi : ys !! i = Some _ |- _ =>
      rewrite Hxi, Hyi end. reflexivity.
  - apply IH; assumption.
Qed.

(** X10. Sorting the events: when [sorter] holds each index of the arrays
    once, as [np.argsort] returns it, [mass[sorter]] and [p[sorter]] are
    defined and every event keeps its own mass and momentum; an index
    outside the array raises [IndexError]. *)
Theorem sorter_keeps_events (mass p : list R) (sorter : list nat) :
  ((exists i, i ∈ sorter /\ (length mass <= i)%nat) ->
   index_array mass sorter = Raises IndexError) /\
  (sorter ≡ₚ seq 0 (length mass) ->
   length p = length mass ->
   exists mass' p',
     index_array mass sorter = Returns mass' /\
     index_array p sorter = Returns p' /\
     zip mass' p' ≡ₚ zip mass p).
Proof.
  split.
  - intros (i & Hin & Hi).
    destruct (index_array mass sorter) as [ys|e] eqn:E.
    + exfalso. apply index_array_Returns in E.
      apply list_elem_of_lookup in Hin. destruct Hin as [k Hk].
      destruct (Forall2_lookup_l _ _ _ _ _ E Hk) as (y & _ & Hy).
      apply lookup_lt_Some in Hy. lia.
    + f_equal. apply (index_array_Raises _ _ _ E).
  - intros Hperm Hlen. symmetry in Hperm.
    destruct (index_array_Permutation mass mass _ _ Hperm
                (index_array_seq mass)) as (mass' & Hm & Hpm).
    pose proof Hperm as Hperm'. rewrite <- Hlen in Hperm'.
    destruct (index_array_Permutation p p _ _ Hperm'
                (index_array_seq p)) as (p' & Hp & Hpp).
    exists mass', p'. split; [exact Hm|]. split; [exact Hp|].
    pose proof (index_array_zip _ _ _ _ _ Hm Hp) as Hz.
    assert (Hseq : seq 0 (length (zip mass p)) ≡ₚ sorter).
    { rewrite length_zip_with, Hlen, Nat.min_id. exact Hperm. }
    destruct (index_array_Permutation (zip mass p) (zip mass p) _ _ Hseq
                (index_array_seq _)) as (z & Hz' & Hpz).
    rewrite Hz in Hz'. injection Hz' as <-. symmetry. exact Hpz.
Qed.

Lemma lifetime_cut_keeps_events_witness :
  exists np_m_sw np_t_sw,
    lifetime_cut [5; 6] [1; 2] [7; 8; 9] [3; -1; 4] =
    Returns (np_m_sw, np_t_sw) /\
    length np_m_sw = length np_t_sw.
Proof.
  destruct (proj1 (proj2 (lifetime_cut_keeps_events [5; 6] [1; 2]
                            [7; 8; 9] [3; -1; 4])) eq_refl eq_refl)
    as (m & t & H & Hlen & _).
  exists m, t. split; assumption.
Defined.

Lemma sorter_keeps_events_witness :
  exists mass' p',
    index_array [3; 1; 2] [1; 2; 0]%nat = Returns mass' /\
    index_array [30; 10; 20] [1; 2; 0]%nat = Returns p' /\
    zip mass' p' ≡ₚ zip [3; 1; 2] [30; 10; 20].
Proof.
  refine (proj2 (sorter_keeps_events [3; 1; 2] [30; 10; 20] [1; 2; 0]%nat)
            _ eq_refl).
  simpl. symmetry. apply (Permutation_cons_append [1; 2]%nat 0%nat).
Defined.

(** ** Negative weights *)

Lemma np_sum_nonneg_zero {A} (f : A -> R) (l : list A) :
  Forall (fun e => 0 <= f e) l -> np_sum (map f l) = 0 ->
  Forall (fun e => f e = 0) l.
Proof.
  induction 1 as [|e l He Hl IH]; simpl; intros H0; constructor.
  - assert (0 <= np_sum (map f l)).
    { clear -Hl. induction Hl as [|x l Hx _ IH]; simpl; lra. }
    lra.
  - apply IH.
    assert (0 <= np_sum (map f l)).
    { clear -Hl. induction Hl as [|x l Hx _ IH]; simpl; lra. }
    lra.
Qed.

Lemma negative_or_all_nonneg (w : list R) :
  Exists (fun wx => wx < 0) w \/ Forall (fun wx => 0 <= wx) w.
Proof.
  induction w as [|x w [IH|IH]].
  - right. constructor.
  - left. apply Exists_cons_tl, IH.
  - destruct (Rlt_dec x 0) as [Hx|Hx].
    + left. apply Exists_cons_hd, Hx.
    + right. constructor; [lra|exact IH].
Qed.

(** X4. Negative weights are needed: on a table whose background
    probability is positive at every event, the signal weights of a
    non-zero number of signal events cannot all be non-negative. *)
Theorem some_signal_weight_is_negative (probs : list row) (Nsig : R)
        (w : list R) :
  Forall (fun x => 0 < bkg x) probs ->
  Nsig <> 0 ->
  signal_sweights probs Nsig = Ok w ->
  Exists (fun wx => wx < 0) w.
Proof.
  intros Hbkg HN. unfold signal_sweights.
  destruct (coefficients probs Nsig) as [[a1 a2]|] eqn:E; [|discriminate].
  intros [= <-]. destruct (coefficients_solve _ _ _ _ E) as [[H1 H2] _].
  destruct (negative_or_all_nonneg (map (sw a1 a2) probs)) as [Hneg|Hpos];
    [exact Hneg|exfalso].
  apply (proj1 (Forall_map _ _ _)) in Hpos.
  assert (Hzero : Forall (fun x => sw a1 a2 x * bkg x = 0) probs).
  { apply np_sum_nonneg_zero.
    - pose proof (proj2 (Forall_and _ _) (conj Hbkg Hpos)) as H.
      eapply Forall_impl; [exact H|]. intros x [Hb Hs]. simpl in *.
      apply Rmult_le_pos; lra.
    - rewrite sw_against_bkg. unfold V_bs in H1. exact H1. }
  apply HN. rewrite <- H2, <- sw_against_sig. apply np_sum_zero.
  pose proof (proj2 (Forall_and _ _) (conj Hbkg Hzero)) as H.
  eapply Forall_impl; [exact H|]. intros x [Hb Hs]. simpl in *.
  apply Rmult_integral in Hs. destruct Hs as [Hs|Hs]; [|lra].
  rewrite Hs. ring.
Qed.

Lemma some_signal_weight_is_negative_witness :
  Exists (fun wx => wx < 0) [6; -3].
Proof.
  refine (some_signal_weight_is_negative [Row 2 1; Row 1 2] 9 [6; -3] _ _
            signal_sweights_example).
  - repeat constructor; simpl; lra.
  - lra.
Defined.

(** ** The claims on the notebook's normalisation *)

Lemma signal_sweights_feasible (probs : list row) (Nsig : R) (w : list R) :
  signal_sweights probs Nsig = Ok w -> feasible probs Nsig w.
Proof.
  unfold signal_sweights.
  destruct (coefficients probs Nsig) as [[a1 a2]|] eqn:E; [|discriminate].
  intros [= <-]. apply linear_system_feasible.
  apply (coefficients_solve _ _ _ _ E).
Qed.





(** C9, amended.  After the notebook's normalisation step the
    probabilities of an event sum to one up to rounding: in float64, as the
    cell computes them, the two probabilities of an event with non-negative
    float64 densities whose float64 sum is finite and non-zero are finite
    and sum to one within [3 * 2 ^ -53]; in exact arithmetic every event
    whose densities have a non-zero sum has probabilities that sum to one
    exactly.  The normalised table is the input that the notebook hands to
    [compute_sweights]. *)
Theorem normalized_probabilities_sum_to_one_up_to_rounding
        (sig_pdf bck_pdf : R -> R) (N : yields) (events : list event) :
  (forall (probs : list Binary64.row) (i : nat) (x : Binary64.row) (t : Q),
     probs !! i = Some x ->
     Binary64.is_float (Binary64.sig x) = true ->
     Binary64.is_float (Binary64.bkg x) = true ->
     (0 <= Binary64.sig x)%Q -> (0 <= Binary64.bkg x)%Q ->
     Binary64.row_sum x = Some t -> ~ (t == 0)%Q ->
     exists y,
       Binary64.normalize probs !! i = Some (Some y) /\
       (Qabs (Binary64.sig y + Binary64.bkg y - 1) <= 3 * 2 ^ (-53))%Q) /\
  (forall (probs : list row) (i : nat) (x : row),
     probs !! i = Some x -> row_sum x <> 0 ->
     exists y, normalize probs !! i = Some y /\ sig y + bkg y = 1) /\
  notebook_sweights sig_pdf bck_pdf N events =
    compute_sweights N (normalize (densities sig_pdf bck_pdf events)) /\
  (Forall (fun x => row_sum x <> 0) (densities sig_pdf bck_pdf events) ->
   Forall (fun y => sig y + bkg y = 1) (probs_of sig_pdf bck_pdf events)).
Proof.
  assert (Hrow : forall x, row_sum x <> 0 ->
            sig (normalize_row x) + bkg (normalize_row x) = 1).
  { intros x Hx. unfold normalize_row, row_sum in *. simpl. field.
    exact Hx. }
  split; [|split; [|split]].
  - intros probs i x t Hi Fs Fb Hs Hb Ht Ht0.
    destruct (Binary64Facts.div_row_sum x t Fs Fb Hs Hb Ht Ht0)
      as (y & Hy & Hone).
    exists y. rewrite (Binary64Facts.normalize_lookup probs i x Hi), Ht.
    split; [rewrite Hy; reflexivity | exact Hone].
  - intros probs i x Hi Hx. exists (normalize_row x).
    rewrite normalize_map, list_lookup_fmap, Hi. split; [reflexivity|].
    apply Hrow, Hx.
  - reflexivity.
  - intros Hall. unfold probs_of. rewrite normalize_map.
    apply Forall_map. eapply Forall_impl; [exact Hall|]. exact Hrow.
Qed.

Lemma normalized_probabilities_sum_to_one_up_to_rounding_witness :
  exists y,
    Binary64.normalize
      [Binary64.Row Binary64.f0_1 Binary64.f0_3] !! 0%nat = Some (Some y) /\
    (Qabs (Binary64.sig y + Binary64.bkg y - 1) <= 3 * 2 ^ (-53))%Q.
Proof.
  refine (proj1 (normalized_probabilities_sum_to_one_up_to_rounding
                   (fun m => m) (fun m => m) (Yields 1 1) [])
                [Binary64.Row Binary64.f0_1 Binary64.f0_3] 0%nat
                (Binary64.Row Binary64.f0_1 Binary64.f0_3)
                (3602879701896397 # 9007199254740992)
                eq_refl _ _ _ _ _ _).
  - vm_compute. reflexivity.
  - vm_compute. reflexivity.
  - vm_compute. discriminate.
  - vm_compute. discriminate.
  - vm_compute. reflexivity.
  - intros H. vm_compute in H. discriminate.
Defined.

(** The float64 numbers 0.1 and 0.3 normalise to 0.25 and
    0.7499999999999999, which sum to [1 - 2 ^ -53]. *)
Lemma normalized_probabilities_miss_one :
  exists (x y : Binary64.row) (t : Q),
    x = Binary64.Row Binary64.f0_1 Binary64.f0_3 /\
    Binary64.row_sum x = Some t /\ ~ (t == 0)%Q /\
    Binary64.normalize [x] = [Some y] /\
    (Binary64.sig y + Binary64.bkg y == 1 - 2 ^ (-53))%Q /\
    ~ (Binary64.sig y + Binary64.bkg y == 1)%Q.
Proof.
  eexists _, _, _. split; [reflexivity|].
  split; [vm_compute; reflexivity|].
  split; [intros H; vm_compute in H; discriminate|].
  split; [vm_compute; reflexivity|].
  split; [vm_compute; reflexivity|].
  intros H; vm_compute in H; discriminate.
Qed.

(** C4, amended.  In exact arithmetic, replacing the densities
    [(f_sig, f_bkg)] of one event by [(c f_sig, c f_bkg)] for a positive
    [c] leaves the normalised table, hence the input and the output of
    [compute_sweights], and the weights of the fitted-yield formula
    unchanged.  In float64, as the notebook normalises the table, the rows
    of the other events are unchanged and the normalised probabilities of
    the rescaled event move by at most [2 ^ -49], provided its densities
    are non-negative float64 numbers with a finite non-zero sum and the
    products with [c] neither overflow nor fall among the subnormal
    numbers. *)
Theorem sweights_invariant_under_event_rescaling_up_to_rounding :
  (forall (N : yields) (data : list row) (i : nat) (c : R),
     0 < c ->
     normalize (rescale_event i c data) = normalize data /\
     compute_sweights N (normalize (rescale_event i c data)) =
       compute_sweights N (normalize data) /\
     sweights N (rescale_event i c data) = sweights N data) /\
  (forall (data : list Binary64.row) (i : nat) (c : Q) (x : Binary64.row)
          (t : Q),
     data !! i = Some x ->
     Binary64.is_float (Binary64.sig x) = true ->
     Binary64.is_float (Binary64.bkg x) = true ->
     (0 <= Binary64.sig x)%Q -> (0 <= Binary64.bkg x)%Q ->
     Binary64.row_sum x = Some t -> ~ (t == 0)%Q ->
     (0 < c)%Q ->
     (Binary64.sig x == 0 \/ 2 ^ (-1022) <= c * Binary64.sig x)%Q ->
     (Binary64.bkg x == 0 \/ 2 ^ (-1022) <= c * Binary64.bkg x)%Q ->
     (c * (Binary64.sig x + Binary64.bkg x) <= 2 ^ 1022)%Q ->
     exists data' y y',
       Binary64.rescale_event i c data = Some data' /\
       (forall j, j <> i ->
          Binary64.normalize data' !! j = Binary64.normalize data !! j) /\
       Binary64.normalize data !! i = Some (Some y) /\
       Binary64.normalize data' !! i = Some (Some y') /\
       (Qabs (Binary64.sig y' - Binary64.sig y) <= 2 ^ (-49))%Q /\
       (Qabs (Binary64.bkg y' - Binary64.bkg y) <= 2 ^ (-49))%Q).
Proof.
  split.
  - intros N data i c Hpos. assert (Hc : c <> 0) by lra.
    assert (Hn : normalize (rescale_event i c data) = normalize data).
    { rewrite !normalize_map. apply map_alter_invariant.
      intros x. apply normalize_row_scale, Hc. }
    split; [exact Hn|]. split; [rewrite Hn; reflexivity|].
    unfold sweights. rewrite (Vinv_scale N c i data Hc).
    destruct (inv (Vinv N data)) as [Vm|]; [|reflexivity]. f_equal.
    apply (map_alter_invariant (fun e => Row (W Vm N Sig e) (W Vm N Bkg e))).
    intros x. rewrite !W_scale by exact Hc. reflexivity.
  - intros data i c x t Hi Fs Fb Hs Hb Ht Ht0 Hc Ns Nb Hf.
    destruct (Binary64Facts.scaled_row_close c x t Fs Fb Hs Hb Ht Ht0 Hc Ns
                Nb Hf) as (x' & y & y' & Hx' & Hy & Hy' & Hsig & Hbkg).
    exists (<[i := x']> data), y, y'.
    assert (Hlt : (i < length data)%nat) by (eapply lookup_lt_Some; eauto).
    split; [unfold Binary64.rescale_event; rewrite Hi, Hx'; reflexivity|].
    split.
    { intros j Hj. unfold Binary64.normalize, Binary64.div.
      rewrite !lookup_zip_with, !list_lookup_fmap.
      rewrite !list_lookup_insert_ne by congruence. reflexivity. }
    split; [rewrite (Binary64Facts.normalize_lookup data i x Hi), Hy;
            reflexivity|].
    split; [|split; assumption].
    rewrite (Binary64Facts.normalize_lookup _ i x'), Hy'; [reflexivity|].
    apply list_lookup_insert_eq, Hlt.
Qed.

Lemma sweights_invariant_under_event_rescaling_up_to_rounding_witness :
  sweights (Yields 1 1) [Row 2 1; Row (3 * 1) (3 * 2)] =
    sweights (Yields 1 1) [Row 2 1; Row 1 2] /\
  exists data' y y',
    Binary64.rescale_event 0 3
      [Binary64.Row Binary64.f0_1 Binary64.f0_3;
       Binary64.Row Binary64.f0_5 Binary64.f0_5] = Some data' /\
    Binary64.normalize
      [Binary64.Row Binary64.f0_1 Binary64.f0_3;
       Binary64.Row Binary64.f0_5 Binary64.f0_5] !! 0%nat = Some (Some y) /\
    Binary64.normalize data' !! 0%nat = Some (Some y') /\
    (Qabs (Binary64.sig y' - Binary64.sig y) <= 2 ^ (-49))%Q.
Proof.
  split.
  - refine (proj2 (proj2 (proj1
              sweights_invariant_under_event_rescaling_up_to_rounding
              (Yields 1 1) [Row 2 1; Row 1 2] 1%nat 3 _))). lra.
  - destruct (proj2 sweights_invariant_under_event_rescaling_up_to_rounding
                [Binary64.Row Binary64.f0_1 Binary64.f0_3;
                 Binary64.Row Binary64.f0_5 Binary64.f0_5] 0%nat 3%Q
                (Binary64.Row Binary64.f0_1 Binary64.f0_3)
                (3602879701896397 # 9007199254740992)%Q eq_refl)
      as (data' & y & y' & H1 & _ & H2 & H3 & H4 & _).
    + vm_compute. reflexivity.
    + vm_compute. reflexivity.
    + vm_compute. discriminate.
    + vm_compute. discriminate.
    + vm_compute. reflexivity.
    + intros H. vm_compute in H. discriminate.
    + vm_compute. reflexivity.
    + right. refine (proj1 (Qle_bool_iff _ _) _). vm_compute. reflexivity.
    + right. refine (proj1 (Qle_bool_iff _ _) _). vm_compute. reflexivity.
    + refine (proj1 (Qle_bool_iff _ _) _). vm_compute. reflexivity.
    + exists data', y, y'. auto.
Defined.

(** In float64 the table of the sample [(0.1, 0.3), (0.5, 0.5)] changes
    when the densities of its first event are multiplied by 3, and the
    sWeights of the two tables differ. *)
Lemma rescaling_changes_the_sweights :
  exists data data' probs probs',
    data = [Binary64.Row Binary64.f0_1 Binary64.f0_3;
            Binary64.Row Binary64.f0_5 Binary64.f0_5] /\
    Binary64.rescale_event 0 3 data = Some data' /\
    Binary64.normalize data = map Some probs /\
    Binary64.normalize data' = map Some probs' /\
    probs <> probs' /\
    compute_sweights (Yields 1 1) (map Binary64.reals probs) <>
    compute_sweights (Yields 1 1) (map Binary64.reals probs').
Proof.
  eexists _, _, [_; _], [_; _]. split; [reflexivity|].
  split; [vm_compute; reflexivity|].
  split; [vm_compute; reflexivity|].
  split; [vm_compute; reflexivity|].
  split; [discriminate|].
  set (T := map Binary64.reals _). set (T' := map Binary64.reals _).
  assert (Hind : independent T).
  { intros Hdep. apply dependent_det_V_zero in Hdep. revert Hdep.
    unfold det, V, V_bs, V_ss, V_sb, V_bb, T, Binary64.reals, Q2R. simpl.
    lra. }
  destruct (compute_sweights_defined (Yields 1 1) T Hind) as [ws Hws].
  rewrite Hws. intros Heq. symmetry in Heq.
  destruct (compute_sweights_Ok _ _ _ Hws) as (a1 & a2 & b1 & b2 & H1 & _ & E1).
  destruct (compute_sweights_Ok _ _ _ Heq)
    as (a1' & a2' & b1' & b2' & H2 & _ & E2).
  apply signal_sweights_feasible in H1, H2.
  destruct H1 as (_ & B1 & S1). destruct H2 as (_ & B2 & S2).
  assert (Ew : map (sw a1 a2) T = map (sw a1' a2') T').
  { transitivity (map sig ws).
    - rewrite E1, map_map. reflexivity.
    - rewrite E2, map_map. reflexivity. }
  rewrite <- Ew in B2, S2. revert B1 S1 B2 S2.
  unfold weighted_sum, T, T', Binary64.reals, Q2R, N_sig. simpl.
  generalize (sw a1 a2 {| sig := IZR 1 * / IZR 4;
                bkg := IZR 6755399441055743 * / IZR 9007199254740992 |}).
  generalize (sw a1 a2 {| sig := IZR 1 * / IZR 2; bkg := IZR 1 * / IZR 2 |}).
  intros w2 w1. lra.
Qed.

End SPlotFacts.

Module FrameFacts.
Import Frame.
Local Open Scope R_scope.
Local Open Scope string_scope.

(** Assigning a column that an expression does not read leaves the value of
    the expression unchanged. *)
Lemma eval_expr_insert (df : frame) (target : string) (column : list R)
      (e : expr) :
  target ∉ names e ->
  eval_expr (<[target := column]> df) e = eval_expr df e.
Proof.
  induction e as [name|a IHa b IHb|a IHa b IHb|a IHa n|f a IHa]; simpl;
    intros Hfresh.
  - apply lookup_insert_ne. set_solver.
  - rewrite IHa, IHb by set_solver. reflexivity.
  - rewrite IHa, IHb by set_solver. reflexivity.
  - rewrite IHa by set_solver. reflexivity.
  - rewrite IHa by set_solver. reflexivity.
Qed.

(** An expression whose names are all columns of the frame has a value. *)
Lemma eval_expr_total (df : frame) (e : expr) :
  Forall (fun name => is_Some (df !! name)) (names e) ->
  is_Some (eval_expr df e).
Proof.
  induction e as [name|a IHa b IHb|a IHa b IHb|a IHa n|f a IHa]; simpl;
    intros Hall.
  - inversion Hall; assumption.
  - apply Forall_app in Hall. destruct Hall as [Ha Hb].
    destruct (IHa Ha) as [xs ->], (IHb Hb) as [ys ->]. eauto.
  - apply Forall_app in Hall. destruct Hall as [Ha Hb].
    destruct (IHa Ha) as [xs ->], (IHb Hb) as [ys ->]. eauto.
  - destruct (IHa Hall) as [xs ->]. eauto.
  - destruct (IHa Hall) as [xs ->]. eauto.
Qed.

Lemma eval_Some (target : string) (rhs : expr) (df df' : frame) :
  eval target rhs df = Some df' ->
  exists column, eval_expr df rhs = Some column /\
                 df' = <[target := column]> df.
Proof.
  unfold eval. destruct (eval_expr df rhs) as [column|]; [|discriminate].
  intros [= <-]. eauto.
Qed.

Lemma mup_P_fresh (x : string) :
  x = "mum" \/ x = "mup" -> "mup_P" ∉ names (magnitude x).
Proof.
  intros [-> | ->]; simpl; intros H;
    repeat (apply elem_of_cons in H; destruct H as [H|H]; [discriminate H|]);
    inversion H.
Qed.

Lemma Jpsi_eta_fresh (x : string) :
  x = "mum" \/ x = "mup" -> "Jpsi_eta" ∉ names (magnitude x).
Proof.
  intros [-> | ->]; simpl; intros H;
    repeat (apply elem_of_cons in H; destruct H as [H|H]; [discriminate H|]);
    inversion H.
Qed.

Lemma mc_cell_columns (mc_df df' : frame) :
  mc_cell mc_df = Some df' ->
  exists column,
    eval_expr mc_df (magnitude "mum") = Some column /\
    df' !! "mup_P" = Some column /\ df' !! "mum_P" = Some column.
Proof.
  unfold mc_cell.
  destruct (eval "Jpsi_eta" Jpsi_eta mc_df) as [df1|] eqn:E1; [|discriminate].
  destruct (eval "mup_P" (magnitude "mum") df1) as [df2|] eqn:E2;
    [|discriminate].
  intros E3.
  apply eval_Some in E1, E2, E3.
  destruct E1 as (c1 & Hc1 & ->), E2 as (c2 & Hc2 & ->), E3 as (c3 & Hc3 & ->).
  rewrite eval_expr_insert in Hc3 by (apply mup_P_fresh; auto).
  rewrite Hc2 in Hc3. injection Hc3 as <-.
  rewrite eval_expr_insert in Hc2 by (apply Jpsi_eta_fresh; auto).
  exists c2. split; [exact Hc2|].
  split; [|apply lookup_insert_eq].
  rewrite lookup_insert_ne by discriminate. apply lookup_insert_eq.
Qed.

Lemma data_cell_columns (data_df df' : frame) :
  data_cell data_df = Some df' ->
  df' !! "mup_P" = eval_expr data_df (magnitude "mup") /\
  df' !! "mum_P" = eval_expr data_df (magnitude "mum").
Proof.
  unfold data_cell.
  destruct (eval "mup_P" (magnitude "mup") data_df) as [df1|] eqn:E1;
    [|discriminate].
  intros E2. apply eval_Some in E1, E2.
  destruct E1 as (c1 & Hc1 & ->), E2 as (c2 & Hc2 & ->).
  rewrite eval_expr_insert in Hc2 by (apply mup_P_fresh; auto).
  rewrite Hc1, Hc2. split; [|apply lookup_insert_eq].
  rewrite lookup_insert_ne by discriminate. apply lookup_insert_eq.
Qed.

(** The cells run to their end on frames that have the columns they read. *)
Lemma eval_total (target : string) (rhs : expr) (df : frame) :
  Forall (fun name => is_Some (df !! name)) (names rhs) ->
  exists column, eval target rhs df = Some (<[target := column]> df).
Proof.
  intros Hall. unfold eval.
  destruct (eval_expr_total df rhs Hall) as [column ->]. eauto.
Qed.

Lemma is_Some_insert_other (df : frame) (target name : string)
      (column : list R) :
  is_Some (df !! name) -> is_Some (<[target := column]> df !! name).
Proof.
  intros H. destruct (decide (target = name)) as [->|Hne].
  - rewrite lookup_insert_eq. eauto.
  - rewrite lookup_insert_ne by exact Hne. exact H.
Qed.

Lemma mc_cell_total (mc_df : frame) :
  Forall (fun name => is_Some (mc_df !! name))
         ["Jpsi_PZ"; "Jpsi_P"; "mum_PX"; "mum_PY"; "mum_PZ"] ->
  is_Some (mc_cell mc_df).
Proof.
  intros Hall. rewrite !Forall_cons in Hall.
  destruct Hall as (Hz & Hp & Hx & Hy & Hzz & _). unfold mc_cell.
  destruct (eval_total "Jpsi_eta" Jpsi_eta mc_df) as [c1 ->];
    [simpl; repeat constructor; assumption|].
  destruct (eval_total "mup_P" (magnitude "mum") (<["Jpsi_eta" := c1]> mc_df))
    as [c2 ->];
    [simpl; repeat constructor; apply is_Some_insert_other; assumption|].
  destruct (eval_total "mum_P" (magnitude "mum")
              (<["mup_P" := c2]> (<["Jpsi_eta" := c1]> mc_df))) as [c3 ->];
    [simpl; repeat constructor; do 2 apply is_Some_insert_other; assumption|].
  eauto.
Qed.

Lemma one_candidate_columns :
  eval_expr one_candidate (magnitude "mup") = Some [sqrt 25] /\
  eval_expr one_candidate (magnitude "mum") = Some [sqrt 0].
Proof.
  unfold one_candidate, magnitude. simpl.
  split; simplify_map_eq; simpl; repeat f_equal; ring.
Qed.

Lemma sqrt_25_0 : sqrt 25 <> sqrt 0.
Proof.
  rewrite sqrt_0. pose proof (sqrt_lt_R0 25 ltac:(lra)). lra.
Qed.

(** C10. In the cell that loads the simulated data, the [mup_P] column of
    [mc_df] is computed from the [mum_PX], [mum_PY] and [mum_PZ] columns, so
    the [mup_P] and [mum_P] columns of [mc_df] are equal at every row; in
    [data_df] the [mup_P] column is computed from [mup_PX], [mup_PY] and
    [mup_PZ], and the two columns can differ. *)
Theorem mc_momentum_columns_equal :
  (forall mc_df df' : frame,
     mc_cell mc_df = Some df' ->
     exists column,
       eval_expr mc_df (magnitude "mum") = Some column /\
       df' !! "mup_P" = Some column /\ df' !! "mum_P" = Some column) /\
  (forall mc_df : frame,
     Forall (fun name => is_Some (mc_df !! name))
            ["Jpsi_PZ"; "Jpsi_P"; "mum_PX"; "mum_PY"; "mum_PZ"] ->
     is_Some (mc_cell mc_df)) /\
  (forall data_df df' : frame,
     data_cell data_df = Some df' ->
     df' !! "mup_P" = eval_expr data_df (magnitude "mup") /\
     df' !! "mum_P" = eval_expr data_df (magnitude "mum")) /\
  (exists data_df df' : frame,
     data_cell data_df = Some df' /\ df' !! "mup_P" <> df' !! "mum_P").
Proof.
  split; [exact mc_cell_columns|]. split; [exact mc_cell_total|].
  split; [exact data_cell_columns|].
  destruct one_candidate_columns as [Hp Hm].
  assert (Hcell : data_cell one_candidate =
                  Some (<["mum_P" := [sqrt 0]]>
                          (<["mup_P" := [sqrt 25]]> one_candidate))).
  { unfold data_cell, eval. rewrite Hp.
    rewrite eval_expr_insert by (apply mup_P_fresh; auto).
    rewrite Hm. reflexivity. }
  eexists _, _. split; [exact Hcell|].
  destruct (data_cell_columns _ _ Hcell) as [-> ->]. rewrite Hp, Hm.
  intros [= H]. exact (sqrt_25_0 H).
Qed.

Lemma mc_momentum_columns_equal_witness :
  exists df' column,
    mc_cell one_candidate = Some df' /\
    df' !! "mup_P" = Some column /\ df' !! "mum_P" = Some column.
Proof.
  destruct mc_momentum_columns_equal as (Hequal & Htotal & _).
  destruct (Htotal one_candidate) as [df' Hdf'].
  { unfold one_candidate. repeat constructor; simplify_map_eq; eauto. }
  destruct (Hequal one_candidate df' Hdf') as (column & _ & Hp & Hm).
  exists df', column. auto.
Defined.

Import SPlot(select).

(** ** Added columns *)

Lemma eval_expr_length (n : nat) (df : frame) (e : expr) (column : list R) :
  rectangular n df -> eval_expr df e = Some column -> length column = n.
Proof.
  intros Hrect. revert column.
  induction e as [name|a IHa b IHb|a IHa b IHb|a IHa k|f a IHa]; simpl;
    intros column.
  - apply Hrect.
  - destruct (eval_expr df a) as [xs|]; [|discriminate].
    destruct (eval_expr df b) as [ys|]; [|discriminate].
    intros [= <-]. rewrite length_zip_with, (IHa xs), (IHb ys) by reflexivity.
    lia.
  - destruct (eval_expr df a) as [xs|]; [|discriminate].
    destruct (eval_expr df b) as [ys|]; [|discriminate].
    intros [= <-]. rewrite length_zip_with, (IHa xs), (IHb ys) by reflexivity.
    lia.
  - destruct (eval_expr df a) as [xs|]; [|discriminate].
    intros [= <-]. rewrite length_map. apply IHa. reflexivity.
  - destruct (eval_expr df a) as [xs|]; [|discriminate].
    intros [= <-]. rewrite length_map. apply IHa. reflexivity.
Qed.

(** X11. [eval] on a frame of [n] rows gives a frame of [n] rows: the new
    column holds the value of the expression, and every other column is
    as it was. *)
Theorem eval_keeps_the_frame (n : nat) (target : string) (rhs : expr)
        (df df' : frame) :
  rectangular n df ->
  eval target rhs df = Some df' ->
  rectangular n df' /\
  df' !! target = eval_expr df rhs /\
  forall other, other <> target -> df' !! other = df !! other.
Proof.
  intros Hrect H. apply eval_Some in H. destruct H as (column & Hc & ->).
  split; [|split].
  - intros name col. destruct (decide (target = name)) as [->|Hne].
    + rewrite lookup_insert_eq. intros [= <-].
      eapply eval_expr_length; eassumption.
    + rewrite lookup_insert_ne by exact Hne. apply Hrect.
  - rewrite lookup_insert_eq. symmetry. exact Hc.
  - intros other Hne. apply lookup_insert_ne. congruence.
Qed.

(** Running an assignment again on its own result changes nothing. *)
Lemma eval_again (target : string) (rhs : expr) (df : frame)
      (column : list R) :
  eval_expr df rhs = Some column -> df !! target = Some column ->
  eval target rhs df = Some df.
Proof.
  intros Hc Ht. unfold eval. rewrite Hc. f_equal. apply insert_id, Ht.
Qed.

Lemma Jpsi_eta_reads (target : string) :
  target = "Jpsi_eta" \/ target = "mup_P" \/ target = "mum_P" ->
  target ∉ names Jpsi_eta.
Proof.
  intros [-> | [-> | ->]]; simpl; intros H;
    repeat (apply elem_of_cons in H; destruct H as [H|H]; [discriminate H|]);
    inversion H.
Qed.

Lemma magnitude_reads (target x : string) :
  target = "Jpsi_eta" \/ target = "mup_P" \/ target = "mum_P" ->
  x = "mum" \/ x = "mup" ->
  target ∉ names (magnitude x).
Proof.
  intros [-> | [-> | ->]] [-> | ->]; simpl; intros H;
    repeat (apply elem_of_cons in H; destruct H as [H|H]; [discriminate H|]);
    inversion H.
Qed.

(** X13. Running a cell of [eval] calls a second time leaves the frame as
    the first run made it. *)
Theorem cells_can_be_run_again :
  (forall mc_df df', mc_cell mc_df = Some df' -> mc_cell df' = Some df') /\
  (forall data_df df',
     data_cell data_df = Some df' -> data_cell df' = Some df').
Proof.
  split.
  - intros mc_df df'. unfold mc_cell at 1.
    destruct (eval "Jpsi_eta" Jpsi_eta mc_df) as [df1|] eqn:E1;
      [|discriminate].
    destruct (eval "mup_P" (magnitude "mum") df1) as [df2|] eqn:E2;
      [|discriminate].
    intros E3. apply eval_Some in E1, E2, E3.
    destruct E1 as (c1 & Hc1 & ->), E2 as (c2 & Hc2 & ->),
             E3 as (c3 & Hc3 & ->).
    set (df' := <["mum_P" := c3]> (<["mup_P" := c2]>
                  (<["Jpsi_eta" := c1]> mc_df))).
    assert (H1 : eval_expr df' Jpsi_eta = Some c1).
    { unfold df'. rewrite !eval_expr_insert by (apply Jpsi_eta_reads; auto).
      exact Hc1. }
    assert (H2 : eval_expr df' (magnitude "mum") = Some c2).
    { unfold df'.
      rewrite (eval_expr_insert _ "mum_P")
        by (apply magnitude_reads; auto).
      rewrite (eval_expr_insert _ "mup_P")
        by (apply magnitude_reads; auto). exact Hc2. }
    assert (H3 : eval_expr df' (magnitude "mum") = Some c3).
    { unfold df'.
      rewrite (eval_expr_insert _ "mum_P")
        by (apply magnitude_reads; auto). exact Hc3. }
    unfold mc_cell.
    rewrite (eval_again "Jpsi_eta" Jpsi_eta df' c1 H1)
      by (unfold df'; simplify_map_eq; reflexivity).
    rewrite (eval_again "mup_P" (magnitude "mum") df' c2 H2)
      by (unfold df'; simplify_map_eq; reflexivity).
    apply (eval_again "mum_P" (magnitude "mum") df' c3 H3).
    unfold df'. simplify_map_eq. reflexivity.
  - intros data_df df'. unfold data_cell at 1.
    destruct (eval "mup_P" (magnitude "mup") data_df) as [df1|] eqn:E1;
      [|discriminate].
    intros E2. apply eval_Some in E1, E2.
    destruct E1 as (c1 & Hc1 & ->), E2 as (c2 & Hc2 & ->).
    set (df' := <["mum_P" := c2]> (<["mup_P" := c1]> data_df)).
    assert (H1 : eval_expr df' (magnitude "mup") = Some c1).
    { unfold df'. rewrite !eval_expr_insert
        by (apply magnitude_reads; auto). exact Hc1. }
    assert (H2 : eval_expr df' (magnitude "mum") = Some c2).
    { unfold df'.
      rewrite (eval_expr_insert _ "mum_P")
        by (apply magnitude_reads; auto). exact Hc2. }
    unfold data_cell.
    rewrite (eval_again "mup_P" (magnitude "mup") df' c1 H1)
      by (unfold df'; simplify_map_eq; reflexivity).
    apply (eval_again "mum_P" (magnitude "mum") df' c2 H2).
    unfold df'. simplify_map_eq. reflexivity.
Qed.

(** X14. The two assignments of the data cell do not depend on each other:
    in the other order they give the same columns, each with the same
    values, or fail both.  A frame is read here as its columns by name, so
    the statement says nothing about the position of the two new columns
    in the frame. *)
Theorem data_cell_in_either_order (data_df : frame) :
  data_cell data_df =
  match eval "mum_P" (magnitude "mum") data_df with
  | Some df1 => eval "mup_P" (magnitude "mup") df1
  | None => None
  end.
Proof.
  unfold data_cell, eval.
  destruct (eval_expr data_df (magnitude "mup")) as [cp|] eqn:Hp.
  - rewrite eval_expr_insert by (apply magnitude_reads; auto).
    destruct (eval_expr data_df (magnitude "mum")) as [cm|] eqn:Hm;
      [|reflexivity].
    rewrite eval_expr_insert by (apply magnitude_reads; auto).
    rewrite Hp. f_equal. apply insert_insert_ne. discriminate.
  - destruct (eval_expr data_df (magnitude "mum")) as [cm|] eqn:Hm;
      [|reflexivity].
    rewrite eval_expr_insert by (apply magnitude_reads; auto).
    rewrite Hp. reflexivity.
Qed.

Lemma one_candidate_rectangular : rectangular 1 one_candidate.
Proof.
  intros name column H. unfold one_candidate in H.
  repeat (apply lookup_insert_Some in H;
          destruct H as [[_ <-]|[_ H]]; [reflexivity|]).
  rewrite lookup_empty in H. discriminate.
Qed.

Lemma eval_keeps_the_frame_witness :
  rectangular 1 (<["mup_P" := [sqrt 25]]> one_candidate).
Proof.
  refine (proj1 (eval_keeps_the_frame 1 "mup_P" (magnitude "mup")
                   one_candidate _ one_candidate_rectangular _)).
  unfold eval. rewrite (proj1 one_candidate_columns). reflexivity.
Defined.

Lemma cells_can_be_run_again_witness :
  exists df', mc_cell one_candidate = Some df' /\ mc_cell df' = Some df'.
Proof.
  destruct (mc_cell_total one_candidate) as [df' Hdf'].
  { unfold one_candidate. repeat constructor; simplify_map_eq; eauto. }
  exists df'. split; [exact Hdf'|].
  exact (proj1 cells_can_be_run_again one_candidate df' Hdf').
Defined.

(** ** Selections *)

Lemma ltb_true (x y : R) : ltb x y = true <-> x < y.
Proof. unfold ltb. destruct (Rlt_dec x y); split; try discriminate; tauto. Qed.

Lemma select_map {A B} (f : A -> B) (mask : list bool) (l : list A) :
  select mask (map f l) = map f (select mask l).
Proof.
  revert l. induction mask as [|b mask IH]; intros [|x l]; simpl;
    try reflexivity.
  destruct b; simpl; rewrite IH; reflexivity.
Qed.

Lemma select_zip_with {A B C} (f : A -> B -> C) (mask : list bool)
      (l : list A) (k : list B) :
  select mask (zip_with f l k) = zip_with f (select mask l) (select mask k).
Proof.
  revert l k. induction mask as [|b mask IH]; intros [|x l] [|y k]; simpl;
    try reflexivity.
  - destruct b; [reflexivity|]. destruct (select mask l); reflexivity.
  - destruct b; simpl; rewrite IH; reflexivity.
Qed.

Lemma select_nil_r {A} (mask : list bool) : select mask (@nil A) = [].
Proof. destruct mask; reflexivity. Qed.

Lemma select_select {A} (ma mb : list bool) (l : list A) :
  select (select ma mb) (select ma l) = select (zip_with andb ma mb) l.
Proof.
  revert mb l. induction ma as [|a ma IH]; intros [|b mb] [|x l]; simpl;
    try reflexivity.
  - apply select_nil_r.
  - destruct a; simpl; [destruct b|]; rewrite IH; reflexivity.
Qed.

Lemma length_select_le {A} (mask : list bool) (l : list A) :
  (length (select mask l) <= length l)%nat.
Proof.
  revert l. induction mask as [|b mask IH]; intros [|x l]; simpl; try lia.
  specialize (IH l). destruct b; simpl; lia.
Qed.

Lemma length_select {A} (mask : list bool) (l : list A) :
  length l = length mask -> length (select mask l) = rows_kept mask.
Proof.
  unfold rows_kept. revert l.
  induction mask as [|b mask IH]; intros [|x l]; simpl; try discriminate;
    [reflexivity|].
  intros [= Hlen]. destruct b; simpl; rewrite (IH _ Hlen); reflexivity.
Qed.

Lemma select_lookup {A} (mask : list bool) (l : list A) (i : nat) :
  length l = length mask ->
  select mask l !! i = origin mask i ≫= (l !!.).
Proof.
  revert l i. induction mask as [|b mask IH]; intros [|x l] i; simpl;
    try discriminate; [reflexivity|].
  intros [= Hlen]. destruct b.
  - destruct i as [|i]; simpl; [reflexivity|].
    rewrite (IH _ _ Hlen). destruct (origin mask i); reflexivity.
  - rewrite (IH _ _ Hlen). destruct (origin mask i); reflexivity.
Qed.

Lemma origin_kept (mask : list bool) (i j : nat) :
  origin mask i = Some j -> mask !! j = Some true.
Proof.
  revert i j. induction mask as [|b mask IH]; intros i j; simpl;
    [discriminate|].
  destruct b.
  - destruct i as [|i]; [intros [= <-]; reflexivity|].
    destruct (origin mask i) as [k|] eqn:E; [|discriminate].
    intros [= <-]. simpl. eapply IH, E.
  - destruct (origin mask i) as [k|] eqn:E; [|discriminate].
    intros [= <-]. simpl. eapply IH, E.
Qed.

Lemma kept_origin (mask : list bool) (j : nat) :
  mask !! j = Some true -> exists i, origin mask i = Some j.
Proof.
  revert j. induction mask as [|b mask IH]; intros [|j]; simpl;
    try discriminate.
  - intros [= ->]. exists 0%nat. reflexivity.
  - intros Hj. destruct (IH _ Hj) as [i Hi]. destruct b.
    + exists (S i). rewrite Hi. reflexivity.
    + exists i. rewrite Hi. reflexivity.
Qed.

Lemma eval_cond_length (n : nat) (df : frame) (c : cond) (mask : list bool) :
  rectangular n df -> eval_cond df c = Some mask -> length mask = n.
Proof.
  intros Hrect. revert mask.
  induction c as [name x|lo name hi|a IHa b IHb|a IHa]; simpl; intros mask.
  - destruct (df !! name) as [col|] eqn:E; [|discriminate].
    intros [= <-]. rewrite length_map. eapply Hrect, E.
  - destruct (df !! name) as [col|] eqn:E; [|discriminate].
    intros [= <-]. rewrite length_map. eapply Hrect, E.
  - destruct (eval_cond df a) as [ma|]; [|discriminate].
    destruct (eval_cond df b) as [mb|]; [|discriminate].
    intros [= <-]. rewrite length_zip_with, (IHa ma), (IHb mb) by reflexivity.
    lia.
  - destruct (eval_cond df a) as [ma|]; [|discriminate].
    intros [= <-]. rewrite length_map. apply IHa. reflexivity.
Qed.

(** The condition of a selected frame is the selected condition. *)
Lemma eval_cond_select (df : frame) (mask : list bool) (c : cond) :
  eval_cond (select mask <$> df) c = select mask <$> eval_cond df c.
Proof.
  induction c as [name x|lo name hi|a IHa b IHb|a IHa]; simpl.
  - rewrite lookup_fmap. destruct (df !! name); simpl; [|reflexivity].
    rewrite select_map. reflexivity.
  - rewrite lookup_fmap. destruct (df !! name); simpl; [|reflexivity].
    rewrite select_map. reflexivity.
  - rewrite IHa, IHb.
    destruct (eval_cond df a), (eval_cond df b); simpl; try reflexivity.
    rewrite select_zip_with. reflexivity.
  - rewrite IHa. destruct (eval_cond df a); simpl; [|reflexivity].
    rewrite select_map. reflexivity.
Qed.

(** X15. Cuts compose: selecting with [a & b] is selecting with [a] and
    then, in the result, with [b]; one fails exactly when the other does. *)
Theorem query_both (a b : cond) (df : frame) :
  query (Both a b) df =
  match query a df with
  | Some df1 => query b df1
  | None => None
  end.
Proof.
  unfold query. simpl.
  destruct (eval_cond df a) as [ma|]; [|reflexivity].
  rewrite eval_cond_select.
  destruct (eval_cond df b) as [mb|]; simpl; [|reflexivity].
  f_equal. rewrite <- map_fmap_compose. apply map_fmap_ext.
  intros name col _. simpl. symmetry. apply select_select.
Qed.

(** X16. A selection keeps whole rows: the result has the columns of the
    frame, all of the same length, no more rows than the frame, and its
    [i]-th row is, in every column, one and the same row of the frame, at
    which the condition holds; every such row of the frame is kept. *)
Theorem query_keeps_whole_rows (n : nat) (c : cond) (df df' : frame) :
  rectangular n df ->
  query c df = Some df' ->
  exists mask,
    eval_cond df c = Some mask /\
    rectangular (rows_kept mask) df' /\
    (rows_kept mask <= n)%nat /\
    (forall name, is_Some (df' !! name) <-> is_Some (df !! name)) /\
    (forall name column column' i,
       df !! name = Some column -> df' !! name = Some column' ->
       column' !! i = origin mask i ≫= (column !!.)) /\
    (forall i j, origin mask i = Some j -> mask !! j = Some true) /\
    (forall j, mask !! j = Some true -> exists i, origin mask i = Some j).
Proof.
  intros Hrect. unfold query.
  destruct (eval_cond df c) as [mask|] eqn:E; [|discriminate].
  intros [= <-]. exists mask.
  pose proof (eval_cond_length n df c mask Hrect E) as Hlen.
  split; [reflexivity|]. split; [|split; [|split; [|split; [|split]]]].
  - intros name col. rewrite lookup_fmap.
    destruct (df !! name) as [col0|] eqn:E0; [|discriminate].
    intros [= <-]. apply length_select. rewrite Hlen. eapply Hrect, E0.
  - unfold rows_kept. rewrite <- Hlen. apply length_select_le.
  - intros name. rewrite lookup_fmap, fmap_is_Some. reflexivity.
  - intros name col col' i Hcol. rewrite lookup_fmap, Hcol.
    intros [= <-]. apply select_lookup. rewrite Hlen. eapply Hrect, Hcol.
  - apply origin_kept.
  - apply kept_origin.
Qed.

Lemma select_Forall {A} (P : A -> Prop) (mask : list bool) (l : list A) :
  (forall j x, mask !! j = Some true -> l !! j = Some x -> P x) ->
  Forall P (select mask l).
Proof.
  revert l. induction mask as [|b mask IH]; intros [|x l] H; simpl;
    try constructor.
  destruct b.
  - constructor; [apply (H 0%nat x); reflexivity|].
    apply IH. intros j y Hj Hy. apply (H (S j) y); assumption.
  - apply IH. intros j y Hj Hy. apply (H (S j) y); assumption.
Qed.

Lemma lookup_zip_with_andb (ma mb : list bool) (j : nat) :
  zip_with andb ma mb !! j = Some true ->
  ma !! j = Some true /\ mb !! j = Some true.
Proof.
  rewrite lookup_zip_with.
  destruct (ma !! j) as [[|]|], (mb !! j) as [[|]|]; simpl;
    try discriminate; auto.
Qed.

Lemma lookup_map_true {A} (f : A -> bool) (l : list A) (j : nat) (x : A) :
  map f l !! j = Some true -> l !! j = Some x -> f x = true.
Proof.
  intros H Hx. change (map f l) with (f <$> l) in H.
  rewrite list_lookup_fmap, Hx in H. simpl in H. congruence.
Qed.

(** X17. What the cuts of the lesson keep: the [Jpsi_M] column of [bkg_df]
    is the [Jpsi_M] column of [data_df] without the values inside the
    window from 3.0 to 3.2, the other values as often and in the order in
    which the column has them; after the cut on pT and muon identification
    every kept value of [Jpsi_PT] is above 4 and every kept muon
    probability above 0.9; each of the two selections raises when a column
    it names is missing. *)
Theorem cuts_of_the_lesson (data_df : frame) :
  (forall bkg_df,
     query sideband data_df = Some bkg_df ->
     exists column,
       data_df !! "Jpsi_M" = Some column /\
       bkg_df !! "Jpsi_M" =
       Some (List.filter (fun m => negb (ltb 3.0 m && ltb m 3.2)) column)) /\
  (forall m, negb (ltb 3.0 m && ltb m 3.2) = true <->
             ~ (3.0 < m /\ m < 3.2)) /\
  (forall data_with_cuts_df,
     query pt_and_pid_cut data_df = Some data_with_cuts_df ->
     exists pt mum mup,
       data_with_cuts_df !! "Jpsi_PT" = Some pt /\
       data_with_cuts_df !! "mum_ProbNNmu" = Some mum /\
       data_with_cuts_df !! "mup_ProbNNmu" = Some mup /\
       Forall (fun x => 4 < x) pt /\
       Forall (fun x => 0.9 < x) mum /\ Forall (fun x => 0.9 < x) mup) /\
  (data_df !! "Jpsi_M" = None -> query sideband data_df = None) /\
  (data_df !! "Jpsi_PT" = None \/ data_df !! "mum_ProbNNmu" = None \/
   data_df !! "mup_ProbNNmu" = None ->
   query pt_and_pid_cut data_df = None).
Proof.
  split; [|split; [|split; [|split]]].
  - intros bkg_df. unfold query, sideband. simpl.
    destruct (data_df !! "Jpsi_M") as [col|] eqn:E; [|discriminate].
    simpl. intros [= <-]. exists col.
    split; [reflexivity|]. rewrite lookup_fmap, E. simpl.
    rewrite map_map. f_equal.
    apply (SPlotFacts.select_filter
             (fun x => negb (ltb 3.0 x && ltb x 3.2)) col).
  - intros m. rewrite negb_true_iff, andb_false_iff. split.
    + intros Hm [H1 H2]. apply ltb_true in H1, H2.
      destruct Hm as [Hm|Hm]; congruence.
    + intros Hm. destruct (ltb 3.0 m) eqn:E1; [|auto].
      destruct (ltb m 3.2) eqn:E2; [|auto].
      exfalso. apply Hm. split; apply ltb_true; assumption.
  - intros df'. unfold query, pt_and_pid_cut. simpl.
    destruct (data_df !! "Jpsi_PT") as [cpt|] eqn:Ept; [|discriminate].
    destruct (data_df !! "mum_ProbNNmu") as [cmum|] eqn:Emum;
      [|discriminate].
    destruct (data_df !! "mup_ProbNNmu") as [cmup|] eqn:Emup;
      [|discriminate].
    simpl. intros [= <-]. rewrite !lookup_fmap, Ept, Emum, Emup. simpl.
    do 3 eexists. do 3 (split; [reflexivity|]).
    split; [|split]; apply select_Forall; intros j x Hj Hx;
      apply lookup_zip_with_andb in Hj; destruct Hj as [H1 H23];
      apply lookup_zip_with_andb in H23; destruct H23 as [H2 H3];
      apply ltb_true.
    + eapply lookup_map_true; [exact H1|exact Hx].
    + eapply lookup_map_true; [exact H2|exact Hx].
    + eapply lookup_map_true; [exact H3|exact Hx].
  - intros E. unfold query, sideband. simpl. rewrite E. reflexivity.
  - intros H. unfold query, pt_and_pid_cut. simpl.
    destruct H as [E|[E|E]]; rewrite E; simpl.
    + reflexivity.
    + destruct (data_df !! "Jpsi_PT"); simpl; [|reflexivity].
      reflexivity.
    + destruct (data_df !! "Jpsi_PT"); simpl; [|reflexivity].
      destruct (data_df !! "mum_ProbNNmu"); reflexivity.
Qed.

Lemma two_candidates_rectangular : rectangular 2 two_candidates.
Proof.
  intros name column H. unfold two_candidates in H.
  repeat (apply lookup_insert_Some in H;
          destruct H as [[_ <-]|[_ H]]; [reflexivity|]).
  rewrite lookup_empty in H. discriminate.
Qed.

Lemma query_pt_cut_two_candidates :
  query pt_cut two_candidates =
  Some (select (map (fun x => ltb 4 x) [5; 3]) <$> two_candidates).
Proof. reflexivity. Qed.

Lemma query_keeps_whole_rows_witness :
  exists mask,
    eval_cond two_candidates pt_cut = Some mask /\ (rows_kept mask <= 2)%nat.
Proof.
  destruct (query_keeps_whole_rows 2 pt_cut two_candidates _
              two_candidates_rectangular query_pt_cut_two_candidates)
    as (mask & Hmask & _ & Hle & _).
  exists mask. split; assumption.
Defined.

Lemma query_sideband_two_candidates :
  query sideband two_candidates =
  Some (select
          (map negb (map (fun x => ltb 3.0 x && ltb x 3.2) [3.1; 2.9]))
          <$> two_candidates).
Proof. reflexivity. Qed.

Lemma cuts_of_the_lesson_witness :
  exists column,
    two_candidates !! "Jpsi_M" = Some column /\
    (select
       (map negb (map (fun x => ltb 3.0 x && ltb x 3.2) [3.1; 2.9]))
       <$> two_candidates) !! "Jpsi_M" =
    Some (List.filter (fun m => negb (ltb 3.0 m && ltb m 3.2)) column).
Proof.
  exact (proj1 (cuts_of_the_lesson two_candidates) _
               query_sideband_two_candidates).
Defined.

End FrameFacts.

Module WorkflowFacts.
Import Workflow.
Local Open Scope string_scope.
Local Open Scope Z_scope.

Local Arguments strip : simpl never.
Local Arguments runner_env : simpl never.

(** Splits a run along the tests that it makes, in the order in which the
    runner makes them. *)
Ltac split_run es asucc gh :=
  destruct (String.eqb (event_name gh) "pull_request"
            || String.eqb (repository gh) this_repository)%bool eqn:Hjob;
  cbn;
  [destruct (asucc "actions/checkout@v4") eqn:Hcheckout; cbn;
   [destruct (asucc "conda-incubator/setup-miniconda@v2") eqn:Hconda; cbn;
    [destruct (es pip_install =? 0) eqn:Hpip; cbn;
     [destruct (es starterkit_ci_build =? 0) eqn:Hbuild; cbn;
      [destruct (String.eqb (event_name gh) "push"
                 && String.eqb (repository gh) this_repository
                 && String.eqb (ref gh) "refs/heads/master")%bool eqn:Hcond;
       cbn;
       [destruct (es starterkit_ci_deploy =? 0) eqn:Hdeploy; cbn| ]
      | ]
     | ]
    | ]
   | ]
  | ].

(** C7. In every run of the Build webpage workflow, the Deploy webpage
    step executes only when the event is a push, the repository is
    hsf-training/analysis-essentials and the ref is refs/heads/master, hence
    never in a pull_request run; and when it executes, the token
    (INPUT_GITHUB_TOKEN) and the repository slug (TRAVIS_REPO_SLUG) are set
    in the environment in which [starterkit_ci deploy] is invoked. *)
Theorem deploy_only_on_push_to_master (exit_status : list string -> Z)
        (action_succeeds : string -> bool) (secrets : string -> string)
        (gh : github) (env : gmap string string) :
  In (Invoked starterkit_ci_deploy env)
     (snd (run exit_status action_succeeds secrets gh)) ->
  (event_name gh = "push" /\
   repository gh = "hsf-training/analysis-essentials" /\
   ref gh = "refs/heads/master") /\
  event_name gh <> "pull_request" /\
  env !! "INPUT_GITHUB_TOKEN" = Some (secrets "GITHUB_TOKEN") /\
  env !! "TRAVIS_REPO_SLUG" = Some (repository gh).
Proof.
  unfold run, run_job, build_pages. cbn.
  split_run exit_status action_succeeds gh; intros Hin;
    repeat (destruct Hin as [Hin|Hin]; [try discriminate Hin|]);
    try contradiction.
  all: injection Hin as <-.
  all: apply andb_prop in Hcond; destruct Hcond as [Hcond Href].
  all: apply andb_prop in Hcond; destruct Hcond as [Hpush Hrepo].
  all: apply String.eqb_eq in Hpush, Hrepo, Href.
  all: repeat split; try assumption.
  all: try (rewrite Hpush; discriminate).
  all: try apply lookup_insert_eq.
  all: rewrite lookup_insert_ne by discriminate; apply lookup_insert_eq.
Qed.

Lemma deploy_only_on_push_to_master_witness :
  (event_name (Github "push" this_repository "refs/heads/master") = "push" /\
   repository (Github "push" this_repository "refs/heads/master") =
     "hsf-training/analysis-essentials" /\
   ref (Github "push" this_repository "refs/heads/master") =
     "refs/heads/master").
Proof.
  eapply proj1.
  eapply (deploy_only_on_push_to_master (fun _ => 0) (fun _ => true)
            (fun _ => "token")
            (Github "push" this_repository "refs/heads/master")).
  cbn. do 4 right. left. reflexivity.
Defined.

(** Once a step has failed, the steps without a status check function in
    their condition are all skipped. *)
Lemma nothing_runs_after_failure (exit_status : list string -> Z)
      (action_succeeds : string -> bool) (secrets : string -> string)
      (gh : github) (l : list step) :
  forallb plain l = true ->
  run_steps exit_status action_succeeds secrets gh false l = (false, []).
Proof.
  induction l as [|s l IH]; simpl; [reflexivity|].
  intros H. apply andb_prop in H. destruct H as [Hs Hl].
  assert (Hskip : step_runs gh false (cond s) = false).
  { unfold plain in Hs. unfold step_runs.
    destruct (cond s) as [e|]; [|reflexivity].
    destruct (has_status_check e); [discriminate Hs|reflexivity]. }
  rewrite Hskip. apply IH, Hl.
Qed.

Lemma build_pages_plain : forallb plain (steps build_pages) = true.
Proof. reflexivity. Qed.

(** C8. In a run of the Build webpage workflow the build command and the
    deploy command are each invoked at most once; when [starterkit_ci build]
    or [starterkit_ci deploy] is invoked and exits with a non-zero status the
    job fails, and nothing runs after it: no step of the job retries or
    recovers. *)
Theorem build_and_deploy_run_once_and_fail_the_job
        (exit_status : list string -> Z) (action_succeeds : string -> bool)
        (secrets : string -> string) (gh : github) :
  let conclusion := fst (run exit_status action_succeeds secrets gh) in
  let trace := snd (run exit_status action_succeeds secrets gh) in
  (invocations starterkit_ci_build trace <= 1)%nat /\
  (invocations starterkit_ci_deploy trace <= 1)%nat /\
  (invocations starterkit_ci_build trace = 1%nat ->
   exit_status starterkit_ci_build <> 0 ->
   conclusion = Failed /\ after starterkit_ci_build trace = []) /\
  (invocations starterkit_ci_deploy trace = 1%nat ->
   exit_status starterkit_ci_deploy <> 0 ->
   conclusion = Failed /\ after starterkit_ci_deploy trace = []) /\
  forallb plain (steps build_pages) = true.
Proof.
  unfold run, run_job, build_pages. cbn.
  pose proof (Z.eqb_neq (exit_status starterkit_ci_build) 0) as Nbuild.
  pose proof (Z.eqb_neq (exit_status starterkit_ci_deploy) 0) as Ndeploy.
  split_run exit_status action_succeeds gh.
  all: repeat split; try lia; try discriminate; try reflexivity.
  all: intros _ Hne; exfalso;
       first [apply Nbuild in Hne | apply Ndeploy in Hne]; discriminate Hne.
Qed.

Lemma build_and_deploy_run_once_and_fail_the_job_witness :
  fst (run (fun argv => if argv_eqb argv starterkit_ci_build then 2 else 0)
           (fun _ => true) (fun _ => "token")
           (Github "push" this_repository "refs/heads/master")) = Failed /\
  after starterkit_ci_build
    (snd (run (fun argv => if argv_eqb argv starterkit_ci_build then 2 else 0)
              (fun _ => true) (fun _ => "token")
              (Github "push" this_repository "refs/heads/master"))) = [].
Proof.
  apply (proj1 (proj2 (proj2
           (build_and_deploy_run_once_and_fail_the_job
              (fun argv => if argv_eqb argv starterkit_ci_build then 2 else 0)
              (fun _ => true) (fun _ => "token")
              (Github "push" this_repository "refs/heads/master"))))).
  - reflexivity.
  - cbn. discriminate.
Defined.

(** Turns the outcomes of the tests of a run into equations. *)
Ltac outcomes :=
  repeat match goal with
  | H : (_ || _)%bool = true |- _ =>
      apply orb_true_iff in H; destruct H
  | H : (_ || _)%bool = false |- _ =>
      apply orb_false_iff in H; destruct H
  | H : (_ && _)%bool = true |- _ =>
      apply andb_true_iff in H; destruct H
  | H : (_ && _)%bool = false |- _ =>
      apply andb_false_iff in H; destruct H
  | H : String.eqb _ _ = true |- _ => apply String.eqb_eq in H
  | H : String.eqb _ _ = false |- _ => apply String.eqb_neq in H
  | H : Z.eqb _ _ = true |- _ => apply Z.eqb_eq in H
  | H : Z.eqb _ _ = false |- _ => apply Z.eqb_neq in H
  end.

(** X18. The job runs for every pull request and for the pushes in the
    home repository; a push in another repository is skipped, and a
    skipped job uses no action and invokes no program. *)
Theorem job_skipped_outside_the_repository
        (exit_status : list string -> Z) (action_succeeds : string -> bool)
        (secrets : string -> string) (gh : github) :
  (fst (run exit_status action_succeeds secrets gh) = Skipped <->
   event_name gh <> "pull_request" /\
   repository gh <> "hsf-training/analysis-essentials") /\
  (fst (run exit_status action_succeeds secrets gh) = Skipped ->
   snd (run exit_status action_succeeds secrets gh) = []).
Proof.
  unfold run, run_job, build_pages. cbn.
  split_run exit_status action_succeeds gh; outcomes;
    unfold this_repository in *;
    intuition (try congruence; try discriminate).
Qed.

Lemma job_skipped_outside_the_repository_witness :
  fst (run (fun _ => 0) (fun _ => true) (fun _ => "token")
           (Github "push" "someone/analysis-essentials"
                   "refs/heads/master")) = Skipped.
Proof.
  apply (proj1 (job_skipped_outside_the_repository (fun _ => 0)
                  (fun _ => true) (fun _ => "token")
                  (Github "push" "someone/analysis-essentials"
                          "refs/heads/master"))).
  split; discriminate.
Defined.

(** X19. The page is built exactly when the job runs and the three steps
    before the build succeed; it is deployed exactly when, moreover, the
    build exits with status 0 and the run is a push to master of the home
    repository.  A failed build is never deployed. *)
Theorem build_and_deploy_invoked_iff
        (exit_status : list string -> Z) (action_succeeds : string -> bool)
        (secrets : string -> string) (gh : github) :
  let trace := snd (run exit_status action_succeeds secrets gh) in
  (invocations starterkit_ci_build trace = 1%nat <->
   (event_name gh = "pull_request" \/
    repository gh = "hsf-training/analysis-essentials") /\
   action_succeeds "actions/checkout@v4" = true /\
   action_succeeds "conda-incubator/setup-miniconda@v2" = true /\
   exit_status pip_install = 0) /\
  (invocations starterkit_ci_deploy trace = 1%nat <->
   (event_name gh = "push" /\
    repository gh = "hsf-training/analysis-essentials" /\
    ref gh = "refs/heads/master") /\
   action_succeeds "actions/checkout@v4" = true /\
   action_succeeds "conda-incubator/setup-miniconda@v2" = true /\
   exit_status pip_install = 0 /\
   exit_status starterkit_ci_build = 0).
Proof.
  unfold run, run_job, build_pages. cbn.
  split_run exit_status action_succeeds gh; outcomes;
    unfold this_repository in *;
    intuition (try congruence; try discriminate).
Qed.

Lemma build_and_deploy_invoked_iff_witness :
  invocations starterkit_ci_deploy
    (snd (run (fun _ => 0) (fun _ => true) (fun _ => "token")
              (Github "push" this_repository "refs/heads/master"))) = 1%nat.
Proof.
  apply (proj2 (build_and_deploy_invoked_iff (fun _ => 0) (fun _ => true)
                  (fun _ => "token")
                  (Github "push" this_repository "refs/heads/master"))).
  repeat split.
Defined.

(** X20. When [starterkit_ci deploy] is invoked, [TRAVIS_BRANCH] is
    [master]: the export takes the prefix [refs/heads/] off the ref. *)
Theorem deploy_branch_is_master (exit_status : list string -> Z)
        (action_succeeds : string -> bool) (secrets : string -> string)
        (gh : github) (env : gmap string string) :
  In (Invoked starterkit_ci_deploy env)
     (snd (run exit_status action_succeeds secrets gh)) ->
  env !! "TRAVIS_BRANCH" = Some "master".
Proof.
  unfold run, run_job, build_pages. cbn.
  split_run exit_status action_succeeds gh; intros Hin;
    repeat (destruct Hin as [Hin|Hin]; [try discriminate Hin|]);
    try contradiction.
  all: injection Hin as <-; outcomes.
  all: do 2 (rewrite lookup_insert_ne by discriminate).
  all: rewrite lookup_insert_eq; unfold runner_env;
       rewrite lookup_insert_eq; simpl.
  all: match goal with H : ref _ = _ |- _ => rewrite H end; reflexivity.
Qed.

Lemma deploy_branch_is_master_witness :
  exists env,
    In (Invoked starterkit_ci_deploy env)
       (snd (run (fun _ => 0) (fun _ => true) (fun _ => "token")
                 (Github "push" this_repository "refs/heads/master"))) /\
    env !! "TRAVIS_BRANCH" = Some "master".
Proof.
  eexists. split.
  - cbn. do 4 right. left. reflexivity.
  - eapply (deploy_branch_is_master (fun _ => 0) (fun _ => true)
              (fun _ => "token")
              (Github "push" this_repository "refs/heads/master")).
    cbn. do 4 right. left. reflexivity.
Defined.

(** X21. The job succeeds exactly when it runs, the steps before the
    deployment succeed, and the deployment, in the runs that have one,
    exits with status 0. *)
Theorem job_succeeds_iff (exit_status : list string -> Z)
        (action_succeeds : string -> bool) (secrets : string -> string)
        (gh : github) :
  fst (run exit_status action_succeeds secrets gh) = Succeeded <->
  (event_name gh = "pull_request" \/
   repository gh = "hsf-training/analysis-essentials") /\
  action_succeeds "actions/checkout@v4" = true /\
  action_succeeds "conda-incubator/setup-miniconda@v2" = true /\
  exit_status pip_install = 0 /\
  exit_status starterkit_ci_build = 0 /\
  (event_name gh = "push" /\
   repository gh = "hsf-training/analysis-essentials" /\
   ref gh = "refs/heads/master" ->
   exit_status starterkit_ci_deploy = 0).
Proof.
  unfold run, run_job, build_pages. cbn.
  split_run exit_status action_succeeds gh; outcomes;
    unfold this_repository in *;
    intuition (try congruence; try discriminate).
Qed.

Lemma job_succeeds_iff_witness :
  fst (run (fun _ => 0) (fun _ => true) (fun _ => "token")
           (Github "pull_request" "someone/analysis-essentials"
                   "refs/pull/1/merge")) = Succeeded.
Proof.
  apply (job_succeeds_iff (fun _ => 0) (fun _ => true) (fun _ => "token")
           (Github "pull_request" "someone/analysis-essentials"
                   "refs/pull/1/merge")).
  split; [left; reflexivity|]. repeat (split; [reflexivity|]).
  intros (H & _). discriminate H.
Defined.

Lemma runner_env_has_no_token (gh : github) :
  runner_env gh !! "INPUT_GITHUB_TOKEN" = None.
Proof.
  unfold runner_env. do 3 (rewrite lookup_insert_ne by discriminate).
  apply lookup_empty.
Qed.

(** X22. The token reaches the deployment only: no other program of a run
    is invoked with [INPUT_GITHUB_TOKEN] in its environment. *)
Theorem token_only_for_deploy (exit_status : list string -> Z)
        (action_succeeds : string -> bool) (secrets : string -> string)
        (gh : github) (argv : list string) (env : gmap string string) :
  In (Invoked argv env) (snd (run exit_status action_succeeds secrets gh)) ->
  is_Some (env !! "INPUT_GITHUB_TOKEN") ->
  argv = starterkit_ci_deploy.
Proof.
  unfold run, run_job, build_pages. cbn.
  split_run exit_status action_succeeds gh; intros Hin Htoken;
    repeat (destruct Hin as [Hin|Hin]; [try discriminate Hin|]);
    try contradiction.
  all: injection Hin as <- <-; try reflexivity.
  all: rewrite runner_env_has_no_token in Htoken; destruct Htoken;
       discriminate.
Qed.

Lemma token_only_for_deploy_witness :
  starterkit_ci_deploy = starterkit_ci_deploy.
Proof.
  eapply (token_only_for_deploy (fun _ => 0) (fun _ => true)
            (fun _ => "token")
            (Github "push" this_repository "refs/heads/master")).
  - cbn. do 4 right. left. reflexivity.
  - rewrite lookup_insert_eq. eauto.
Defined.

End WorkflowFacts.

Module ClassesFacts.
Import Classes.
Local Open Scope string_scope.
Local Open Scope Z_scope.

(** ** [Storage] *)

Lemma slot_Some (len : nat) (index : Z) (i : nat) :
  slot len index = Some i ->
  (i < len)%nat /\
  (0 <= index < Z.of_nat len /\ Z.of_nat i = index \/
   - Z.of_nat len <= index < 0 /\ Z.of_nat i = Z.of_nat len + index).
Proof.
  unfold slot.
  destruct ((0 <=? index) && (index <? Z.of_nat len))%bool eqn:E1.
  - apply andb_true_iff in E1. destruct E1 as [H1 H2].
    apply Z.leb_le in H1. apply Z.ltb_lt in H2. intros [= <-]. lia.
  - destruct ((- Z.of_nat len <=? index) && (index <? 0))%bool eqn:E2;
      [|discriminate].
    apply andb_true_iff in E2. destruct E2 as [H1 H2].
    apply Z.leb_le in H1. apply Z.ltb_lt in H2. intros [= <-]. lia.
Qed.

Lemma slot_None (len : nat) (index : Z) :
  slot len index = None <-> index < - Z.of_nat len \/ Z.of_nat len <= index.
Proof.
  unfold slot.
  destruct ((0 <=? index) && (index <? Z.of_nat len))%bool eqn:E1.
  - apply andb_true_iff in E1. destruct E1 as [H1 H2].
    apply Z.leb_le in H1. apply Z.ltb_lt in H2. split; [discriminate|lia].
  - destruct ((- Z.of_nat len <=? index) && (index <? 0))%bool eqn:E2.
    + apply andb_true_iff in E2. destruct E2 as [H1 H2].
      apply Z.leb_le in H1. apply Z.ltb_lt in H2. split; [discriminate|lia].
    + apply andb_false_iff in E1, E2. split; [intros _|reflexivity].
      rewrite Z.leb_gt, Z.ltb_ge in E1, E2. lia.
Qed.

(** X23. Indexing a [Storage] fails exactly outside [-len .. len - 1], with
    an [IndexError], for reading and for writing alike; the line is printed
    before the list is indexed, so it is printed in the failing calls too. *)
Theorem storage_index_bounds (self : Storage) (index item : Z) :
  let len := Z.of_nat (length (container self)) in
  (snd (__getitem__ self index) = Raises IndexError <->
   index < - len \/ len <= index) /\
  (snd (__setitem__ self index item) = Raises IndexError <->
   index < - len \/ len <= index) /\
  snd (__getitem__ self index) <> Raises TypeError /\
  snd (__setitem__ self index item) <> Raises TypeError /\
  length (fst (__getitem__ self index)) = 1%nat /\
  length (fst (__setitem__ self index item)) = 1%nat.
Proof.
  cbv zeta. unfold __getitem__, __setitem__.
  rewrite <- (slot_None (length (container self)) index).
  destruct (slot (length (container self)) index) as [i|] eqn:E; simpl.
  - apply slot_Some in E. destruct E as [Hi _].
    destruct (lookup_lt_is_Some_2 _ _ Hi) as [x ->]. simpl.
    repeat split; discriminate.
  - repeat split; discriminate.
Qed.

Lemma storage_index_bounds_witness :
  snd (__getitem__ (__init__ "one") 3) = Raises IndexError.
Proof.
  apply (proj1 (storage_index_bounds (__init__ "one") 3 0)).
  right. simpl. lia.
Defined.

(** X24. Writing an item and reading it back: after [storage[index] = item]
    has succeeded, [storage[index]] is [item], the name and the length of
    the container are unchanged, and so is every other slot. *)
Theorem storage_set_then_get (self self' : Storage) (index item : Z)
        (printed : list string) :
  __setitem__ self index item = (printed, Returns self') ->
  snd (__getitem__ self' index) = Returns item /\
  name self' = name self /\
  length (container self') = length (container self) /\
  forall other,
    slot (length (container self)) other <>
    slot (length (container self)) index ->
    snd (__getitem__ self' other) = snd (__getitem__ self other).
Proof.
  unfold __setitem__.
  destruct (slot (length (container self)) index) as [i|] eqn:E;
    [|discriminate].
  intros [= _ <-]. pose proof (slot_Some _ _ _ E) as [Hi _].
  unfold __getitem__. simpl. rewrite length_insert, E.
  split; [|split; [reflexivity|split; [reflexivity|]]].
  - rewrite list_lookup_insert_eq by exact Hi. reflexivity.
  - intros other Hother.
    destruct (slot (length (container self)) other) as [j|];
      [|reflexivity].
    rewrite list_lookup_insert_ne by congruence. 
    destruct (container self !! j); reflexivity.
Qed.

Lemma storage_set_then_get_witness :
  snd (__getitem__ {| name := "one"; container := [1; 5; 3] |} 2) =
  Returns 3.
Proof.
  exact (proj1 (storage_set_then_get (__init__ "one")
                  {| name := "one"; container := [1; 5; 3] |} 2 3
                  ["setitem of one invoked with index 2 and item 3"]
                  eq_refl)).
Defined.

(** X25. A negative index names the slot counted from the end: for
    [-len <= index < 0], reading or writing at [index] returns what reading
    or writing at [len + index] returns. *)
Theorem storage_negative_index (self : Storage) (index item : Z) :
  let len := Z.of_nat (length (container self)) in
  - len <= index < 0 ->
  snd (__getitem__ self index) = snd (__getitem__ self (len + index)) /\
  snd (__setitem__ self index item) =
  snd (__setitem__ self (len + index) item).
Proof.
  cbv zeta. intros Hneg.
  assert (E : slot (length (container self)) index =
              slot (length (container self))
                   (Z.of_nat (length (container self)) + index)).
  { unfold slot.
    destruct (Z.leb_spec 0 index); [lia|]. simpl.
    destruct (Z.leb_spec (- Z.of_nat (length (container self))) index);
      [|lia].
    destruct (Z.ltb_spec index 0); [|lia]. simpl.
    destruct (Z.leb_spec 0 (Z.of_nat (length (container self)) + index));
      [|lia].
    destruct (Z.ltb_spec (Z.of_nat (length (container self)) + index)
                (Z.of_nat (length (container self)))); [|lia].
    reflexivity. }
  unfold __getitem__, __setitem__. rewrite <- E.
  destruct (slot (length (container self)) index) as [i|]; [|auto].
  destruct (container self !! i); auto.
Qed.

Lemma storage_negative_index_witness :
  snd (__getitem__ (__init__ "one") (-1)) =
  snd (__getitem__ (__init__ "one") (3 + -1)).
Proof.
  refine (proj1 (storage_negative_index (__init__ "one") (-1) 0 _)).
  simpl. lia.
Defined.

(** ** [+] on the classes of the lesson *)

(** X26. Which instances can be added: [x + y] calls [__add__] of [x] and
    gives 42 when the class of [x] is [ValueLeft] or [Value], except that
    for a [ValueLeft] on the left of a [Value] the reflected method of the
    subclass goes first; it calls [__radd__] of [y] and gives 24 in that
    case and when [x] has no [__add__] while [y] is a [ValueRight] or a
    [Value] of another class than [x]; every other sum raises [TypeError].
    The line of [__add__] names the left operand; the line of [__radd__]
    is the same text for every instance. *)
Theorem which_instances_can_be_added (x y : value) :
  let left_adds := bool_decide (type x = ValueLeft \/ type x = Value) in
  let right_adds := bool_decide (type y = ValueRight \/ type y = Value) in
  let subclass_first :=
    bool_decide (type x = ValueLeft /\ type y = Value) in
  add x y =
  if left_adds && negb subclass_first
  then (["add called on " +:+ value_name x], Returns 42)
  else if subclass_first
          || (right_adds && negb (bool_decide (type x = type y)))
       then (["radd called on {self.name}"], Returns 24)
       else ([], Raises TypeError).
Proof.
  destruct x as [[] nx], y as [[] ny]; reflexivity.
Qed.
End ClassesFacts.
